(** * sunbeamlib: configuration resolution and read filtering

    A shallow embedding of [sunbeamlib/config.py] and
    [sunbeamlib/decontam.py].

    Python dictionaries are mutable objects: they live in a store and are
    named by references, so that in-place updates ([target[k] = v]) and
    freshly built dictionaries ([new_cfg = {}]) are told apart.  Every
    function that can raise returns a [result]; functions that build or
    update dictionaries run in the state-and-error monad [M].

    The merges read their argument [new] and never store one of its
    mappings (a mapping of [new] is merged slot by slot into a dictionary
    of the target, or into a fresh one): [new] is taken as plain data that
    shares no dictionary with the target.

    Scope.  The keys of a mapping are strings, as the keys of a sunbeam
    configuration are; a mapping with a key of another type (YAML allows
    integers) is outside the model.  This matters in one place: with an
    integer key the lenient merge can assign into a sequence by index
    ([target[0] = v]), where every string key raises [TypeError].  The
    statements on a failing merge say that they are about string keys. *)

From Stdlib Require Import ZArith String Ascii List Floats Uint63 Lia.
From stdpp Require Import base option list strings.

Local Open Scope string_scope.
Local Open Scope list_scope.

(** ** Python data *)

(** A [pathlib.Path], identified by its string form [str(p)]. *)
Record Path := MkPath { path_str : string }.

(** Immutable scalars. *)
Inductive atom :=
| ANone
| ABool (b : bool)
| AInt (z : Z)
| AFloat (f : float)
| AStr (s : string)
| APath (p : Path).

(** Plain data as a YAML document or a literal denotes it: the [new]
    argument of the merges, and the contents of sequences (of which the
    module only asks whether a key is an element).  The keys of a mapping
    are strings. *)
#[local] Unset Elimination Schemes.
Inductive pyval :=
| PAtom (a : atom)
| PSeq (l : list pyval)
| PMap (m : list (string * pyval)).
#[local] Set Elimination Schemes.

Abbreviation loc := nat.

(** What a dictionary slot (or a variable) holds: a scalar, a sequence, or
    a reference to a dictionary object of the store. *)
Inductive value :=
| VAtom (a : atom)
| VSeq (l : list pyval)
| VRef (l : loc).

(** A dictionary object: insertion-ordered, keys pairwise distinct. *)
Abbreviation dict := (list (string * value)).

Definition keys {A} (d : list (string * A)) : list string := fst <$> d.

Fixpoint dict_get {A} (k : string) (d : list (string * A)) : option A :=
  match d with
  | [] => None
  | (k', v) :: d' => if String.eqb k k' then Some v else dict_get k d'
  end.

Definition dict_has {A} (k : string) (d : list (string * A)) : bool :=
  match dict_get k d with Some _ => true | None => false end.

(** [d[k] = v]: an existing key keeps its place, a new key goes last. *)
Fixpoint dict_set {A} (k : string) (v : A) (d : list (string * A))
  : list (string * A) :=
  match d with
  | [] => [(k, v)]
  | (k', v') :: d' =>
      if String.eqb k k' then (k, v) :: d' else (k', v') :: dict_set k v d'
  end.

(** ** Exceptions and results *)

Inductive exn :=
| KeyError (k : string)
| TypeError
| AttributeError
| ValueError (msg : string)
| ZeroDivisionError
| OverflowError
| RuntimeError
| NotADirectoryError
| OSError
| SystemError. (* a reference to no object: never raised on a well-formed store *)

Inductive result (A : Type) :=
| Ok (a : A)
| Err (e : exn).
Arguments Ok {A} a.
Arguments Err {A} e.

#[global] Instance result_ret : MRet result := λ A a, Ok a.
#[global] Instance result_bind : MBind result := λ A B f r,
  match r with Ok a => f a | Err e => Err e end.

(** ** The store *)

Record state := MkState {
  heap : list dict;         (* the dictionary objects, by reference *)
  stderr : list string      (* what has been written to sys.stderr *)
}.

Definition M (A : Type) : Type := state → result (A * state).

#[global] Instance M_ret : MRet M := λ A a s, Ok (a, s).
#[global] Instance M_bind : MBind M := λ A B f m s,
  match m s with Ok (a, s') => f a s' | Err e => Err e end.

Definition raise {A} (e : exn) : M A := λ _, Err e.

Definition lift {A} (r : result A) : M A := λ s,
  match r with Ok a => Ok (a, s) | Err e => Err e end.

(** [for k, v in items: body] *)
Definition for_each {A} (body : A → M unit) : list A → M unit :=
  fix go l :=
    match l with
    | [] => mret tt
    | x :: l' => body x ;; go l'
    end.

(** [{}] or a dictionary display: a fresh object. *)
Definition alloc (d : dict) : M value := λ s,
  Ok (VRef (length (heap s)), MkState (heap s ++ [d]) (stderr s)).

(** The dictionary object behind a reference. *)
Definition deref (l : loc) : M dict := λ s,
  match heap s !! l with
  | Some d => Ok (d, s)
  | None => Err SystemError
  end.

(** The object behind a reference is updated in place. *)
Definition store (l : loc) (d : dict) : M unit := λ s,
  Ok (tt, MkState (<[l := d]> (heap s)) (stderr s)).

(** [sys.stderr.write(line)] *)
Definition write_stderr (line : string) : M unit := λ s,
  Ok (tt, MkState (heap s) (stderr s ++ [line])).

(** [x.items()]; only mappings have the method. *)
Definition items (x : value) : M dict :=
  match x with
  | VRef l => deref l
  | _ => raise AttributeError
  end.

(** [k in x.keys()] *)
Definition in_keys (k : string) (x : value) : M bool :=
  d ← items x; mret (dict_has k d).

(** [x[k]] for a string [k]: strings and lists take integer indices. *)
Definition getitem (x : value) (k : string) : M value :=
  match x with
  | VRef l =>
      d ← deref l;
      match dict_get k d with
      | Some v => mret v
      | None => raise (KeyError k)
      end
  | _ => raise TypeError
  end.

(** [x[k] = v] for a string [k]: strings, lists and the other scalars take
    no string index. *)
Definition setitem (x : value) (k : string) (v : value) : M unit :=
  match x with
  | VRef l => d ← deref l; store l (dict_set k v d)
  | _ => raise TypeError
  end.

(** [x.get(k, {})]; the default is only kept when it is the result. *)
Definition get_or_empty (x : value) (k : string) : M value :=
  d ← items x;
  match dict_get k d with
  | Some v => mret v
  | None => alloc []
  end.

(** [needle in hay] on strings *)
Fixpoint substring_of (needle hay : string) : bool :=
  String.prefix needle hay ||
  match hay with
  | EmptyString => false
  | String _ hay' => substring_of needle hay'
  end.

Definition is_str (k : string) (v : pyval) : bool :=
  match v with PAtom (AStr s) => String.eqb k s | _ => false end.

(** [k in x] for a string [k]: key membership in a mapping, substring test
    in a string, element test in a list; other objects are not containers. *)
Definition contains (k : string) (x : value) : M bool :=
  match x with
  | VRef l => d ← deref l; mret (dict_has k d)
  | VAtom (AStr s) => mret (substring_of k s)
  | VSeq l => mret (existsb (is_str k) l)
  | VAtom _ => raise TypeError
  end.

(** [isinstance(v, collections.Mapping)] (the alias of
    [collections.abc.Mapping], up to Python 3.9) fails exactly on the
    values that go into a slot as they are. *)
Definition non_mapping (v : pyval) : option value :=
  match v with
  | PAtom a => Some (VAtom a)
  | PSeq l => Some (VSeq l)
  | PMap _ => None
  end.

(** ** DeepMerger *)

(** [_update_dict(target, new)] *)
Fixpoint _update_dict (new : pyval) (target : value) {struct new} : M value :=
  match new with
  | PMap new_items =>
      for_each (λ '(k, v),
        match non_mapping v with
        | None =>
            b ← contains k target;
            r ← (if b : bool
                 then c ← getitem target k; _update_dict v c
                 else c ← alloc []; _update_dict v c);
            setitem target k r
        | Some x => setitem target k x
        end) new_items ;;
      mret target
  | _ => raise AttributeError
  end.

Definition skip_message (k : string) : string :=
  "Key '" +:+ k +:+ "' not found in target, skipping" +:+ String "010" "".

(** [_update_dict_strict(target, new)].  The [elif] repeats the test
    [k in target.keys()] of the first branch on an unchanged store, so one
    test per item decides among the three branches. *)
Fixpoint _update_dict_strict (new : pyval) (target : value) {struct new}
  : M value :=
  match new with
  | PMap new_items =>
      for_each (λ '(k, v),
        b ← in_keys k target;
        if b : bool then
          match non_mapping v with
          | None =>
              c ← get_or_empty target k;
              r ← _update_dict_strict v c;
              setitem target k r
          | Some x => setitem target k x
          end
        else write_stderr (skip_message k)) new_items ;;
      mret target
  | _ => raise AttributeError
  end.

(** ** The environment

    [pathlib], [os], the package metadata and the wording of the errors of
    [semantic_version] are not part of the module: its functions are stated
    over any behaviour of theirs.  The file system is only read, so it is a
    fixed parameter of a run.

    [p.expanduser()] raises [RuntimeError] when [p] starts with [~] or
    [~user] and that home directory cannot be determined: [expands p] tells
    whether it returns, and [expanduser p] is what it returns then. *)
Class Env := {
  Path_of_str : string → Path;        (* Path(s) *)
  expands : Path → bool;              (* p.expanduser() returns *)
  expanduser : Path → Path;           (* p.expanduser(), when it returns *)
  is_absolute : Path → bool;          (* p.is_absolute() *)
  joinpath : Path → Path → Path;      (* p / q *)
  path_exists : Path → bool;          (* p.exists() *)
  resolve : Path → Path;              (* p.resolve() *)
  getcwd : string;                    (* os.getcwd() *)
  getenv : string → option string;    (* os.getenv(name) *)
  listdir : Path → result (list string);  (* os.listdir(p) *)
  read_text : Path → result string;   (* open(p).read() *)
  __version__ : string;               (* sunbeamlib.__version__ *)
  version_error : value → string      (* the message of the ValueError of
                                         Version(x) for a rejected x *)
}.

(** ** semantic_version.Version

    The strict grammar [MAJOR.MINOR.PATCH[-PRERELEASE][+BUILD]] of the
    [semantic_version] package, which the package matches with the pattern
    [^(\d+)\.(\d+)\.(\d+)(?:-([0-9a-zA-Z.-]+))?(?:\+([0-9a-zA-Z.-]+))?$]
    before it checks the components.  [parse] follows the package on
    ASCII strings ([ascii_only]); on other strings [\d] also matches the
    digits of other scripts, which [parse] does not. *)
Module SemVer.

Record t := Make {
  major : Z; minor : Z; patch : Z;
  prerelease : list string; build : list string
}.

Definition is_digit (c : ascii) : bool :=
  (48 <=? nat_of_ascii c)%nat && (nat_of_ascii c <=? 57)%nat.

Definition is_alpha (c : ascii) : bool :=
  ((65 <=? nat_of_ascii c)%nat && (nat_of_ascii c <=? 90)%nat)
  || ((97 <=? nat_of_ascii c)%nat && (nat_of_ascii c <=? 122)%nat).

Definition is_ident_char (c : ascii) : bool :=
  is_digit c || is_alpha c || Ascii.eqb c "." || Ascii.eqb c "-".

Fixpoint all_chars (p : ascii → bool) (s : string) : bool :=
  match s with
  | EmptyString => true
  | String c s' => p c && all_chars p s'
  end.

Fixpoint digits_value (acc : Z) (s : string) : Z :=
  match s with
  | EmptyString => acc
  | String c s' => digits_value (10 * acc + (Z.of_nat (nat_of_ascii c) - 48)) s'
  end.

(** [s.split(sep)] *)
Fixpoint split (sep : ascii) (s : string) : list string :=
  match s with
  | EmptyString => [EmptyString]
  | String c s' =>
      if Ascii.eqb c sep then EmptyString :: split sep s'
      else match split sep s' with
           | [] => [String c EmptyString]
           | w :: ws => String c w :: ws
           end
  end.

(** Cut at the first [sep], if any. *)
Fixpoint cut (sep : ascii) (s : string) : string * option string :=
  match s with
  | EmptyString => (EmptyString, None)
  | String c s' =>
      if Ascii.eqb c sep then (EmptyString, Some s')
      else let '(a, b) := cut sep s' in (String c a, b)
  end.

Definition has_leading_zero (s : string) : bool :=
  match s with
  | String "0" (String _ _) => true
  | _ => false
  end.

(** One of the three numeric components. *)
Definition numeric (s : string) : option Z :=
  match s with
  | EmptyString => None
  | _ => if all_chars is_digit s && negb (has_leading_zero s)
         then Some (digits_value 0 s) else None
  end.

Definition valid_identifier (allow_leading_zeroes : bool) (s : string) : bool :=
  match s with
  | EmptyString => false
  | _ => allow_leading_zeroes
         || negb (all_chars is_digit s && has_leading_zero s)
  end.

(** The dot-separated identifiers after [-] or [+]. *)
Definition identifiers (allow_leading_zeroes : bool) (o : option string)
  : option (list string) :=
  match o with
  | None => Some []
  | Some s =>
      match s with
      | EmptyString => None
      | _ =>
          if all_chars is_ident_char s
             && forallb (valid_identifier allow_leading_zeroes) (split "." s)
          then Some (split "." s) else None
      end
  end.

(** [$] matches at the end of the string and before one final newline. *)
Fixpoint chomp (s : string) : string :=
  match s with
  | EmptyString => EmptyString
  | String c s' =>
      match s' with
      | EmptyString => if Ascii.eqb c "010" then EmptyString else s
      | _ => String c (chomp s')
      end
  end.

Definition ascii_only (s : string) : bool :=
  all_chars (λ c, (nat_of_ascii c <? 128)%nat) s.

Definition parse (s : string) : option t :=
  let '(s1, b) := cut "+" (chomp s) in
  let '(core, p) := cut "-" s1 in
  match split "." core with
  | [x; y; z] =>
      match numeric x, numeric y, numeric z,
            identifiers false p, identifiers true b with
      | Some ma, Some mi, Some pa, Some pre, Some bld =>
          Some (Make ma mi pa pre bld)
      | _, _, _, _, _ => None
      end
  | _ => None
  end.

End SemVer.

Section Config.

Context `{Env}.

(** ** PathResolver *)

(** [Path(x)]: a string or a path. *)
Definition Path_of (x : value) : result Path :=
  match x with
  | VAtom (AStr s) => Ok (Path_of_str s)
  | VAtom (APath p) => Ok p
  | _ => Err TypeError
  end.

(** [makepath(path)] *)
Definition makepath (path : value) : result Path :=
  p ← Path_of path;
  if expands p then Ok (expanduser p) else Err RuntimeError.

Definition not_found_message (p : Path) : string :=
  "Path " +:+ path_str p +:+ " does not exist".

(** [verify(path)] *)
Definition verify (path : value) : result Path :=
  path ← Path_of path;
  if path_exists path then Ok (resolve path)
  else Err (ValueError (not_found_message path)).

(** ** SectionValidator *)

Definition ends_with (suffix s : string) : bool :=
  String.prefix (String.rev suffix) (String.rev s).

Definition key_message (k : string) (p : Path) : string :=
  "For key '" +:+ k +:+ "': path '" +:+ path_str p +:+ "' does not exist".

(** The body of the loop of [validate_paths]: the value stored under [k]. *)
Definition validate_value (root : Path) (k : string) (v : value)
  : result value :=
  if ends_with "_fp" k then
    v ← makepath v;
    let v := if is_absolute v then v else joinpath root v in
    if negb (String.eqb k "output_fp") then
      match verify (VAtom (APath v)) with
      | Ok v => Ok (VAtom (APath v))
      | Err (ValueError _) => Err (ValueError (key_message k v))
      | Err e => Err e
      end
    else Ok (VAtom (APath v))
  else Ok v.

(** [validate_paths(cfg, root)] *)
Definition validate_paths (cfg : value) (root : Path) : M value :=
  new_cfg ← alloc [];
  kvs ← items cfg;
  for_each (λ '(k, v),
    v ← lift (validate_value root k v);
    setitem new_cfg k v) kvs ;;
  mret new_cfg.

(** ** VersionChecker *)

(** Python truth value of a scalar. *)
Definition atom_truthy (a : atom) : bool :=
  match a with
  | ANone => false
  | ABool b => b
  | AInt z => negb (z =? 0)%Z
  | AFloat f => negb (PrimFloat.eqb f 0%float)
  | AStr s => negb (String.eqb s "")
  | APath _ => true
  end.

(** [Version(x)] for [x] that is no dictionary: a false value is no
    version, a true one has to be a string for the pattern to match.
    Whether a dictionary is false is for the store to tell: see
    [Version_in]. *)
Definition Version (x : value) : result SemVer.t :=
  match x with
  | VAtom (AStr s) =>
      match SemVer.parse s with
      | Some v => Ok v
      | None => Err (ValueError (version_error x))
      end
  | VAtom a => if atom_truthy a then Err TypeError
               else Err (ValueError (version_error x))
  | VSeq [] => Err (ValueError (version_error x))
  | _ => Err TypeError
  end.

(** [Version(x)] for any [x]: an empty dictionary is false as well, one
    that is not empty is no string. *)
Definition Version_in (x : value) : M SemVer.t :=
  match x with
  | VRef l =>
      d ← deref l;
      match d with
      | [] => raise (ValueError (version_error x))
      | _ => raise TypeError
      end
  | _ => lift (Version x)
  end.

(** [x.get(k, default)] *)
Definition get_method (x : value) (k : string) (default : value) : M value :=
  d ← items x;
  mret (match dict_get k d with Some v => v | None => default end).

(** [check_compatibility(cfg)] *)
Definition check_compatibility (cfg : value) : M (Z * Z) :=
  all ← getitem cfg "all";
  v ← get_method all "version" (VAtom (AStr "0.0.0"));
  cfg_version ← Version_in v;
  pkg_version ← lift (Version (VAtom (AStr __version__)));
  mret (SemVer.major pkg_version, SemVer.major cfg_version).

(** ** ConfigValidator *)

(** [check_config(cfg)] *)
Definition check_config (cfg : value) : M value :=
  all ← getitem cfg "all";
  b ← contains "root" all;
  root ← (if b : bool
          then r ← getitem all "root"; lift (verify r)
          else mret (Path_of_str getcwd));
  sections ← items cfg;
  new_cfg ← alloc [];
  for_each (λ '(section, values),
    r ← validate_paths values root;
    setitem new_cfg section r) sections ;;
  new_all ← getitem new_cfg "all";
  setitem new_all "root" (VAtom (APath root)) ;;
  mret new_cfg.

(** ** DatabaseIndexExpander *)

(** Python truth value: empty containers are false. *)
Definition truthy (x : value) : M bool :=
  match x with
  | VAtom a => mret (atom_truthy a)
  | VSeq l => mret (match l with [] => false | _ => true end)
  | VRef l => d ← deref l; mret (match d with [] => false | _ => true end)
  end.

(** [{db: str(root/path) for db, path in group.items()}] *)
Definition expand_group (root : Path) (group : value) : M value :=
  kvs ← items group;
  out ← alloc [];
  for_each (λ '(db, path),
    p ← lift (Path_of path);
    setitem out db (VAtom (AStr (path_str (joinpath root p))))) kvs ;;
  mret out.

(** [process_databases(db_dict)] *)
Definition process_databases (db_dict : value) : M value :=
  n0 ← alloc [];
  p0 ← alloc [];
  dbs ← alloc [("nucl", n0); ("prot", p0)];
  r ← getitem db_dict "root_fp";
  root ← lift (p ← makepath r; verify (VAtom (APath p)));
  nucl ← get_method db_dict "nucleotide" (VAtom ANone);
  prot ← get_method db_dict "protein" (VAtom ANone);
  bn ← truthy nucl;
  (if bn : bool
   then g ← expand_group root nucl; setitem dbs "nucl" g
   else mret tt) ;;
  bp ← truthy prot;
  (if bp : bool
   then g ← expand_group root prot; setitem dbs "prot" g
   else mret tt) ;;
  mret dbs.

(** ** ExtensionAggregator *)

Definition join_str (p : Path) (s : string) : Path :=
  joinpath p (Path_of_str s).

(** One round of the loop of [extension_config]: the accumulator after
    the entry [sbx]. *)
Definition extension_step (sunbeam_dir : Path) (config sbx : string)
  : result string :=
  match listdir (join_str (join_str sunbeam_dir "extensions") sbx) with
  | Err NotADirectoryError => Ok config
  | Err e => Err e
  | Ok sbx_files =>
      if existsb (String.eqb "config.yml") sbx_files then
        let sbx_config_fp :=
          join_str (join_str (join_str sunbeam_dir "extensions") sbx)
                   "config.yml" in
        text ← read_text sbx_config_fp;
        let sbx_config := String "010" "" +:+ text in
        Ok (config +:+ sbx_config)
      else Ok config
  end.

Fixpoint extension_loop (sunbeam_dir : Path) (config : string)
    (entries : list string) : result string :=
  match entries with
  | [] => Ok config
  | sbx :: rest =>
      config ← extension_step sunbeam_dir config sbx;
      extension_loop sunbeam_dir config rest
  end.

(** [extension_config()] *)
Definition extension_config : result string :=
  let config := "" in
  let sunbeam_dir :=
    Path_of_str (match getenv "SUNBEAM_DIR" with
                 | Some d => d
                 | None => getcwd
                 end) in
  entries ← listdir (join_str sunbeam_dir "extensions");
  extension_loop sunbeam_dir config entries.

End Config.

(** ** Read filter ([decontam.py])

    Python floats are IEEE 754 binary64 numbers, as are the primitive
    floats. *)
Module Decontam.

(** The fields of a [pysam.AlignedSegment] the filter reads; [None] is
    what pysam gives for a record without CIGAR or reference span. *)
Record read := MkRead {
  is_unmapped : bool;
  query_name : string;
  cigartuples : option (list (Z * Z));   (* (operation, length) *)
  NM : option Z;                         (* the "NM" tag, when present *)
  alen : option Z;
  query_alignment_length : Z
}.

(** The binary64 number nearest to an integer (ties to even). *)
Definition nearest_float (n : Z) : float :=
  SF2Prim (binary_normalize prec emax n 0 false).

(** [float(n)] for an integer [n] *)
Definition float_of_int (n : Z) : result float :=
  let f := nearest_float n in
  if PrimFloat.is_infinity f then Err OverflowError else Ok f.

(** [x / n] for a float [x] and an integer [n] *)
Definition true_div (x : float) (n : Z) : result float :=
  d ← float_of_int n;
  if (n =? 0)%Z then Err ZeroDivisionError else Ok (x / d)%float.

(** [_get_pct_identity(read)] *)
Definition _get_pct_identity (r : read) : result float :=
  let edit_dist := match NM r with Some d => d | None => 0%Z end in
  e ← float_of_int edit_dist;
  match alen r with
  | None => Err TypeError
  | Some a =>
      pct_mm ← true_div e a;
      Ok (1 - pct_mm)%float
  end.

(** The loop of [_get_frac]. *)
Fixpoint clip_loop (clip : Z) (cigar : list (Z * Z)) : Z :=
  match cigar with
  | [] => clip
  | (op, len) :: rest =>
      if (op =? 4)%Z || (op =? 5)%Z
      then clip_loop (clip + len)%Z rest
      else clip_loop clip rest
  end.

(** [_get_frac(read)] *)
Definition _get_frac (r : read) : result float :=
  match cigartuples r with
  | None => Err TypeError
  | Some cigar =>
      let clip := clip_loop 0 cigar in
      q ← float_of_int (query_alignment_length r);
      true_div q (query_alignment_length r + clip)
  end.

(** [x > y] on floats *)
Definition gt (x y : float) : bool := PrimFloat.ltb y x.

(** The condition of the [if], with the short circuits of [and]. *)
Definition keep (r : read) (min_pct_id min_len_frac : float) : result bool :=
  if negb (is_unmapped r) then
    f ← _get_frac r;
    if gt f min_len_frac then
      p ← _get_pct_identity r;
      Ok (gt p min_pct_id)
    else Ok false
  else Ok false.

(** [get_mapped_reads(fp, min_pct_id, min_len_frac)] over the records of
    the alignment file: the names the generator yields, and the
    exception that ends it early, if any. *)
Fixpoint get_mapped_reads (sam : list read) (min_pct_id min_len_frac : float)
  : list string * option exn :=
  match sam with
  | [] => ([], None)
  | r :: rest =>
      match keep r min_pct_id min_len_frac with
      | Err e => ([], Some e)
      | Ok b =>
          let '(names, e) := get_mapped_reads rest min_pct_id min_len_frac in
          (if b then query_name r :: names else names, e)
      end
  end.

End Decontam.

(** ** Stores read as trees

    [repr h t v F]: in the store [h] the value [v] denotes the plain data
    [t], and [F] lists the dictionary objects met on the way, slot by
    slot.  When [F] has no duplicates, no object is shared between two
    slots or contains itself: the store below [v] is a tree. *)
Inductive repr (h : list dict) : pyval → value → list loc → Prop :=
| repr_atom a : repr h (PAtom a) (VAtom a) []
| repr_seq l : repr h (PSeq l) (VSeq l) []
| repr_map T l d F :
    h !! l = Some d →
    NoDup (keys d) →
    repr_items h T d F →
    repr h (PMap T) (VRef l) (l :: F)
with repr_items (h : list dict)
  : list (string * pyval) → dict → list loc → Prop :=
| repr_nil : repr_items h [] [] []
| repr_cons k t v T d F1 F2 :
    repr h t v F1 →
    repr_items h T d F2 →
    repr_items h ((k, t) :: T) ((k, v) :: d) (F1 ++ F2).

Scheme repr_mut := Induction for repr Sort Prop
  with repr_items_mut := Induction for repr_items Sort Prop.
Combined Scheme repr_mutind from repr_mut, repr_items_mut.

(** * Auxiliary definitions for the statements *)

Definition succeeds {A} (r : result A) : Prop := ∃ a, r = Ok a.

(** ** Stores before and after a merge *)

Definition is_ref (v : value) : bool :=
  match v with VRef _ => true | _ => false end.

(** Every slot of [h] that holds a scalar or a sequence still does in
    [h']. *)
Definition keeps_scalars (h h' : list dict) : Prop :=
  ∀ l d k v, h !! l = Some d → dict_get k d = Some v → is_ref v = false →
    ∃ d' v', h' !! l = Some d' ∧ dict_get k d' = Some v' ∧ is_ref v' = false.

(** The store [h'] has the dictionaries of [h], each with the key list it
    had, and no other; what was written to [stderr] is still there. *)
Definition same_keys (s s' : state) : Prop :=
  length (heap s') = length (heap s)
  ∧ (∀ l d, heap s !! l = Some d →
       ∃ d', heap s' !! l = Some d' ∧ keys d' = keys d)
  ∧ ∃ out, stderr s' = stderr s ++ out.

(** ** The strict merge on trees *)

(** The value of a slot of [target] after the strict merge, when the slot
    held [t] and [new] gives [n] for its key: kept when [new] does not
    name the key, replaced by a scalar or a sequence, merged key by key
    with a mapping when it is one itself. *)
Fixpoint merge_slot (t : pyval) (n : option pyval) {struct t} : pyval :=
  match n with
  | None => t
  | Some (PMap m) =>
      match t with
      | PMap T => PMap ((λ '(k, tk), (k, merge_slot tk (dict_get k m))) <$> T)
      | _ => t
      end
  | Some leaf => leaf
  end.

(** The strict merge of [new] into the mapping [T]: the keys of [T], each
    with its merged value. *)
Definition merge_strict (T new : list (string * pyval))
  : list (string * pyval) :=
  (λ '(k, tk), (k, merge_slot tk (dict_get k new))) <$> T.

#[local] Unset Elimination Schemes.
(** No mapping of [new] that is not empty meets a scalar or a sequence of
    the target. *)
Inductive compatible : pyval → option pyval → Prop :=
| compat_absent t : compatible t None
| compat_atom t a : compatible t (Some (PAtom a))
| compat_seq t l : compatible t (Some (PSeq l))
| compat_map T m :
    Forall (λ kt, compatible kt.2 (dict_get kt.1 m)) T →
    compatible (PMap T) (Some (PMap m))
| compat_empty t : compatible t (Some (PMap [])).

(** The mappings of a value have distinct keys, as dictionaries do. *)
Inductive distinct_keys : pyval → Prop :=
| distinct_atom a : distinct_keys (PAtom a)
| distinct_seq l : distinct_keys (PSeq l)
| distinct_map m :
    NoDup (keys m) →
    Forall (λ kv, distinct_keys kv.2) m →
    distinct_keys (PMap m).
#[local] Set Elimination Schemes.

(** What the strict merge of [new] does to a tree-shaped target. *)
Definition strict_spec_at (new : pyval) : Prop :=
  ∀ m, new = PMap m → distinct_keys new →
  ∀ tv T F s, repr (heap s) T tv F → NoDup F →
    match _update_dict_strict new tv s with
    | Ok (r, s') =>
        r = tv ∧ ∃ F', repr (heap s') (merge_slot T (Some new)) tv F'
                     ∧ F' ⊆ F ∧ NoDup F'
                     ∧ (∀ l, l ∉ F → heap s' !! l = heap s !! l)
    | Err _ => ¬ compatible T (Some new)
    end.

Definition strict_body (target : value) : string * pyval → M unit :=
  λ '(k, v),
    b ← in_keys k target;
    if b : bool then
      match non_mapping v with
      | None =>
          c ← get_or_empty target k;
          r ← _update_dict_strict v c;
          setitem target k r
      | Some x => setitem target k x
      end
    else write_stderr (skip_message k).

(** The slots [name: reference] of a dictionary whose values are the
    objects allocated one after the other from [start] on. *)
Fixpoint refs_from (start : nat) (names : list string) : dict :=
  match names with
  | [] => []
  | k :: names' => (k, VRef start) :: refs_from (S start) names'
  end.

(** The dictionary a loop [for k, v in d.items(): out[k] = f(k, v)] builds
    in a fresh [out], up to the first exception. *)
Fixpoint map_items (f : string → value → result value) (d : dict)
  : result dict :=
  match d with
  | [] => Ok []
  | (k, v) :: d' =>
      v' ← f k v;
      r ← map_items f d';
      Ok ((k, v') :: r)
  end.

(** A group of a database specification: names with relative paths. *)
Definition group_dict (entries : list (string * string)) : dict :=
  (λ '(db, rel), (db, VAtom (AStr rel))) <$> entries.

(** The group [g] of the specification [d] has the entries [entries]: it is
    absent and there are none, or it is a dictionary holding them. *)
Definition group_of (h : list dict) (d : dict) (g : string)
    (entries : list (string * string)) : Prop :=
  (dict_get g d = None ∧ entries = []) ∨
  (∃ l, dict_get g d = Some (VRef l) ∧ h !! l = Some (group_dict entries)
        ∧ NoDup (keys entries)).

(** The concatenation of a list of strings. *)
Fixpoint join_all (l : list string) : string :=
  match l with
  | [] => ""
  | x :: l' => x +:+ join_all l'
  end.

Section Statements.

Context `{Env}.

(** A path taken relative to [root] unless it is absolute. *)
Definition under_root (root p : Path) : Path :=
  if is_absolute p then p else joinpath root p.

(** The section [validate_paths] builds, slot by slot. *)
Definition validate_items (root : Path) : dict → result dict :=
  map_items (validate_value root).

(** The sections [check_config] builds, in order. *)
Fixpoint validate_all (root : Path) (secs : list (string * dict))
  : result (list (string * dict)) :=
  match secs with
  | [] => Ok []
  | (sec, ds) :: secs' =>
      ds' ← validate_items root ds;
      r ← validate_all root secs';
      Ok ((sec, ds') :: r)
  end.

(** [cfg] is a configuration tree of the store [h]: every value is a
    section, that is, a dictionary. *)
Definition sections_of (h : list dict) (d : dict) (secs : list (string * dict)) : Prop :=
  Forall2 (λ '(sec, v) '(sec', ds),
    sec = sec' ∧ ∃ l, v = VRef l ∧ h !! l = Some ds ∧ NoDup (keys ds)) d secs.


(** The entries of a group, each path put under [root] and turned into
    its string form. *)
Definition expanded (root : Path) (entries : list (string * string)) : dict :=
  (λ '(db, rel),
     (db, VAtom (AStr (path_str (joinpath root (Path_of_str rel))))))
  <$> entries.
(** The directory [extension_config] lists. *)
Definition extensions_dir : Path :=
  join_str (Path_of_str (match getenv "SUNBEAM_DIR" with
                         | Some d => d
                         | None => getcwd
                         end)) "extensions".

(** The entry [sbx] is a directory that holds an entry [config.yml]. *)
Definition has_config (sbx : string) : bool :=
  match listdir (join_str extensions_dir sbx) with
  | Ok files => bool_decide ("config.yml" ∈ files)
  | Err _ => false
  end.

(** The text of the [config.yml] of the entry [sbx]. *)
Definition config_text (sbx : string) : string :=
  match read_text (join_str (join_str extensions_dir sbx) "config.yml") with
  | Ok text => text
  | Err _ => ""
  end.

(** Every fragment after a newline, in the order of the entries. *)
Definition fragments (entries : list string) : string :=
  join_all ((λ sbx, String "010" "" +:+ config_text sbx)
            <$> List.filter has_config entries).

(** The entry [sbx] is no directory, or a directory whose [config.yml],
    if it has one, can be read. *)
Definition readable_entry (sbx : string) : Prop :=
  listdir (join_str extensions_dir sbx) = Err NotADirectoryError
  ∨ ∃ files, listdir (join_str extensions_dir sbx) = Ok files
      ∧ ("config.yml" ∈ files →
         succeeds (read_text (join_str (join_str extensions_dir sbx)
                                       "config.yml"))).
End Statements.

(** [d] is a configuration tree of the store [h]: its keys are distinct
    and every value is a section, a dictionary with distinct keys. *)
Definition config_tree (h : list dict) (d : dict) : Prop :=
  NoDup (keys d) ∧
  ∀ sec v, (sec, v) ∈ d → ∃ l ds, v = VRef l ∧ h !! l = Some ds ∧ NoDup (keys ds).



(** ** The read filter as a predicate

    [selected] is the predicate the code computes; [claimed_selected] is
    the one worded with a single aligned length, for the fraction and for
    the identity alike. *)
Module DecontamSpec.
Import Decontam.

(** The soft- and hard-clipped length of a CIGAR: operations 4 and 5. *)
Definition clipped (cigar : list (Z * Z)) : Z :=
  foldr Z.add 0%Z
    (snd <$> List.filter (λ '(op, _), bool_decide (op = 4 ∨ op = 5)%Z) cigar).

Definition cigar_of (r : read) : list (Z * Z) :=
  match cigartuples r with Some c => c | None => [] end.

(** Aligned length over aligned plus clipped length; the aligned length
    is [query_alignment_length], the aligned bases of the read. *)
Definition aligned_fraction (r : read) : float :=
  (nearest_float (query_alignment_length r)
   / nearest_float (query_alignment_length r + clipped (cigar_of r)))%float.

(** One minus edit distance over the reference span [alen] of the
    alignment (the bases of the reference it covers, deletions included
    and insertions not); no [NM] tag counts as no mismatch. *)
Definition percent_identity (r : read) : float :=
  (1 - nearest_float (match NM r with Some d => d | None => 0%Z end)
       / nearest_float (match alen r with Some a => a | None => 0%Z end))%float.

Definition selected (min_pct_id min_len_frac : float) (r : read) : bool :=
  negb (is_unmapped r)
  && gt (aligned_fraction r) min_len_frac
  && gt (percent_identity r) min_pct_id.

(** One minus edit distance over the aligned length of the aligned
    fraction. *)
Definition claimed_percent_identity (r : read) : float :=
  (1 - nearest_float (match NM r with Some d => d | None => 0%Z end)
       / nearest_float (query_alignment_length r))%float.

Definition claimed_selected (min_pct_id min_len_frac : float) (r : read)
  : bool :=
  negb (is_unmapped r)
  && gt (aligned_fraction r) min_len_frac
  && gt (claimed_percent_identity r) min_pct_id.

Definition finite (n : Z) : Prop :=
  PrimFloat.is_infinity (nearest_float n) = false.

(** A mapped record has a CIGAR, a reference span and lengths that are
    not zero; its integers are in the range of floats. *)
Definition well_formed (r : read) : Prop :=
  is_unmapped r = false →
  ∃ cigar a, cigartuples r = Some cigar ∧ alen r = Some a
    ∧ a ≠ 0%Z
    ∧ (query_alignment_length r + clipped cigar ≠ 0)%Z
    ∧ finite a
    ∧ finite (match NM r with Some d => d | None => 0%Z end)
    ∧ finite (query_alignment_length r)
    ∧ finite (query_alignment_length r + clipped cigar).
End DecontamSpec.
(** ** A sample environment

    A small POSIX-like file system, to run the functions on.  The one
    home directory known is that of the current user, [/home/u]. *)
Module Sample.

(** [~] and [~/...] expand; [~name] names a user that does not exist. *)
Definition sample_expands (p : Path) : bool :=
  match path_str p with
  | String "~" (String c _) => Ascii.eqb c "/"
  | _ => true
  end.

Definition sample_version_error (x : value) : string :=
  match x with
  | VAtom (AStr s) => "Invalid version string: '" +:+ s +:+ "'"
  | _ => "Invalid empty version string"
  end.

Definition existing : list string :=
  ["/work"; "/data"; "/data/db"; "/data/reads"; "/home/u"].

Definition sample_listdir (p : Path) : result (list string) :=
  if String.eqb (path_str p) "/work/extensions"
  then Ok ["README.md"; "sbx_a"; "sbx_b"; "sbx_c"]
  else if String.eqb (path_str p) "/work/extensions/README.md"
  then Err NotADirectoryError
  else if String.eqb (path_str p) "/work/extensions/sbx_a"
  then Ok ["config.yml"; "rules.smk"]
  else if String.eqb (path_str p) "/work/extensions/sbx_b"
  then Ok ["rules.smk"]
  else if String.eqb (path_str p) "/work/extensions/sbx_c"
  then Ok ["config.yml"]
  else Err OSError.

Definition sample_read_text (p : Path) : result string :=
  if String.eqb (path_str p) "/work/extensions/sbx_a/config.yml"
  then Ok "sbx_a: {n: 1}"
  else if String.eqb (path_str p) "/work/extensions/sbx_c/config.yml"
  then Ok "sbx_c: {n: 3}"
  else Err OSError.

#[export] Instance env : Env := {|
  Path_of_str s := MkPath s;
  expands := sample_expands;
  expanduser p :=
    match path_str p with
    | String "~" rest => MkPath ("/home/u" +:+ rest)
    | _ => p
    end;
  is_absolute p := String.prefix "/" (path_str p);
  joinpath p q :=
    if String.prefix "/" (path_str q) then q
    else MkPath (path_str p +:+ "/" +:+ path_str q);
  path_exists p := existsb (String.eqb (path_str p)) existing;
  resolve p := p;
  getcwd := "/work";
  getenv _ := None;
  listdir := sample_listdir;
  read_text := sample_read_text;
  __version__ := "4.0.0";
  version_error := sample_version_error
|}.

End Sample.

(** ** Sample inputs *)

Module Inputs.

(** A configuration [{all: {root, output_fp, version}, qc: {...}}]. *)
Definition all_section : dict :=
  [("root", VAtom (AStr "/data"));
   ("output_fp", VAtom (AStr "out"));
   ("version", VAtom (AStr "3.2.1"))].

Definition qc_section : dict :=
  [("threads", VAtom (AInt 4));
   ("reads_fp", VAtom (AStr "reads"));
   ("home_fp", VAtom (AStr "~"))].

Definition cfg : dict := [("all", VRef 1); ("qc", VRef 2)].

Definition config_store : state :=
  MkState [cfg; all_section; qc_section] [].



(** A database specification with one nucleotide database. *)
Definition nucleotide : list (string * string) := [("db1", "n/db1.fa")].

Definition db_spec : dict :=
  [("root_fp", VAtom (AStr "/data/db")); ("nucleotide", VRef 1)].

Definition db_store : state :=
  MkState [db_spec; group_dict nucleotide] [].

(** A target [{'a': {'x': 1}, 'b': 2, 'c': 3}] for the merges. *)
Definition merge_store : state :=
  MkState [[("a", VRef 1); ("b", VAtom (AInt 2)); ("c", VAtom (AInt 3))];
           [("x", VAtom (AInt 1))]] [].

Definition merge_tree : list (string * pyval) :=
  [("a", PMap [("x", PAtom (AInt 1))]);
   ("b", PAtom (AInt 2));
   ("c", PAtom (AInt 3))].

(** An update for it: a nested mapping, a scalar and an unknown key. *)
Definition patch : list (string * pyval) :=
    [("a", PMap [("x", PAtom (AInt 10)); ("z", PAtom (AInt 5))]);
     ("b", PAtom (AInt 20));
     ("q", PAtom (AInt 1))].

(** A section whose output path names the home directory of a user that
    does not exist. *)
Definition homeless_section : dict := [("output_fp", VAtom (AStr "~x"))].

Definition homeless_store : state := MkState [homeless_section] [].

(** Three alignment records: a good one, a clipped one, an unmapped
    one. *)
Definition reads : list Decontam.read :=
  [Decontam.MkRead false "r1" (Some [(0, 100)%Z]) (Some 2%Z) (Some 100%Z) 100;
   Decontam.MkRead false "r2" (Some [(4, 60); (0, 40)]%Z) None (Some 40%Z) 40;
   Decontam.MkRead true "r3" None None None 0].

(** A record aligned with a deletion, CIGAR [10M10D10M]: 20 bases of the
    read are aligned, over 30 bases of the reference. *)
Definition gapped_read : Decontam.read :=
  Decontam.MkRead false "r4" (Some [(0, 10); (2, 10); (0, 10)]%Z)
    (Some 10%Z) (Some 30%Z) 20.

End Inputs.

(** * Further functions of the module *)

(** ** Output directories *)

Section Subdir.

Context `{Env}.

(** The quotient of two numbers is the business of the interpreter, not
    of this module: it is left open. *)
Variable number_truediv : atom → atom → result atom.

(** [bool], [int] and [float] *)
Definition is_number (a : atom) : bool :=
  match a with
  | ABool _ | AInt _ | AFloat _ => true
  | _ => false
  end.

(** [x / y]: a path takes a path or a string on either side; a string
    has no division of its own; dictionaries, lists and [None] have
    none at all. *)
Definition truediv (x y : value) : result value :=
  match x, y with
  | VAtom (APath p), VAtom (APath q) => Ok (VAtom (APath (joinpath p q)))
  | VAtom (APath p), VAtom (AStr s) => Ok (VAtom (APath (join_str p s)))
  | VAtom (AStr s), VAtom (APath q) =>
      Ok (VAtom (APath (joinpath (Path_of_str s) q)))
  | VAtom a, VAtom b =>
      if is_number a && is_number b
      then q ← number_truediv a b; Ok (VAtom q)
      else Err TypeError
  | _, _ => Err TypeError
  end.

(** [output_subdir(cfg, section)] *)
Definition output_subdir (cfg : value) (section : string) : M value :=
  all ← getitem cfg "all";
  out ← getitem all "output_fp";
  sec ← getitem cfg section;
  suffix ← getitem sec "suffix";
  lift (truediv out suffix).

End Subdir.

(** ** Auxiliary definitions for the further statements *)

(** What [Path] accepts: a string or a path. *)
Definition pathlike (v : value) : bool :=
  match v with
  | VAtom (AStr _) | VAtom (APath _) => true
  | _ => false
  end.

(** A value Python takes as false: [None], [False], zero, an empty
    string, list or dictionary. *)
Definition falsy (h : list dict) (v : value) : bool :=
  match v with
  | VAtom a => negb (atom_truthy a)
  | VSeq l => match l with [] => true | _ => false end
  | VRef l => match h !! l with Some [] => true | _ => false end
  end.

(** [d.get(k)] *)
Definition get_or_none (k : string) (d : dict) : value :=
  match dict_get k d with
  | Some v => v
  | None => VAtom ANone
  end.

(** The store once [process_databases] has built the dictionaries of its
    result. *)
Definition dbs_state (s : state) : state :=
  MkState (heap s ++ [[]; [];
             [("nucl", VRef (length (heap s)));
              ("prot", VRef (length (heap s) + 1))]]) (stderr s).

(** ** The lenient merge on trees *)

(** The value of a slot of [target] after the lenient merge, when the
    slot held [t] and [new] gives [n] for its key: kept when [new] does
    not name the key, replaced by a scalar or a sequence; merged with a
    mapping when it is one itself, slot by slot, the keys it lacks coming
    after its own in the order of [new]. *)
Fixpoint lenient_slot (t : pyval) (n : option pyval) {struct t} : pyval :=
  match n with
  | None => t
  | Some (PMap m) =>
      match t with
      | PMap T =>
          PMap (((λ '(k, tk), (k, lenient_slot tk (dict_get k m))) <$> T)
                ++ List.filter (λ kv, negb (dict_has kv.1 T)) m)
      | _ => t
      end
  | Some leaf => leaf
  end.

(** The lenient merge of [new] into the mapping [T]. *)
Definition merge_lenient (T new : list (string * pyval))
  : list (string * pyval) :=
  ((λ '(k, tk), (k, lenient_slot tk (dict_get k new))) <$> T)
  ++ List.filter (λ kv, negb (dict_has kv.1 T)) new.

(** The body of the loop of [_update_dict]. *)
Definition lenient_body (target : value) : string * pyval → M unit :=
  λ '(k, v),
    match non_mapping v with
    | None =>
        b ← contains k target;
        r ← (if b : bool
             then c ← getitem target k; _update_dict v c
             else c ← alloc []; _update_dict v c);
        setitem target k r
    | Some x => setitem target k x
    end.

(** What the lenient merge of [new] does to a tree-shaped target. *)
Definition lenient_spec_at (new : pyval) : Prop :=
  ∀ m, new = PMap m → distinct_keys new →
  ∀ tv T F s, repr (heap s) T tv F → NoDup F →
    match _update_dict new tv s with
    | Ok (r, s') =>
        r = tv ∧ compatible T (Some new) ∧ stderr s' = stderr s
        ∧ (length (heap s) ≤ length (heap s'))%nat
        ∧ (∀ l, l < length (heap s) → l ∉ F → heap s' !! l = heap s !! l)
        ∧ ∃ F', repr (heap s') (lenient_slot T (Some new)) tv F' ∧ NoDup F'
                ∧ (∀ l, l ∈ F' → l ∈ F ∨ (length (heap s) ≤ l)%nat)
    | Err _ => ¬ compatible T (Some new)
    end.

#[local] Unset Elimination Schemes.
(** Every key of [new], at every level, is a key of the target, and
    mappings of [new] meet mappings of the target. *)
Inductive covered : pyval → option pyval → Prop :=
| covered_absent t : covered t None
| covered_atom t a : covered t (Some (PAtom a))
| covered_seq t l : covered t (Some (PSeq l))
| covered_map T m :
    (∀ k, k ∈ keys m → k ∈ keys T) →
    Forall (λ kt, covered kt.2 (dict_get kt.1 m)) T →
    covered (PMap T) (Some (PMap m)).
#[local] Set Elimination Schemes.

(** What [new] gives for a key, if anything, has distinct keys. *)
Definition distinct_opt (n : option pyval) : Prop :=
  match n with Some v => distinct_keys v | None => True end.

(** Every dictionary of [h] is still there in [h'], its keys followed by
    those it has gained, if any. *)
Definition keys_extended (h h' : list dict) : Prop :=
  ∀ l d, h !! l = Some d →
    ∃ d', h' !! l = Some d' ∧ keys d `prefix_of` keys d'.

(** ** What [pathlib] grants *)

Section PathLaws.

Context `{Env}.

(** The facts about paths that running a validation twice relies on: a
    resolved path is absolute, is its own resolution, and exists when
    the path it was resolved from does; an absolute path has no home
    directory to expand ([expanduser] returns it as it is) and stays
    absolute when a path is joined to it. *)
Definition path_laws : Prop :=
  (∀ p, is_absolute (resolve p) = true)
  ∧ (∀ p, resolve (resolve p) = resolve p)
  ∧ (∀ p, path_exists p = true → path_exists (resolve p) = true)
  ∧ (∀ p, is_absolute p = true → expands p = true ∧ expanduser p = p)
  ∧ (∀ p q, is_absolute p = true → is_absolute (joinpath p q) = true).

(** The working directory exists, and [os.getcwd()] names it by its
    resolved absolute path. *)
Definition cwd_laws : Prop :=
  is_absolute (Path_of_str getcwd) = true
  ∧ path_exists (Path_of_str getcwd) = true
  ∧ resolve (Path_of_str getcwd) = Path_of_str getcwd.

(** Every value of the section is what validating it gives. *)
Definition validated (root : Path) (S : dict) : Prop :=
  Forall (λ kv, validate_value root kv.1 kv.2 = Ok kv.2) S.

(** The section [check_config] stores for [sec], given what
    [validate_paths] built for it. *)
Definition checked_section (root : Path) (sec : string) (ds : dict) : dict :=
  if String.eqb sec "all" then dict_set "root" (VAtom (APath root)) ds else ds.

End PathLaws.

(** ** Updating a configuration *)

(** Python truth value of plain data. *)
Definition truthy_data (v : pyval) : bool :=
  match v with
  | PAtom a => atom_truthy a
  | PSeq l => match l with [] => false | _ => true end
  | PMap m => match m with [] => false | _ => true end
  end.

Section Update.

Context `{Env}.

(** [ruamel.yaml.round_trip_load] is not part of the module and is left
    open: [load_target] builds in the store the document that becomes
    the target of the merges, [load_new] gives as plain data the
    document that is merged into it. *)
Variable load_target : string → M value.
Variable load_new : string → result pyval.

(** [update(config_str, new, strict)] *)
Definition update (config_str : string) (new : pyval) (strict : bool)
  : M value :=
  config ← load_target config_str;
  if strict then _update_dict_strict new config
  else
    config ← _update_dict new config;
    text ← lift extension_config;
    sbx_config ← lift (load_new text);
    if truthy_data sbx_config then _update_dict sbx_config config
    else mret config.

End Update.

(** ** Further sample inputs *)

Module Cases.

(** A file system like the sample one in which [resolve] makes a path
    absolute. *)
Definition posix_env : Env := {|
  Path_of_str s := MkPath s;
  expands := Sample.sample_expands;
  expanduser p :=
    match path_str p with
    | String "~" rest => MkPath ("/home/u" +:+ rest)
    | _ => p
    end;
  is_absolute p := String.prefix "/" (path_str p);
  joinpath p q :=
    if String.prefix "/" (path_str q) then q
    else MkPath (path_str p +:+ "/" +:+ path_str q);
  path_exists p := existsb (String.eqb (path_str p)) Sample.existing;
  resolve p :=
    if String.prefix "/" (path_str p) then p
    else MkPath ("/work/" +:+ path_str p);
  getcwd := "/work";
  getenv _ := None;
  listdir := Sample.sample_listdir;
  read_text := Sample.sample_read_text;
  __version__ := "4.0.0";
  version_error := Sample.sample_version_error
|}.

(** The sample file system with other directory listings and files. *)
Definition listing_env (ls : Path → result (list string))
    (rd : Path → result string) : Env := {|
  Path_of_str s := MkPath s;
  expands _ := true;
  expanduser p := p;
  is_absolute p := String.prefix "/" (path_str p);
  joinpath p q :=
    if String.prefix "/" (path_str q) then q
    else MkPath (path_str p +:+ "/" +:+ path_str q);
  path_exists p := existsb (String.eqb (path_str p)) Sample.existing;
  resolve p := p;
  getcwd := "/work";
  getenv _ := None;
  listdir := ls;
  read_text := rd;
  __version__ := "4.0.0";
  version_error := Sample.sample_version_error
|}.

(** No extensions directory at all. *)
Definition no_listing (_ : Path) : result (list string) := Err OSError.

(** An extension with a configuration, then one that cannot be
    listed. *)
Definition locked_listing (p : Path) : result (list string) :=
  if String.eqb (path_str p) "/work/extensions"
  then Ok ["sbx_a"; "sbx_x"]
  else if String.eqb (path_str p) "/work/extensions/sbx_a"
  then Ok ["config.yml"]
  else Err OSError.

(** A division of numbers, for [output_subdir] to be run with. *)
Definition no_division (_ _ : atom) : result atom := Err ZeroDivisionError.

(** A configuration as it is loaded:
    [{all: {root: /data, output_fp: out}, qc: {suffix: qc, reads_fp: reads}}] *)
Definition plain_all : dict :=
  [("root", VAtom (AStr "/data")); ("output_fp", VAtom (AStr "out"))].

Definition plain_qc : dict :=
  [("suffix", VAtom (AStr "qc")); ("reads_fp", VAtom (AStr "reads"))].

Definition plain_cfg : dict := [("all", VRef 1); ("qc", VRef 2)].

Definition plain_store : state := MkState [plain_cfg; plain_all; plain_qc] [].

(** The store once [check_config] has run on it. *)
Definition checked_store : state :=
  MkState [plain_cfg; plain_all; plain_qc;
           [("all", VRef 4); ("qc", VRef 5)];
           [("root", VAtom (APath (MkPath "/data")));
            ("output_fp", VAtom (APath (MkPath "/data/out")))];
           [("suffix", VAtom (AStr "qc"));
            ("reads_fp", VAtom (APath (MkPath "/data/reads")))]] [].

(** A configuration without an [all] section. *)
Definition headless_store : state := MkState [[("qc", VRef 1)]; plain_qc] [].

(** A section one of whose path keys was left empty. *)
Definition holey_section : dict :=
  [("threads", VAtom (AInt 4)); ("reads_fp", VAtom (AStr "reads"));
   ("adapter_fp", VAtom ANone); ("output_fp", VAtom (AStr "out"))].

(** A section whose paths are absolute once home-expanded. *)
Definition absolute_section : dict :=
  [("reads_fp", VAtom (AStr "/data/reads")); ("home_fp", VAtom (AStr "~"));
   ("threads", VAtom (AInt 4))].

(** A configuration whose [qc] section was left empty. *)
Definition hollow_store : state :=
  MkState [[("all", VRef 1); ("qc", VAtom ANone)]; plain_all] [].

(** A configuration written for version [3.2]. *)
Definition versioned_store : state :=
  MkState [[("all", VRef 1)]; [("version", VAtom (AStr "3.2"))]] [].

(** Database specifications: without a root, with an empty root, with
    groups left empty, with a group that is one path, with an entry left
    empty. *)
Definition rootless_spec : state :=
  MkState [[("nucleotide", VRef 1)]; [("db1", VAtom (AStr "a.fa"))]] [].

Definition empty_root_spec : state :=
  MkState [[("root_fp", VAtom ANone)]] [].

Definition empty_groups_spec : state :=
  MkState [[("root_fp", VAtom (AStr "/data/db"));
            ("nucleotide", VAtom ANone); ("protein", VRef 1)]; []] [].

Definition single_path_spec : state :=
  MkState [[("root_fp", VAtom (AStr "/data/db"));
            ("protein", VAtom (AStr "p.fa"))]] [].

Definition empty_entry_spec : state :=
  MkState [[("root_fp", VAtom (AStr "/data/db")); ("nucleotide", VRef 1)];
           [("db1", VAtom (AStr "a.fa")); ("db2", VAtom ANone)]] [].

(** A record that is mapped but has no CIGAR, and one of length zero. *)
Definition bare_read : Decontam.read :=
  Decontam.MkRead false "r4" None None None 50.

Definition null_read : Decontam.read :=
  Decontam.MkRead false "r5" (Some [(2, 10)%Z]) None (Some 10%Z) 0.

(** A short alignment in a long read, without reference span. *)
Definition short_read : Decontam.read :=
  Decontam.MkRead false "r6" (Some [(4, 90); (0, 10)]%Z) None None 10.

(** Updates for the sample target of the merges: one whose keys the
    target has, one none of whose keys it has. *)
Definition known_patch : list (string * pyval) :=
  [("a", PMap [("x", PAtom (AInt 10))]); ("b", PAtom (AInt 20))].

Definition unknown_patch : list (string * pyval) :=
  [("q", PAtom (AInt 1)); ("r", PMap [("x", PAtom (AInt 2))])].

(** Loaders for [update]: every document is [{b: 2, c: 3}], and the
    text of the extensions, unless empty, is [{c: 30}]. *)
Definition load_flat (_ : string) : M value :=
  alloc [("b", VAtom (AInt 2)); ("c", VAtom (AInt 3))].

Definition load_ext (text : string) : result pyval :=
  if String.eqb text "" then Ok (PAtom ANone)
  else Ok (PMap [("c", PAtom (AInt 30))]).

Definition flat_tree : list (string * pyval) :=
  [("b", PAtom (AInt 2)); ("c", PAtom (AInt 3))].

Definition flat_patch : list (string * pyval) :=
  [("c", PAtom (AInt 5)); ("q", PAtom (AInt 1))].

End Cases.
(** * Properties *)

(** ** The monad *)

Lemma bind_Ok {A B} (m : M A) (f : A → M B) s b s2 :
  (m ≫= f) s = Ok (b, s2) ↔ ∃ a s1, m s = Ok (a, s1) ∧ f a s1 = Ok (b, s2).
Proof.
  unfold mbind, M_bind. split.
  - destruct (m s) as [[a s1]|e]; [eauto | discriminate].
  - intros (a & s1 & -> & Hf). exact Hf.
Qed.

Lemma for_each_cons {A} (body : A → M unit) x l :
  for_each body (x :: l) = (body x ;; for_each body l).
Proof. reflexivity. Qed.

(** A relation between stores that every round of a loop maintains is
    maintained by the loop. *)
Lemma for_each_preserves {A} (body : A → M unit) (R : state → state → Prop) :
  (∀ s, R s s) →
  (∀ s1 s2 s3, R s1 s2 → R s2 s3 → R s1 s3) →
  ∀ l,
  (∀ x s u s', x ∈ l → body x s = Ok (u, s') → R s s') →
  ∀ s u s', for_each body l s = Ok (u, s') → R s s'.
Proof.
  intros Hrefl Htrans l. induction l as [|x l IH]; intros Hbody s u s' Hrun.
  - injection Hrun as _ <-. apply Hrefl.
  - rewrite for_each_cons in Hrun. apply bind_Ok in Hrun as (u1 & s1 & H1 & H2).
    eapply Htrans.
    + eapply Hbody; [left | exact H1].
    + eapply IH; [|exact H2]. intros; eapply Hbody; [right|]; eassumption.
Qed.

Lemma bind_unfold {A B} (m : M A) (f : A → M B) s :
  (m ≫= f) s = match m s with Ok (a, s1) => f a s1 | Err e => Err e end.
Proof. reflexivity. Qed.

Lemma bind_lift {A B} (r : result A) (f : A → M B) s :
  (lift r ≫= f) s = match r with Ok a => f a s | Err e => Err e end.
Proof. unfold mbind, M_bind, lift. by destruct r. Qed.

Lemma result_bind_unfold {A B} (r : result A) (f : A → result B) :
  (r ≫= f) = match r with Ok a => f a | Err e => Err e end.
Proof. reflexivity. Qed.

Lemma for_each_ext {A} (body1 body2 : A → M unit) l s :
  (∀ x s, body1 x s = body2 x s) →
  for_each body1 l s = for_each body2 l s.
Proof.
  intros Hext. revert s. induction l as [|x l IH]; intros s; [done|].
  rewrite !for_each_cons, !bind_unfold, Hext.
  destruct (body2 x s) as [[[] s1]|]; [apply IH | done].
Qed.


(** ** Dictionaries *)

Lemma dict_get_keys {A} k (d : list (string * A)) :
  dict_get k d = None ↔ k ∉ keys d.
Proof.
  induction d as [|[k' v] d IH]; cbn.
  - split; [intros _; apply not_elem_of_nil | done].
  - destruct (String.eqb_spec k k') as [->|Hne].
    + split; [done | intros Hn; exfalso; apply Hn; apply elem_of_cons; by left].
    + rewrite IH, not_elem_of_cons. split; [by intros ? | by intros [_ ?]].
Qed.

Lemma dict_has_keys {A} k (d : list (string * A)) :
  dict_has k d = true ↔ k ∈ keys d.
Proof.
  unfold dict_has. destruct (dict_get k d) eqn:E.
  - split; [intros _ | done].
    destruct (decide (k ∈ keys d)) as [|Hn]; [done|].
    apply dict_get_keys in Hn. congruence.
  - apply dict_get_keys in E. split; [done | intros; contradiction].
Qed.

Lemma dict_set_fresh {A} k (v : A) d :
  k ∉ keys d → dict_set k v d = d ++ [(k, v)].
Proof.
  induction d as [|[k' v'] d IH]; cbn; [done|].
  rewrite not_elem_of_cons. intros [Hne Hd].
  destruct (String.eqb_spec k k'); [done|]. by rewrite IH.
Qed.

Lemma dict_set_keys {A} k (v : A) d :
  k ∈ keys d → keys (dict_set k v d) = keys d.
Proof.
  induction d as [|[k' v'] d IH]; cbn.
  - intros Hin. by apply elem_of_nil in Hin.
  - destruct (String.eqb_spec k k') as [->|Hne]; [done|].
    intros [?|Hin]%elem_of_cons; [done|]. cbn. f_equal. by apply IH.
Qed.

Lemma dict_get_set_eq {A} k (v : A) d : dict_get k (dict_set k v d) = Some v.
Proof.
  induction d as [|[k' v'] d IH]; cbn.
  - by rewrite String.eqb_refl.
  - destruct (String.eqb_spec k k') as [->|Hne]; cbn.
    + by rewrite String.eqb_refl.
    + destruct (String.eqb_spec k k'); [done | exact IH].
Qed.

Lemma dict_get_set_ne {A} k k' (v : A) d :
  k ≠ k' → dict_get k' (dict_set k v d) = dict_get k' d.
Proof.
  intros Hne. induction d as [|[k2 v2] d IH]; cbn.
  - destruct (String.eqb_spec k' k); [congruence | done].
  - destruct (String.eqb_spec k k2) as [->|Hne2]; cbn.
    + destruct (String.eqb_spec k' k2); [congruence | done].
    + destruct (String.eqb_spec k' k2); [done | exact IH].
Qed.

Lemma dict_set_same {A} k (v : A) d : dict_get k d = Some v → dict_set k v d = d.
Proof.
  induction d as [|[k' v'] d IH]; cbn; [done|].
  destruct (String.eqb_spec k k') as [->|Hne].
  - by intros [= ->].
  - intros Hg. by rewrite IH.
Qed.

Lemma dict_get_lookup {A} k (d : list (string * A)) v :
  dict_get k d = Some v → ∃ j, d !! j = Some (k, v) ∧ keys d !! j = Some k.
Proof.
  induction d as [|[k' v'] d IH]; cbn; [done|].
  destruct (String.eqb_spec k k') as [->|Hne].
  - intros [= ->]. by exists 0.
  - intros Hg. destruct (IH Hg) as (j & Hj & Hk). by exists (S j).
Qed.

Lemma dict_get_elem {A} k (d : list (string * A)) v :
  dict_get k d = Some v → (k, v) ∈ d.
Proof.
  intros (j & Hj & _)%dict_get_lookup. by eapply list_elem_of_lookup_2.
Qed.

Lemma dict_get_NoDup {A} k (d : list (string * A)) v :
  NoDup (keys d) → (k, v) ∈ d → dict_get k d = Some v.
Proof.
  induction d as [|[k' v'] d IH]; cbn.
  - intros _ Hin. by apply elem_of_nil in Hin.
  - intros [Hk Hnd]%NoDup_cons [[= -> ->]|Hin]%elem_of_cons.
    + by rewrite String.eqb_refl.
    + destruct (String.eqb_spec k k') as [->|Hne]; [|by apply IH].
      exfalso. apply Hk. change k' with (fst (k', v)). by apply list_elem_of_fmap_2.
Qed.

Lemma NoDup_by_decide (l : list string) : bool_decide (NoDup l) = true → NoDup l.
Proof. apply bool_decide_eq_true_1. Defined.

(** ** Store operations *)

Lemma deref_run l s d : heap s !! l = Some d → deref l s = Ok (d, s).
Proof. unfold deref. by intros ->. Qed.

Lemma items_run l s d : heap s !! l = Some d → items (VRef l) s = Ok (d, s).
Proof. apply deref_run. Qed.

Lemma setitem_run l s d k v :
  heap s !! l = Some d →
  setitem (VRef l) k v s
  = Ok (tt, MkState (<[l := dict_set k v d]> (heap s)) (stderr s)).
Proof. intros Hl. unfold setitem, mbind, M_bind. by rewrite (deref_run _ _ _ Hl). Qed.

Lemma getitem_run l s d k :
  heap s !! l = Some d →
  getitem (VRef l) k s
  = match dict_get k d with Some v => Ok (v, s) | None => Err (KeyError k) end.
Proof.
  intros Hl. unfold getitem, mbind, M_bind. rewrite (deref_run _ _ _ Hl).
  by destruct (dict_get k d).
Qed.

Lemma contains_run l s d k :
  heap s !! l = Some d → contains k (VRef l) s = Ok (dict_has k d, s).
Proof. intros Hl. unfold contains, mbind, M_bind. by rewrite (deref_run _ _ _ Hl). Qed.

Lemma in_keys_run l s d k :
  heap s !! l = Some d → in_keys k (VRef l) s = Ok (dict_has k d, s).
Proof. intros Hl. unfold in_keys, mbind, M_bind. by rewrite (items_run _ _ _ Hl). Qed.

Lemma get_method_run l s d k dflt :
  heap s !! l = Some d →
  get_method (VRef l) k dflt s
  = Ok (match dict_get k d with Some v => v | None => dflt end, s).
Proof. intros Hl. unfold get_method, mbind, M_bind. by rewrite (items_run _ _ _ Hl). Qed.


(** Running on a store [h ++ tl] whose tail [tl] is known. *)
Lemma alloc_tail h tl e d :
  alloc d (MkState (h ++ tl) e)
  = Ok (VRef (length h + length tl), MkState (h ++ (tl ++ [d])) e).
Proof. unfold alloc. cbn. by rewrite length_app, app_assoc. Qed.

Lemma lookup_tail {A} (h tl : list A) i : (h ++ tl) !! (length h + i) = tl !! i.
Proof. rewrite lookup_app_r by lia. f_equal. lia. Qed.

Lemma contains_tail h tl e i d k :
  tl !! i = Some d →
  contains k (VRef (length h + i)) (MkState (h ++ tl) e)
  = Ok (dict_has k d, MkState (h ++ tl) e).
Proof. intros Hi. apply contains_run. cbn. by rewrite lookup_tail. Qed.

Lemma getitem_tail h tl e i d k v :
  tl !! i = Some d → dict_get k d = Some v →
  getitem (VRef (length h + i)) k (MkState (h ++ tl) e)
  = Ok (v, MkState (h ++ tl) e).
Proof.
  intros Hi Hk. erewrite getitem_run; [by rewrite Hk|]. cbn. by rewrite lookup_tail.
Qed.

Lemma setitem_tail h tl e i d k v :
  tl !! i = Some d →
  setitem (VRef (length h + i)) k v (MkState (h ++ tl) e)
  = Ok (tt, MkState (h ++ <[i := dict_set k v d]> tl) e).
Proof.
  intros Hi. erewrite setitem_run; [|cbn; by rewrite lookup_tail].
  cbn. by rewrite insert_app_r.
Qed.

Ltac run_tail :=
  repeat first
    [ rewrite bind_unfold
    | rewrite alloc_tail
    | erewrite contains_tail by reflexivity
    | erewrite getitem_tail by reflexivity
    | erewrite setitem_tail by reflexivity
    | progress cbn [for_each non_mapping _update_dict dict_has dict_get dict_set
                    String.eqb Ascii.eqb Bool.eqb length app list_insert insert
                    mret M_ret Nat.add] ].

(** ** Loops that fill a fresh dictionary *)

Lemma map_items_keys f d d' : map_items f d = Ok d' → keys d' = keys d.
Proof.
  revert d'. induction d as [|[k v] d IH]; intros d'; cbn.
  - by intros [= <-].
  - rewrite !result_bind_unfold.
    destruct (f k v); [|done]. destruct (map_items f d); [|done].
    intros [= <-]. cbn. f_equal. by apply IH.
Qed.

Lemma map_items_get f d d' k v :
  map_items f d = Ok d' →
  dict_get k d = Some v →
  ∃ v', f k v = Ok v' ∧ dict_get k d' = Some v'.
Proof.
  revert d'. induction d as [|[k0 v0] d IH]; intros d'; cbn; [done|].
  rewrite !result_bind_unfold.
  destruct (f k0 v0) as [v0'|] eqn:E0; [|done].
  destruct (map_items f d) as [r|]; [|done].
  intros [= <-]. cbn. destruct (String.eqb_spec k k0) as [->|Hne].
  - intros [= ->]. eauto.
  - intros Hg. by apply IH.
Qed.

Lemma map_items_total f d :
  (∀ k v, (k, v) ∈ d → succeeds (f k v)) → succeeds (map_items f d).
Proof.
  induction d as [|[k v] d IH]; intros Hall; cbn; [by eexists|].
  rewrite !result_bind_unfold.
  destruct (Hall k v) as [v' ->]; [left|].
  destruct IH as [d' ->]; [|by eexists].
  intros k0 v0 Hin. eapply Hall. right. exact Hin.
Qed.

Lemma build_loop_run (f : string → value → result value) out h acc e rest :
  length h = out →
  NoDup (keys acc ++ keys rest) →
  for_each (λ '(k, v),
    x ← lift (f k v);
    setitem (VRef out) k x) rest (MkState (h ++ [acc]) e)
  = match map_items f rest with
    | Ok r => Ok (tt, MkState (h ++ [acc ++ r]) e)
    | Err x => Err x
    end.
Proof.
  intros <-. revert acc. induction rest as [|[k v] rest IH]; intros acc Hnd.
  - cbn. by rewrite app_nil_r.
  - rewrite for_each_cons, bind_unfold, bind_lift. cbn [map_items].
    rewrite result_bind_unfold.
    destruct (f k v) as [v'|x]; [|done].
    erewrite setitem_run; [|cbn; by apply list_lookup_middle].
    cbn [heap stderr].
    change (keys ((k, v) :: rest)) with (k :: keys rest) in Hnd.
    apply NoDup_app in Hnd as (Hacc & Hdisj & Hrest).
    rewrite dict_set_fresh by (intros Hin; eapply Hdisj; [exact Hin | left]).
    replace (<[length h := acc ++ [(k, v')]]> (h ++ [acc]))
      with (h ++ [acc ++ [(k, v')]]).
    2:{ rewrite <- (Nat.add_0_r (length h)) at 1. by rewrite insert_app_r. }
    rewrite IH.
    + rewrite result_bind_unfold. destruct (map_items f rest); [|done].
      by rewrite <- app_assoc.
    + unfold keys. rewrite fmap_app. cbn. rewrite <- app_assoc. cbn.
      apply NoDup_app. split; [done|]. split; [|done].
      intros x Hx Hx'. eapply Hdisj; eauto.
Qed.

(** ** SectionValidator *)

Section ValidateFacts.
Context `{Env}.

Lemma validate_loop_run root new_cfg h acc e rest :
  length h = new_cfg →
  NoDup (keys acc ++ keys rest) →
  for_each (λ '(k, v),
    v ← lift (validate_value root k v);
    setitem (VRef new_cfg) k v) rest (MkState (h ++ [acc]) e)
  = match validate_items root rest with
    | Ok r => Ok (tt, MkState (h ++ [acc ++ r]) e)
    | Err x => Err x
    end.
Proof. apply (build_loop_run (validate_value root)). Qed.

Lemma validate_paths_run root l s d :
  heap s !! l = Some d →
  NoDup (keys d) →
  validate_paths (VRef l) root s
  = match validate_items root d with
    | Ok d' => Ok (VRef (length (heap s)), MkState (heap s ++ [d']) (stderr s))
    | Err x => Err x
    end.
Proof.
  intros Hl Hnd. unfold validate_paths.
  rewrite bind_unfold. cbn [alloc].
  rewrite bind_unfold.
  erewrite items_run; [|cbn; by apply lookup_app_l_Some].
  rewrite bind_unfold.
  rewrite (validate_loop_run root (length (heap s))); [|done|done].
  by destruct (validate_items root d).
Qed.

Lemma validate_value_fp root k v :
  ends_with "_fp" k = true →
  validate_value root k v
  = match Path_of v with
    | Err e => Err e
    | Ok p =>
        if expands p then
          let q := under_root root (expanduser p) in
          if String.eqb k "output_fp" then Ok (VAtom (APath q))
          else if path_exists q then Ok (VAtom (APath (resolve q)))
               else Err (ValueError (key_message k q))
        else Err RuntimeError
    end.
Proof.
  intros Hk. unfold validate_value, makepath, verify, under_root.
  rewrite Hk, !result_bind_unfold. destruct (Path_of v) as [p|e]; [|done].
  cbn. destruct (expands p); [|done].
  cbn. destruct (String.eqb k "output_fp"); cbn; [done|].
  by destruct (path_exists _).
Qed.

Lemma validate_value_other root k v :
  ends_with "_fp" k = false → validate_value root k v = Ok v.
Proof. intros Hk. unfold validate_value. by rewrite Hk. Qed.

End ValidateFacts.



(** C2: [validate_paths] returns a new section and leaves its input as it
    was; a key not ending in [_fp] keeps its value; the value of a key
    ending in [_fp] is home-expanded and put under the root unless it is
    absolute, then resolved after an existence check, except for
    [output_fp], which is taken as it is.  It returns whenever the values
    of the [_fp] keys are strings or paths whose home directory, if they
    name one, is known, and those other than [output_fp] exist; for a lone
    relative [output_fp] [q] of that kind it returns the section holding
    [root/q], and for one naming an unknown home directory it raises
    [RuntimeError]. *)
Theorem validate_paths_new_section `{Env} (s : state) (l : loc) (S : dict) (root : Path) :
  heap s !! l = Some S →
  NoDup (keys S) →
  (∀ r s', validate_paths (VRef l) root s = Ok (r, s') →
     ∃ S', r = VRef (length (heap s))
       ∧ heap s' = heap s ++ [S'] ∧ stderr s' = stderr s
       ∧ heap s' !! l = Some S
       ∧ keys S' = keys S
       ∧ ∀ k v, dict_get k S = Some v →
           if ends_with "_fp" k then
             ∃ p, Path_of v = Ok p ∧ expands p = true ∧
               let q := under_root root (expanduser p) in
               if String.eqb k "output_fp"
               then dict_get k S' = Some (VAtom (APath q))
               else path_exists q = true
                    ∧ dict_get k S' = Some (VAtom (APath (resolve q)))
           else dict_get k S' = Some v)
  ∧ ((∀ k v, (k, v) ∈ S → ends_with "_fp" k = true →
        ∃ p, Path_of v = Ok p ∧ expands p = true
          ∧ (k ≠ "output_fp" →
             path_exists (under_root root (expanduser p)) = true)) →
     ∃ r s', validate_paths (VRef l) root s = Ok (r, s'))
  ∧ (∀ q, S = [("output_fp", VAtom (AStr q))] →
       expands (Path_of_str q) = true →
       is_absolute (expanduser (Path_of_str q)) = false →
       validate_paths (VRef l) root s
       = Ok (VRef (length (heap s)),
             MkState (heap s ++ [[("output_fp",
                        VAtom (APath (joinpath root (expanduser (Path_of_str q)))))]])
                     (stderr s)))
  ∧ (∀ q, S = [("output_fp", VAtom (AStr q))] →
       expands (Path_of_str q) = false →
       validate_paths (VRef l) root s = Err RuntimeError).
Proof.
  intros Hl Hnd. rewrite (validate_paths_run root l s S Hl Hnd).
  split; [|split; [|split]].
  - intros r s' Hrun. destruct (validate_items root S) as [S'|] eqn:HS; [|done].
    injection Hrun as <- <-. exists S'. cbn. split; [done|]. split; [done|].
    split; [done|]. split; [by apply lookup_app_l_Some|].
    split; [by eapply map_items_keys|].
    intros k v Hg. destruct (map_items_get _ _ _ _ _ HS Hg) as (v' & Hv & Hg').
    destruct (ends_with "_fp" k) eqn:Hk.
    + rewrite validate_value_fp in Hv by done.
      destruct (Path_of v) as [p|]; [|done]. exists p. split; [done|].
      destruct (expands p); [|done]. split; [done|]. cbn in *.
      destruct (String.eqb k "output_fp"); [by injection Hv as <-|].
      destruct (path_exists _); [|done]. by injection Hv as <-.
    + rewrite validate_value_other in Hv by done. by injection Hv as <-.
  - intros Hall. unfold validate_items.
    destruct (map_items_total (validate_value root) S) as [S' ->]; [|eauto].
    intros k v Hin. destruct (ends_with "_fp" k) eqn:Hk.
    + rewrite validate_value_fp by done.
      destruct (Hall k v Hin Hk) as (p & -> & -> & Hex). cbn.
      destruct (String.eqb_spec k "output_fp"); [by eexists|].
      rewrite Hex by done. by eexists.
    + rewrite validate_value_other by done. by eexists.
  - intros q -> Hhome Habs. unfold validate_items; cbn [map_items].
    rewrite !result_bind_unfold.
    rewrite validate_value_fp by done. cbn. rewrite Hhome. cbn.
    unfold under_root. by rewrite Habs.
  - intros q -> Hhome. unfold validate_items; cbn [map_items].
    rewrite !result_bind_unfold.
    rewrite validate_value_fp by done. cbn. by rewrite Hhome.
Qed.

(** ** ConfigValidator *)

Lemma refs_from_keys start names : keys (refs_from start names) = names.
Proof. revert start. induction names as [|k n IH]; intros; cbn; [done|]. f_equal. apply IH. Qed.

Lemma dict_get_refs_from start names i k :
  NoDup names → names !! i = Some k →
  dict_get k (refs_from start names) = Some (VRef (start + i)).
Proof.
  intros Hnd Hi. apply dict_get_NoDup; [by rewrite refs_from_keys|].
  revert start i Hi. clear Hnd. induction names as [|k' names IH]; intros start i; [done|].
  destruct i as [|i]; cbn.
  - intros [= ->]. rewrite Nat.add_0_r. left.
  - intros Hi. right. replace (start + S i) with (S start + i) by lia. by apply IH.
Qed.


Section CheckFacts.
Context `{Env}.

Lemma check_loop_run root h0 e acc built d secs :
  sections_of h0 d secs →
  NoDup (keys acc ++ keys d) →
  for_each (λ '(section, values),
    r ← validate_paths values root;
    setitem (VRef (length h0)) section r) d (MkState (h0 ++ acc :: built) e)
  = match validate_all root secs with
    | Ok r => Ok (tt, MkState (h0 ++ (acc ++ refs_from (length h0 + 1 + length built) (keys r))
                                    :: (built ++ (snd <$> r))) e)
    | Err x => Err x
    end.
Proof.
  intros Hsecs. revert acc built.
  induction Hsecs as [|[sec v] [sec' ds] d secs (<- & l & -> & Hl & Hnd) Hsecs IH];
    intros acc built Hnodup.
  - cbn. by rewrite !app_nil_r.
  - rewrite for_each_cons, bind_unfold, bind_unfold. cbn [validate_all].
    rewrite (validate_paths_run root l _ ds); [|cbn; by apply lookup_app_l_Some|done].
    rewrite result_bind_unfold.
    destruct (validate_items root ds) as [ds'|x]; [|done].
    cbn [heap stderr].
    erewrite setitem_run.
    2:{ cbn. rewrite <- app_assoc. apply list_lookup_middle. done. }
    cbn [heap stderr].
    change (keys ((sec, VRef l) :: d)) with (sec :: keys d) in Hnodup.
    apply NoDup_app in Hnodup as (Hacc & Hdisj & Hrest).
    rewrite dict_set_fresh by (intros Hin; eapply Hdisj; [exact Hin | left]).
    replace (<[length h0 := acc ++ [(sec, VRef (length (h0 ++ acc :: built)))]]>
               ((h0 ++ acc :: built) ++ [ds']))
      with (h0 ++ (acc ++ [(sec, VRef (length h0 + 1 + length built))]) :: (built ++ [ds'])).
    2:{ rewrite <- app_assoc. cbn. rewrite <- (Nat.add_0_r (length h0)) at 2.
        rewrite insert_app_r. cbn. rewrite length_app. cbn.
        do 6 f_equal. lia. }
    rewrite IH.
    + rewrite result_bind_unfold. destruct (validate_all root secs) as [r|]; [|done].
      cbn. rewrite <- !app_assoc. cbn. rewrite length_app. cbn.
      by replace (length h0 + 1 + (length built + 1)) with (S (length h0 + 1 + length built)) by lia.
    + unfold keys at 1. rewrite fmap_app. cbn. rewrite <- app_assoc. cbn.
      apply NoDup_app. split; [done|]. split; [|done].
      intros x Hx Hx'. eapply Hdisj; eauto.
Qed.
End CheckFacts.

Section CheckRun.
Context `{Env}.

Lemma validate_all_lookup root secs r j sec ds :
  validate_all root secs = Ok r →
  secs !! j = Some (sec, ds) →
  ∃ ds', r !! j = Some (sec, ds') ∧ validate_items root ds = Ok ds'.
Proof.
  revert r j. induction secs as [|[sec0 ds0] secs IH]; intros r j; cbn; [done|].
  rewrite !result_bind_unfold.
  destruct (validate_items root ds0) as [ds0'|] eqn:E0; [|done].
  destruct (validate_all root secs) as [r'|]; [|done].
  intros [= <-]. destruct j as [|j]; cbn.
  - intros [= -> ->]. eauto.
  - by apply IH.
Qed.

Lemma validate_all_keys root secs r :
  validate_all root secs = Ok r → keys r = keys secs.
Proof.
  revert r. induction secs as [|[sec0 ds0] secs IH]; intros r; cbn.
  - by intros [= <-].
  - rewrite !result_bind_unfold.
    destruct (validate_items root ds0); [|done].
    destruct (validate_all root secs); [|done].
    intros [= <-]. cbn. f_equal. by apply IH.
Qed.

Lemma validate_all_total root secs :
  (∀ sec ds, (sec, ds) ∈ secs → succeeds (validate_items root ds)) ↔
  succeeds (validate_all root secs).
Proof.
  induction secs as [|[sec ds] secs IH]; cbn.
  - split; [by eexists | intros _ ? ? Hin; by apply elem_of_nil in Hin].
  - rewrite !result_bind_unfold. split.
    + intros Hall. destruct (Hall sec ds) as [ds' ->]; [left|].
      destruct (proj1 IH) as [r ->]; [|by eexists].
      intros sec0 ds0 Hin. eapply Hall. right. exact Hin.
    + intros [r Hr]. destruct (validate_items root ds) as [ds'|] eqn:E; [|done].
      destruct (validate_all root secs) as [r'|] eqn:E'; [|done].
      intros sec0 ds0 [[= -> ->]|Hin]%elem_of_cons; [by eexists|].
      eapply (proj2 IH); [by eexists | exact Hin].
Qed.

Lemma sections_of_keys h d secs : sections_of h d secs → keys secs = keys d.
Proof.
  induction 1 as [|[sec v] [sec' ds] d secs (<- & _) _ IH]; cbn; [done|].
  by f_equal.
Qed.

Lemma sections_of_exists h d :
  (∀ sec v, (sec, v) ∈ d → ∃ l ds, v = VRef l ∧ h !! l = Some ds ∧ NoDup (keys ds)) →
  ∃ secs, sections_of h d secs.
Proof.
  induction d as [|[sec v] d IH]; intros Hall.
  - exists []. constructor.
  - destruct (Hall sec v) as (l & ds & -> & Hl & Hnd); [left|].
    destruct IH as [secs Hsecs]; [intros sec0 v0 Hin; eapply Hall; right; exact Hin|].
    exists ((sec, ds) :: secs). constructor; [|done]. split; [done|]. eauto.
Qed.

Lemma sections_of_lookup h d secs j sec v :
  sections_of h d secs → d !! j = Some (sec, v) →
  ∃ l ds, v = VRef l ∧ h !! l = Some ds ∧ NoDup (keys ds)
          ∧ secs !! j = Some (sec, ds).
Proof.
  intros Hsecs Hj.
  destruct (Forall2_lookup_l _ _ _ _ _ Hsecs Hj) as ([sec' ds] & Hj' & <- & l & -> & Hl & Hnd).
  eauto 10.
Qed.

Lemma check_config_run s c d secs a da :
  heap s !! c = Some d →
  NoDup (keys d) →
  sections_of (heap s) d secs →
  dict_get "all" d = Some (VRef a) →
  heap s !! a = Some da →
  match (match dict_get "root" da with
         | Some v => verify v
         | None => Ok (Path_of_str getcwd)
         end) with
  | Err x => check_config (VRef c) s = Err x
  | Ok root =>
      match validate_all root secs with
      | Err x => check_config (VRef c) s = Err x
      | Ok r =>
          ∃ i dall, keys r !! i = Some "all" ∧ r !! i = Some ("all", dall) ∧
            check_config (VRef c) s
            = Ok (VRef (length (heap s)),
                  MkState (<[length (heap s) + 1 + i
                             := dict_set "root" (VAtom (APath root)) dall]>
                           (heap s ++ refs_from (length (heap s) + 1) (keys r)
                                      :: (snd <$> r)))
                          (stderr s))
      end
  end.
Proof.
  intros Hc Hnd Hsecs Hall Ha. unfold check_config.
  rewrite bind_unfold, (getitem_run _ _ _ _ Hc), Hall.
  rewrite bind_unfold, (contains_run _ _ _ _ Ha).
  rewrite bind_unfold.
  assert (Hroot :
    (if dict_has "root" da
     then getitem (VRef a) "root" ≫= λ r, lift (verify r)
     else mret (Path_of_str getcwd)) s
    = match (match dict_get "root" da with
             | Some v => verify v
             | None => Ok (Path_of_str getcwd)
             end) with
      | Ok root => Ok (root, s)
      | Err x => Err x
      end).
  { unfold dict_has. destruct (dict_get "root" da) as [v|] eqn:E; [|done].
    rewrite bind_unfold, (getitem_run _ _ _ _ Ha), E. unfold lift.
    by destruct (verify v). }
  rewrite Hroot. clear Hroot.
  destruct (match dict_get "root" da with Some v => verify v | None => _ end)
    as [root|x]; [|done].
  rewrite bind_unfold, (items_run _ _ _ Hc).
  rewrite bind_unfold. cbn [alloc heap stderr].
  rewrite bind_unfold.
  pose proof (check_loop_run root (heap s) (stderr s) [] [] d secs Hsecs) as Hloop.
  cbn [app keys fmap list_fmap] in Hloop. rewrite Hloop by done. clear Hloop.
  destruct (validate_all root secs) as [r|x] eqn:Hr; [|done].
  cbn [length app]. rewrite Nat.add_0_r.
  destruct (dict_get_lookup _ _ _ Hall) as (i & Hi & Hki).
  destruct (sections_of_lookup _ _ _ _ _ _ Hsecs Hi) as (l & ds & _ & _ & _ & Hsi).
  destruct (validate_all_lookup _ _ _ _ _ _ Hr Hsi) as (dall & Hri & _).
  assert (Hkr : keys r !! i = Some "all").
  { unfold keys. by rewrite list_lookup_fmap, Hri. }
  assert (Hndr : NoDup (keys r)).
  { by rewrite (validate_all_keys _ _ _ Hr), (sections_of_keys _ _ _ Hsecs). }
  exists i, dall. split; [done|]. split; [done|].
  rewrite bind_unfold. erewrite getitem_run; [|cbn; by apply list_lookup_middle].
  rewrite (dict_get_refs_from _ _ _ _ Hndr Hkr).
  rewrite bind_unfold. erewrite setitem_run; [done|].
  cbn. rewrite <- Nat.add_assoc. rewrite lookup_app_r by lia.
  replace (length (heap s) + (1 + i) - length (heap s)) with (S i) by lia.
  change ((snd <$> r) !! i = Some dall). by rewrite list_lookup_fmap, Hri.
Qed.
End CheckRun.

(** C1: with an [all] section present, [check_config] takes as root the
    verified [cfg['all']['root']] when that key is present and the current
    working directory otherwise (failing when the declared root does not
    verify); it returns exactly when [validate_paths] with that root
    returns on every section; the tree it returns is new, has the keys of
    [cfg], holds under each key the section [validate_paths] builds, and
    its [all] section maps [root] to the resolved root, present before or
    not. *)
Theorem check_config_resolves_root `{Env} (s : state) (c a : loc) (d da : dict) :
  heap s !! c = Some d →
  config_tree (heap s) d →
  dict_get "all" d = Some (VRef a) →
  heap s !! a = Some da →
  match (match dict_get "root" da with
         | Some v => verify v
         | None => Ok (Path_of_str getcwd)
         end) with
  | Err x => check_config (VRef c) s = Err x
  | Ok root =>
      ((∃ r s', check_config (VRef c) s = Ok (r, s')) ↔
       (∀ sec v, (sec, v) ∈ d → ∃ r s1, validate_paths v root s = Ok (r, s1)))
      ∧ ∀ r s', check_config (VRef c) s = Ok (r, s') →
          ∃ n d', r = VRef n ∧ (length (heap s) ≤ n)%nat
            ∧ (∀ l, l < length (heap s) → heap s' !! l = heap s !! l)
            ∧ heap s' !! n = Some d' ∧ keys d' = keys d
            ∧ (∀ sec l ds,
                 dict_get sec d = Some (VRef l) → heap s !! l = Some ds →
                 ∃ l' ds', dict_get sec d' = Some (VRef l')
                   ∧ (length (heap s) ≤ l')%nat
                   ∧ (∀ s0, heap s0 !! l = Some ds →
                        validate_paths (VRef l) root s0
                        = Ok (VRef (length (heap s0)),
                              MkState (heap s0 ++ [ds']) (stderr s0)))
                   ∧ heap s' !! l'
                     = Some (if String.eqb sec "all"
                             then dict_set "root" (VAtom (APath root)) ds'
                             else ds'))
            ∧ (∃ la dall, dict_get "all" d' = Some (VRef la)
                 ∧ heap s' !! la = Some dall
                 ∧ dict_get "root" dall = Some (VAtom (APath root)))
  end.
Proof.
  intros Hc [Hnd Htree] Hall Ha.
  destruct (sections_of_exists _ _ Htree) as [secs Hsecs].
  pose proof (check_config_run s c d secs a da Hc Hnd Hsecs Hall Ha) as Hrun.
  destruct (match dict_get "root" da with Some v => verify v | None => _ end)
    as [root|x]; [|done].
  assert (Hval : (∀ sec v, (sec, v) ∈ d → ∃ r s1, validate_paths v root s = Ok (r, s1))
                 ↔ succeeds (validate_all root secs)).
  { rewrite <- validate_all_total. split.
    - intros Hv sec ds Hin.
      apply list_elem_of_lookup in Hin as [j Hj].
      destruct (Forall2_lookup_r _ _ _ _ _ Hsecs Hj) as ([sec' v] & Hj' & -> & l & -> & Hl & Hnds).
      destruct (Hv sec (VRef l)) as (r & s1 & Hr); [by eapply list_elem_of_lookup_2|].
      rewrite (validate_paths_run root l s ds Hl Hnds) in Hr.
      destruct (validate_items root ds); [by eexists | done].
    - intros Hv sec v Hin.
      apply list_elem_of_lookup in Hin as [j Hj].
      destruct (sections_of_lookup _ _ _ _ _ _ Hsecs Hj) as (l & ds & -> & Hl & Hnds & Hsj).
      destruct (Hv sec ds) as [ds' Hds']; [by eapply list_elem_of_lookup_2|].
      rewrite (validate_paths_run root l s ds Hl Hnds), Hds'. eauto. }
  destruct (validate_all root secs) as [r|x] eqn:Hr.
  2:{ split; [|by rewrite Hrun]. rewrite Hval, Hrun. split; [by intros (? & ? & ?) | by intros [? ?]]. }
  destruct Hrun as (i & dall & Hki & Hri & Hrun). split.
  { rewrite Hval, Hrun. split; [by eexists | eauto]. }
  intros r0 s' Hrun'. rewrite Hrun in Hrun'. injection Hrun' as <- <-. cbn [heap].
  set (n := length (heap s)) in *.
  assert (Hndr : NoDup (keys r)).
  { by rewrite (validate_all_keys _ _ _ Hr), (sections_of_keys _ _ _ Hsecs). }
  exists n, (refs_from (n + 1) (keys r)). split; [done|]. split; [done|].
  split; [|split; [|split; [|split]]].
  - intros l Hl. rewrite list_lookup_insert_ne by lia. by apply lookup_app_l.
  - rewrite list_lookup_insert_ne by lia. by apply list_lookup_middle.
  - by rewrite refs_from_keys, (validate_all_keys _ _ _ Hr), (sections_of_keys _ _ _ Hsecs).
  - intros sec l ds Hg Hl.
    destruct (dict_get_lookup _ _ _ Hg) as (j & Hj & Hkj).
    destruct (sections_of_lookup _ _ _ _ _ _ Hsecs Hj) as (l0 & ds0 & [= <-] & Hl0 & Hnds & Hsj).
    rewrite Hl in Hl0. injection Hl0 as <-.
    destruct (validate_all_lookup _ _ _ _ _ _ Hr Hsj) as (ds' & Hrj & Hds').
    assert (Hkrj : keys r !! j = Some sec).
    { unfold keys. by rewrite list_lookup_fmap, Hrj. }
    exists (n + 1 + j), ds'. split; [by apply dict_get_refs_from|]. split; [lia|]. split.
    + intros s0 Hs0. by rewrite (validate_paths_run root l s0 ds Hs0 Hnds), Hds'.
    + destruct (String.eqb_spec sec "all") as [->|Hne].
      * assert (j = i) as -> by exact (NoDup_lookup _ _ _ _ Hndr Hkrj Hki).
        rewrite Hri in Hrj. injection Hrj as <-.
        apply list_lookup_insert_eq. rewrite length_app. cbn.
        rewrite length_fmap. apply lookup_lt_Some in Hri. lia.
      * rewrite list_lookup_insert_ne.
        2:{ intros Heq. assert (i = j) as -> by lia. congruence. }
        rewrite <- Nat.add_assoc, lookup_app_r by lia.
        replace (n + (1 + j) - length (heap s)) with (S j) by lia.
        change ((snd <$> r) !! j = Some ds'). by rewrite list_lookup_fmap, Hrj.
  - exists (n + 1 + i), (dict_set "root" (VAtom (APath root)) dall).
    split; [by apply dict_get_refs_from|]. split; [|apply dict_get_set_eq].
    apply list_lookup_insert_eq. rewrite length_app. cbn.
    rewrite length_fmap. apply lookup_lt_Some in Hri. lia.
Qed.

(** ** Missing paths *)

Section Missing.
Context `{Env}.

End Missing.


(** ** DatabaseIndexExpander *)

Lemma group_dict_keys entries : keys (group_dict entries) = keys entries.
Proof.
  unfold keys, group_dict. rewrite <- list_fmap_compose.
  apply list_fmap_ext. by intros _ [db rel] _.
Qed.

Section DatabaseFacts.
Context `{Env}.

Lemma expand_group_run root l s entries :
  heap s !! l = Some (group_dict entries) →
  NoDup (keys entries) →
  expand_group root (VRef l) s
  = Ok (VRef (length (heap s)),
        MkState (heap s ++ [expanded root entries]) (stderr s)).
Proof.
  intros Hl Hnd. unfold expand_group.
  rewrite bind_unfold, (items_run _ _ _ Hl).
  rewrite bind_unfold. cbn [alloc].
  rewrite bind_unfold.
  pose (f := λ (_ : string) (v : value),
    p ← Path_of v; Ok (VAtom (AStr (path_str (joinpath root p))))).
  rewrite (for_each_ext _ (λ '(k, v),
    x ← lift (f k v); setitem (VRef (length (heap s))) k x)).
  2:{ intros [db path] s0. unfold f.
      rewrite bind_unfold, !bind_lift, result_bind_unfold.
      by destruct (Path_of path). }
  rewrite (build_loop_run f (length (heap s)) (heap s) [] (stderr s));
    [|done|by rewrite group_dict_keys].
  assert (E : map_items f (group_dict entries) = Ok (expanded root entries)).
  { clear. induction entries as [|[db rel] entries IH]; [done|].
    change (group_dict ((db, rel) :: entries))
      with ((db, VAtom (AStr rel)) :: group_dict entries).
    cbn [map_items]. by rewrite IH. }
  by rewrite E.
Qed.

Lemma group_of_mono h h' d g entries :
  (∀ l, l < length h → h' !! l = h !! l) →
  group_of h d g entries → group_of h' d g entries.
Proof.
  intros Hh [?|(l & Hg & Hl & Hnd)]; [by left|]. right. exists l.
  split; [done|]. split; [|done]. rewrite Hh; [done|]. by eapply lookup_lt_Some.
Qed.

Lemma group_step root st dbs ddbs key l0 d g entries :
  heap st !! dbs = Some ddbs →
  dict_get key ddbs = Some (VRef l0) →
  heap st !! l0 = Some [] →
  l0 ≠ dbs →
  group_of (heap st) d g entries →
  ∃ st' l1,
    (bn ← truthy (match dict_get g d with Some v => v | None => VAtom ANone end);
     if bn : bool
     then x ← expand_group root
                (match dict_get g d with Some v => v | None => VAtom ANone end);
          setitem (VRef dbs) key x
     else mret tt) st = Ok (tt, st')
    ∧ (∀ l, l < length (heap st) → l ≠ dbs → heap st' !! l = heap st !! l)
    ∧ heap st' !! dbs = Some (dict_set key (VRef l1) ddbs)
    ∧ heap st' !! l1 = Some (expanded root entries)
    ∧ l1 ≠ dbs.
Proof.
  intros Hdbs Hkey Hl0 Hne Hg.
  assert (Hempty : ∃ st' l1,
    Ok (tt, st) = Ok (tt, st')
    ∧ (∀ l, l < length (heap st) → l ≠ dbs → heap st' !! l = heap st !! l)
    ∧ heap st' !! dbs = Some (dict_set key (VRef l1) ddbs)
    ∧ heap st' !! l1 = Some (expanded root []) ∧ l1 ≠ dbs).
  { exists st, l0. split; [done|]. split; [done|].
    by rewrite (dict_set_same _ _ _ Hkey). }
  destruct Hg as [[-> ->]|(l & -> & Hl & Hnd)].
  - exact Hempty.
  - rewrite bind_unfold. cbn [truthy]. rewrite bind_unfold, (deref_run _ _ _ Hl).
    destruct entries as [|[db rel] entries]; [exact Hempty|]. clear Hempty.
    cbn [group_dict fmap list_fmap mret M_ret].
    rewrite bind_unfold, (expand_group_run root l st _ Hl Hnd).
    erewrite setitem_run; [|cbn; by apply lookup_app_l_Some].
    cbn [heap stderr].
    assert (Hlt : dbs < length (heap st)) by (by eapply lookup_lt_Some).
    eexists _, (length (heap st)). split; [done|]. cbn [heap]. split; [|split; [|split]].
    + intros l' Hl' Hne'. rewrite list_lookup_insert_ne by done. by apply lookup_app_l.
    + apply list_lookup_insert_eq. rewrite length_app. lia.
    + rewrite list_lookup_insert_ne by lia. by apply list_lookup_middle.
    + lia.
Qed.
End DatabaseFacts.

(** C7: for a specification whose [root_fp] is a string or a path and
    whose groups [nucleotide] and [protein] are absent or dictionaries of
    relative paths: when the home-expanded root exists,
    [process_databases] returns a new dictionary with exactly the keys
    [nucl] and [prot], each holding the entries of its group with every
    path joined to the resolved root and turned into a string (none for an
    absent group), and no object of the store it started from is changed;
    when the root does not exist, it fails with the error of [verify];
    when the root names a home directory that is not known, it fails with
    the [RuntimeError] of [expanduser]. *)
Theorem process_databases_index `{Env} (s : state) (c : loc) (d : dict)
    (v : value) (p : Path) (nucl prot : list (string * string)) :
  heap s !! c = Some d →
  dict_get "root_fp" d = Some v →
  Path_of v = Ok p →
  group_of (heap s) d "nucleotide" nucl →
  group_of (heap s) d "protein" prot →
  if expands p then
    if path_exists (expanduser p) then
      ∃ n ln lp s',
        process_databases (VRef c) s = Ok (VRef n, s')
        ∧ (length (heap s) ≤ n)%nat
        ∧ (∀ l, l < length (heap s) → heap s' !! l = heap s !! l)
        ∧ heap s' !! n = Some [("nucl", VRef ln); ("prot", VRef lp)]
        ∧ heap s' !! ln = Some (expanded (resolve (expanduser p)) nucl)
        ∧ heap s' !! lp = Some (expanded (resolve (expanduser p)) prot)
    else
      process_databases (VRef c) s
      = Err (ValueError ("Path " +:+ path_str (expanduser p) +:+ " does not exist"))
  else process_databases (VRef c) s = Err RuntimeError.
Proof.
  intros Hc Hroot Hp Hn Hpr. unfold process_databases.
  rewrite bind_unfold. cbn [alloc heap stderr].
  rewrite bind_unfold. cbn [alloc heap stderr].
  rewrite bind_unfold. cbn [alloc heap stderr].
  rewrite <- !app_assoc, !length_app. cbn [app length].
  set (n := length (heap s)).
  set (st := MkState _ _).
  assert (Hold : ∀ l, l < n → heap st !! l = heap s !! l).
  { intros l Hl. cbn. by apply lookup_app_l. }
  assert (Hcst : heap st !! c = Some d).
  { rewrite Hold; [done|]. by eapply lookup_lt_Some. }
  rewrite bind_unfold, (getitem_run _ _ _ _ Hcst), Hroot.
  rewrite bind_lift. unfold makepath, verify. rewrite !result_bind_unfold, Hp.
  destruct (expands p); [|done].
  cbn [Path_of mret result_ret]. rewrite result_bind_unfold.
  destruct (path_exists (expanduser p)); [|done].
  rewrite bind_unfold, (get_method_run _ _ _ _ _ Hcst).
  rewrite bind_unfold, (get_method_run _ _ _ _ _ Hcst).
  assert (Hlen : length (heap st) = n + 3).
  { cbn. rewrite length_app. cbn. lia. }
  destruct (group_step (resolve (expanduser p)) st (n + (1 + 1))
              [("nucl", VRef n); ("prot", VRef (n + 1))] "nucl" n d
              "nucleotide" nucl) as (st1 & ln & Hrun1 & Hold1 & Hdbs1 & Hln & Hneq1).
  { cbn. rewrite lookup_app_r by lia.
    by replace (n + 2 - length (heap s)) with 2 by (unfold n; lia). }
  { done. }
  { cbn. by apply list_lookup_middle. }
  { lia. }
  { by eapply group_of_mono. }
  rewrite bind_unfold.
  rewrite bind_unfold in Hrun1.
  destruct (truthy _ st) as [[bn st0]|] eqn:Etn; [|done].
  rewrite bind_unfold, Hrun1. clear Hrun1.
  assert (Hlen1 : (n + 3 ≤ length (heap st1))%nat).
  { pose proof (lookup_lt_Some _ _ _ Hdbs1). lia. }
  destruct (group_step (resolve (expanduser p)) st1 (n + (1 + 1))
              (dict_set "nucl" (VRef ln) [("nucl", VRef n); ("prot", VRef (n + 1))])
              "prot" (n + 1) d "protein" prot)
    as (st2 & lp & Hrun2 & Hold2 & Hdbs2 & Hlp & Hneq2).
  { done. }
  { done. }
  { rewrite Hold1 by lia. cbn. rewrite lookup_app_r by lia.
    by replace (n + 1 - length (heap s)) with 1 by lia. }
  { lia. }
  { eapply group_of_mono; [|exact Hn || exact Hpr].
    intros l Hl. rewrite Hold1 by lia. by apply Hold. }
  rewrite bind_unfold in Hrun2. rewrite bind_unfold.
  destruct (truthy _ st1) as [[bp st0']|] eqn:Etp; [|done].
  rewrite bind_unfold, Hrun2. clear Hrun2.
  exists (n + (1 + 1)), ln, lp, st2. split; [done|]. split; [lia|].
  split; [|split; [|split]].
  - intros l Hl. rewrite Hold2, Hold1 by lia. by apply Hold.
  - exact Hdbs2.
  - rewrite Hold2; [done| |done]. by eapply lookup_lt_Some.
  - exact Hlp.
Qed.

(** ** Lenient merge *)

(** C5: the lenient merge of the empty mapping returns its target and
    leaves the store as it is; merging [{'a': {'x': 1}}] and then
    [{'a': {'y': 2}}] into a fresh empty dictionary yields
    [{'a': {'x': 1, 'y': 2}}]. *)
Theorem lenient_merge_identity_and_composition :
  (∀ target s, _update_dict (PMap []) target s = Ok (target, s))
  ∧ ∀ s, ∃ s',
      (t ← alloc [];
       _update_dict (PMap [("a", PMap [("x", PAtom (AInt 1))])]) t ;;
       _update_dict (PMap [("a", PMap [("y", PAtom (AInt 2))])]) t) s
      = Ok (VRef (length (heap s)), s')
      ∧ (∀ l, l < length (heap s) → heap s' !! l = heap s !! l)
      ∧ repr (heap s')
             (PMap [("a", PMap [("x", PAtom (AInt 1)); ("y", PAtom (AInt 2))])])
             (VRef (length (heap s)))
             [length (heap s); S (length (heap s))].
Proof.
  split; [done|]. intros [h e].
  exists (MkState (h ++ [[("a", VRef (length h + 1))];
                         [("x", VAtom (AInt 1)); ("y", VAtom (AInt 2))]]) e).
  cbn [heap]. split; [|split].
  - rewrite <- (app_nil_r h) at 1. rewrite <- (Nat.add_0_r (length h)).
    run_tail. by rewrite Nat.add_0_r.
  - intros l Hl. by apply lookup_app_l.
  - eapply repr_map.
    + by apply list_lookup_middle.
    + cbn. apply NoDup_singleton.
    + change [S (length h)] with ([S (length h)] ++ []).
      rewrite Nat.add_1_r. apply repr_cons; [|constructor].
      eapply repr_map.
      * rewrite lookup_app_r by lia.
        by replace (S (length h) - length h) with 1 by lia.
      * cbn. apply NoDup_cons. split; [|apply NoDup_singleton].
        by intros [=]%list_elem_of_singleton.
      * apply (repr_cons _ _ _ _ _ _ [] []); [constructor|].
        apply (repr_cons _ _ _ _ _ _ [] []); constructor.
Qed.

(** ** VersionChecker *)

Lemma Version_in_Ok `{Env} (x : value) (cv : SemVer.t) (s : state) :
  Version x = Ok cv → Version_in x s = Ok (cv, s).
Proof.
  intros Hx. destruct x as [a|l|l]; [| |done]; unfold Version_in, lift; by rewrite Hx.
Qed.

(** C8: with an [all] section present and a package version that parses,
    [check_compatibility] returns the pair of the major of the package
    version and the major of [cfg['all']['version']], or of ["0.0.0"] when
    that key is absent, whatever the two majors are: [(pkg_major, 0)]
    without a version and [(pkg_major, 3)] for ["3.2.1"]. *)
Theorem check_compatibility_majors `{Env} (s : state) (c a : loc)
    (d da : dict) (pkg : SemVer.t) :
  heap s !! c = Some d →
  dict_get "all" d = Some (VRef a) →
  heap s !! a = Some da →
  SemVer.parse __version__ = Some pkg →
  (∀ cv,
     Version (match dict_get "version" da with
              | Some v => v
              | None => VAtom (AStr "0.0.0")
              end) = Ok cv →
     check_compatibility (VRef c) s
     = Ok ((SemVer.major pkg, SemVer.major cv), s))
  ∧ (dict_get "version" da = None →
     check_compatibility (VRef c) s = Ok ((SemVer.major pkg, 0%Z), s))
  ∧ (dict_get "version" da = Some (VAtom (AStr "3.2.1")) →
     check_compatibility (VRef c) s = Ok ((SemVer.major pkg, 3%Z), s)).
Proof.
  intros Hc Hall Ha Hpkg.
  assert (Hgen : ∀ cv,
     Version (match dict_get "version" da with
              | Some v => v
              | None => VAtom (AStr "0.0.0")
              end) = Ok cv →
     check_compatibility (VRef c) s
     = Ok ((SemVer.major pkg, SemVer.major cv), s)).
  { intros cv Hcv. unfold check_compatibility.
    rewrite bind_unfold, (getitem_run _ _ _ _ Hc), Hall.
    rewrite bind_unfold, (get_method_run _ _ _ _ _ Ha).
    rewrite bind_unfold, (Version_in_Ok _ _ _ Hcv), bind_lift.
    cbn [Version]. by rewrite Hpkg. }
  split; [exact Hgen|]. split; intros Hv.
  - apply (Hgen (SemVer.Make 0 0 0 [] [])). by rewrite Hv.
  - apply (Hgen (SemVer.Make 3 2 1 [] [])). by rewrite Hv.
Qed.

(** ** ExtensionAggregator *)

Lemma append_assoc (a b c : string) : (a +:+ b) +:+ c = a +:+ (b +:+ c).
Proof.
  induction a as [|x a IH]; [done|].
  change (String x ((a +:+ b) +:+ c) = String x (a +:+ (b +:+ c))).
  by rewrite IH.
Qed.

Lemma append_empty_r (s : string) : s +:+ "" = s.
Proof.
  induction s as [|c s IH]; [done|].
  change (String c (s +:+ "") = String c s). by rewrite IH.
Qed.

Section ExtensionFacts.
Context `{Env}.

Lemma extension_loop_run sunbeam_dir config entries :
  join_str sunbeam_dir "extensions" = extensions_dir →
  (∀ sbx, sbx ∈ entries → readable_entry sbx) →
  extension_loop sunbeam_dir config entries
  = Ok (config +:+ fragments entries).
Proof.
  intros Hdir. revert config.
  induction entries as [|sbx entries IH]; intros config Hall.
  - cbn. by rewrite append_empty_r.
  - cbn [extension_loop]. rewrite result_bind_unfold.
    unfold extension_step. rewrite Hdir.
    unfold fragments. cbn [List.filter]. unfold has_config at 1.
    destruct (Hall sbx) as [Hnd|(files & Hfiles & Hread)]; [left| |].
    + rewrite Hnd. apply IH. intros; apply Hall; by right.
    + rewrite Hfiles.
      assert (Hin : existsb (String.eqb "config.yml") files
                    = bool_decide ("config.yml" ∈ files)).
      { apply eq_true_iff_eq. rewrite existsb_exists, bool_decide_eq_true.
        split.
        - intros (x & Hx & ->%String.eqb_eq). by apply list_elem_of_In.
        - intros Hx. exists "config.yml". split; [by apply list_elem_of_In|].
          apply String.eqb_refl. }
      rewrite Hin. destruct (bool_decide _) eqn:Hb.
      * apply bool_decide_eq_true in Hb. destruct (Hread Hb) as [text Htext].
        rewrite result_bind_unfold, Htext.
        rewrite IH by (intros; apply Hall; by right).
        cbn [fmap list_fmap join_all]. unfold config_text at 1. rewrite Htext.
        unfold fragments. by rewrite !append_assoc.
      * apply IH. intros; apply Hall; by right.
Qed.
End ExtensionFacts.

(** C6: when the entries of the extensions directory can be listed, and
    each is no directory or a directory whose [config.yml], if present, can
    be read, [extension_config] returns the texts of the [config.yml] of
    the entries that are directories holding one, each after a newline, in
    listing order, skipping the other entries; the empty string when no
    entry is such a directory. *)
Theorem extension_config_concatenates `{Env} (entries : list string) :
  listdir extensions_dir = Ok entries →
  (∀ sbx, sbx ∈ entries → readable_entry sbx) →
  extension_config = Ok (fragments entries)
  ∧ ((∀ sbx, sbx ∈ entries → has_config sbx = false) →
     extension_config = Ok "").
Proof.
  intros Hls Hall.
  assert (Hrun : extension_config = Ok (fragments entries)).
  { unfold extension_config. fold extensions_dir. rewrite Hls, result_bind_unfold.
    by rewrite extension_loop_run. }
  split; [done|]. intros Hnone. rewrite Hrun. f_equal. unfold fragments.
  assert (List.filter has_config entries = []) as ->; [|done].
  clear -Hnone. induction entries as [|sbx entries IH]; [done|].
  cbn. rewrite Hnone by left. apply IH. intros; apply Hnone; by right.
Qed.

(** ** Read filter *)

Module DecontamFacts.
Import Decontam DecontamSpec.

Lemma clip_loop_spec clip cigar :
  clip_loop clip cigar = (clip + clipped cigar)%Z.
Proof.
  revert clip. induction cigar as [|[op len] cigar IH]; intros clip; cbn.
  - lia.
  - unfold clipped in *. cbn [List.filter].
    destruct (bool_decide (op = 4 ∨ op = 5)%Z) eqn:Hb.
    + apply bool_decide_eq_true in Hb.
      assert ((op =? 4)%Z || (op =? 5)%Z = true) as ->.
      { apply orb_true_iff. lia. }
      rewrite IH. cbn. lia.
    + apply bool_decide_eq_false in Hb.
      assert ((op =? 4)%Z || (op =? 5)%Z = false) as ->.
      { apply orb_false_iff. lia. }
      apply IH.
Qed.

Lemma float_of_int_finite n : finite n → float_of_int n = Ok (nearest_float n).
Proof. unfold finite, float_of_int. by intros ->. Qed.

Lemma keep_selected r min_pct_id min_len_frac :
  well_formed r →
  keep r min_pct_id min_len_frac = Ok (selected min_pct_id min_len_frac r).
Proof.
  intros Hwf. unfold keep, selected.
  destruct (is_unmapped r) eqn:Hu; [done|]. cbn [negb andb].
  destruct (Hwf Hu) as (cigar & a & Hc & Ha & Ha0 & Hq0 & Hfa & Hfn & Hfq & Hfqc).
  assert (Hfrac : _get_frac r = Ok (aligned_fraction r)).
  { unfold _get_frac, aligned_fraction, cigar_of, true_div. rewrite Hc.
    rewrite clip_loop_spec, Z.add_0_l.
    rewrite !result_bind_unfold, (float_of_int_finite _ Hfq).
    rewrite (float_of_int_finite _ Hfqc).
    by destruct (Z.eqb_spec (query_alignment_length r + clipped cigar) 0). }
  assert (Hpct : _get_pct_identity r = Ok (percent_identity r)).
  { unfold _get_pct_identity, percent_identity, true_div. rewrite Ha.
    rewrite !result_bind_unfold, (float_of_int_finite _ Hfn).
    rewrite !result_bind_unfold, (float_of_int_finite _ Hfa).
    by destruct (Z.eqb_spec a 0). }
  rewrite result_bind_unfold, Hfrac.
  destruct (gt (aligned_fraction r) min_len_frac); [|done].
  by rewrite result_bind_unfold, Hpct.
Qed.
Lemma float_of_int_Ok n f : float_of_int n = Ok f → f = nearest_float n.
Proof.
  unfold float_of_int.
  destruct (PrimFloat.is_infinity (nearest_float n)); [done|]. by intros [= <-].
Qed.

Lemma true_div_Ok x n f :
  true_div x n = Ok f → f = (x / nearest_float n)%float.
Proof.
  unfold true_div. rewrite result_bind_unfold.
  destruct (float_of_int n) as [d|e] eqn:Hd; [|done].
  apply float_of_int_Ok in Hd as ->.
  destruct (n =? 0)%Z; [done|]. by intros [= <-].
Qed.

Lemma _get_frac_Ok r f : _get_frac r = Ok f → f = aligned_fraction r.
Proof.
  unfold _get_frac, aligned_fraction, cigar_of.
  destruct (cigartuples r) as [cigar|]; [|done].
  rewrite clip_loop_spec, Z.add_0_l, result_bind_unfold.
  destruct (float_of_int (query_alignment_length r)) as [q|e] eqn:Hq; [|done].
  apply float_of_int_Ok in Hq as ->. apply true_div_Ok.
Qed.

Lemma _get_pct_identity_Ok r p :
  _get_pct_identity r = Ok p → p = percent_identity r.
Proof.
  unfold _get_pct_identity, percent_identity. rewrite result_bind_unfold.
  destruct (float_of_int _) as [e|x] eqn:He; [|done].
  apply float_of_int_Ok in He as ->.
  destruct (alen r) as [a|]; [|done]. rewrite result_bind_unfold.
  destruct (true_div _ a) as [m|x] eqn:Hm; [|done].
  apply true_div_Ok in Hm as ->. by intros [= <-].
Qed.

(** Whenever the condition evaluates, it is the selection. *)
Lemma keep_Ok r min_pct_id min_len_frac b :
  keep r min_pct_id min_len_frac = Ok b →
  b = selected min_pct_id min_len_frac r.
Proof.
  unfold keep, selected.
  destruct (is_unmapped r); cbn [negb andb]; [by intros [= <-]|].
  rewrite result_bind_unfold.
  destruct (_get_frac r) as [f|x] eqn:Hf; [|done].
  apply _get_frac_Ok in Hf as ->.
  destruct (gt (aligned_fraction r) min_len_frac); cbn [andb]; [|by intros [= <-]].
  rewrite result_bind_unfold.
  destruct (_get_pct_identity r) as [p|x] eqn:Hp; [|done].
  apply _get_pct_identity_Ok in Hp as ->. by intros [= <-].
Qed.
End DecontamFacts.

Import Decontam DecontamSpec DecontamFacts.

(** C9, amended: [get_mapped_reads] yields, in order, the query names of
    exactly the records that are mapped, whose aligned fraction (aligned
    length of the read over aligned plus clipped length) is above
    [min_len_frac] and whose percent identity, one minus the edit distance
    over the reference span [alen] of the alignment, is above
    [min_pct_id], among the records it has read: all of them when it ends
    without an exception.  It does so on every stream whose mapped records
    have a CIGAR, a reference span and lengths that are not zero.  For a
    record whose reference span is its aligned length (no insertion or
    deletion changes the count) this is the selection with a single
    aligned length. *)
Theorem get_mapped_reads_filters (sam : list read)
    (min_pct_id min_len_frac : float) :
  (∃ pre post, sam = pre ++ post
     ∧ (get_mapped_reads sam min_pct_id min_len_frac).1
       = query_name <$> List.filter (selected min_pct_id min_len_frac) pre
     ∧ ((get_mapped_reads sam min_pct_id min_len_frac).2 = None → post = []))
  ∧ (Forall well_formed sam →
     get_mapped_reads sam min_pct_id min_len_frac
     = (query_name <$> List.filter (selected min_pct_id min_len_frac) sam,
        None))
  ∧ (∀ r, alen r = Some (query_alignment_length r) →
       selected min_pct_id min_len_frac r
       = claimed_selected min_pct_id min_len_frac r).
Proof.
  split; [|split].
  - induction sam as [|r sam (pre & post & Hsam & Hnames & Hend)].
    { by exists [], []. }
    cbn [get_mapped_reads].
    destruct (keep r min_pct_id min_len_frac) as [b|x] eqn:Hk.
    + apply keep_Ok in Hk as ->.
      destruct (get_mapped_reads sam min_pct_id min_len_frac) as [names e].
      cbn [fst snd] in *. exists (r :: pre), post.
      split; [by rewrite Hsam|]. split; [|done].
      cbn [List.filter]. rewrite Hnames.
      by destruct (selected min_pct_id min_len_frac r).
    + by exists [], (r :: sam).
  - induction 1 as [|r sam Hr _ IH]; [done|].
    cbn [get_mapped_reads List.filter].
    rewrite (keep_selected _ _ _ Hr), IH.
    by destruct (selected min_pct_id min_len_frac r).
  - intros r Hr. unfold selected, claimed_selected, percent_identity,
      claimed_percent_identity. by rewrite Hr.
Qed.
(** ** Merging a mapping over a scalar *)

(** Induction on plain data, through the values of mappings. *)
Lemma pyval_map_ind (P : pyval → Prop) :
  (∀ a, P (PAtom a)) →
  (∀ l, P (PSeq l)) →
  (∀ m, Forall (λ kv, P kv.2) m → P (PMap m)) →
  ∀ v, P v.
Proof.
  intros Hatom Hseq Hmap.
  fix IH 1. intros [a|l|m].
  - apply Hatom.
  - apply Hseq.
  - apply Hmap. induction m as [|[k v] m IHm]; constructor.
    + apply IH.
    + exact IHm.
Qed.

Lemma keeps_scalars_refl h : keeps_scalars h h.
Proof. intros l d k v ???. eauto. Qed.

Lemma keeps_scalars_trans h1 h2 h3 :
  keeps_scalars h1 h2 → keeps_scalars h2 h3 → keeps_scalars h1 h3.
Proof.
  intros H12 H23 l d k v Hl Hk Hv.
  destruct (H12 l d k v Hl Hk Hv) as (d' & v' & Hl' & Hk' & Hv'). eauto.
Qed.

Lemma keeps_scalars_alloc h d : keeps_scalars h (h ++ [d]).
Proof.
  intros l d0 k v Hl Hk Hv. exists d0, v. split; [|done]. by apply lookup_app_l_Some.
Qed.

(** Storing [x] under [k] afterwards: fine when [x] is no reference
    unless the slot held a reference or nothing to begin with. *)
Lemma keeps_scalars_set h h2 l d2 k x :
  keeps_scalars h h2 →
  h2 !! l = Some d2 →
  (∀ d v, h !! l = Some d → dict_get k d = Some v → is_ref v = false →
          is_ref x = false) →
  keeps_scalars h (<[l := dict_set k x d2]> h2).
Proof.
  intros Hkeep Hl Hx l0 d0 k0 v0 Hl0 Hk0 Hv0.
  destruct (Hkeep l0 d0 k0 v0 Hl0 Hk0 Hv0) as (d' & v' & Hl' & Hk' & Hv').
  destruct (decide (l0 = l)) as [->|Hne].
  - rewrite Hl in Hl'. injection Hl' as <-.
    exists (dict_set k x d2). destruct (decide (k0 = k)) as [->|Hnek].
    + exists x. split; [apply list_lookup_insert_eq; by eapply lookup_lt_Some|].
      split; [apply dict_get_set_eq|]. eauto.
    + exists v'. split; [apply list_lookup_insert_eq; by eapply lookup_lt_Some|].
      split; [|done]. by rewrite dict_get_set_ne.
  - exists d', v'. split; [|done]. by rewrite list_lookup_insert_ne.
Qed.

Lemma update_dict_unfold m target :
  _update_dict (PMap m) target
  = (for_each (λ '(k, v),
        match non_mapping v with
        | None =>
            b ← contains k target;
            r ← (if b : bool
                 then c ← getitem target k; _update_dict v c
                 else c ← alloc []; _update_dict v c);
            setitem target k r
        | Some x => setitem target k x
        end) m ;;
      mret target).
Proof. reflexivity. Qed.

Lemma update_dict_strict_unfold m target :
  _update_dict_strict (PMap m) target
  = (for_each (λ '(k, v),
        b ← in_keys k target;
        if b : bool then
          match non_mapping v with
          | None =>
              c ← get_or_empty target k;
              r ← _update_dict_strict v c;
              setitem target k r
          | Some x => setitem target k x
          end
        else write_stderr (skip_message k)) m ;;
      mret target).
Proof. reflexivity. Qed.

Lemma non_mapping_is_ref v x : non_mapping v = Some x → is_ref x = false.
Proof. destruct v; intros [= <-]; done. Qed.

Lemma non_mapping_None v : non_mapping v = None → ∃ m, v = PMap m.
Proof. destruct v; [done..|]. eauto. Qed.

Lemma update_dict_keeps new :
  ∀ target s r s',
    _update_dict new target s = Ok (r, s') →
    r = target ∧ keeps_scalars (heap s) (heap s').
Proof.
  induction new as [a|l|m IH] using pyval_map_ind; intros target s r s' Hrun;
    [done..|].
  rewrite update_dict_unfold in Hrun.
  apply bind_Ok in Hrun as ([] & s1 & Hloop & [= <- <-]). split; [done|].
  refine (for_each_preserves _ (λ s s', keeps_scalars (heap s) (heap s'))
            _ _ m _ s tt s1 Hloop).
  { intros; apply keeps_scalars_refl. }
  { intros ???; apply keeps_scalars_trans. }
  clear s s1 Hloop. intros [k v] s [] s1 Hin Hbody.
  rewrite Forall_forall in IH. specialize (IH (k, v) Hin). cbn in IH.
  destruct (non_mapping v) as [x|] eqn:Hv.
  - destruct target as [?|?|lt]; [done..|].
    destruct (heap s !! lt) as [d|] eqn:Hlt.
    2:{ unfold setitem, deref in Hbody. rewrite bind_unfold, Hlt in Hbody. done. }
    rewrite (setitem_run _ _ _ _ _ Hlt) in Hbody. injection Hbody as <-. cbn.
    eapply keeps_scalars_set; [apply keeps_scalars_refl|done|].
    intros. by eapply non_mapping_is_ref.
  - apply bind_Ok in Hbody as (b & s0 & Hb & Hbody).
    apply bind_Ok in Hbody as (c & s2 & Hc & Hset).
    destruct target as [?|?|lt].
    { by destruct b; [apply bind_Ok in Hc as (? & ? & [=] & _)|]. }
    { by destruct b; [apply bind_Ok in Hc as (? & ? & [=] & _)|]. }
    destruct (heap s !! lt) as [d|] eqn:Hlt.
    2:{ unfold contains, deref in Hb. rewrite bind_unfold, Hlt in Hb. done. }
    rewrite (contains_run _ _ _ _ Hlt) in Hb. injection Hb as <- <-.
    destruct (heap s2 !! lt) as [d2|] eqn:Hlt2.
    2:{ unfold setitem, deref in Hset. rewrite bind_unfold, Hlt2 in Hset. done. }
    rewrite (setitem_run _ _ _ _ _ Hlt2) in Hset. injection Hset as <-. cbn.
    unfold dict_has in Hc. destruct (dict_get k d) as [c0|] eqn:Hk.
    + apply bind_Ok in Hc as (c1 & s4 & Hget & Hrec).
      rewrite (getitem_run _ _ _ _ Hlt), Hk in Hget. injection Hget as <- <-.
      destruct (IH _ _ _ _ Hrec) as [-> Hkeep].
      eapply keeps_scalars_set; [exact Hkeep|done|].
      intros d' v' Hd' Hv' Hr'. rewrite Hlt in Hd'. injection Hd' as <-.
      rewrite Hk in Hv'. by injection Hv' as <-.
    + apply bind_Ok in Hc as (c1 & s4 & Halloc & Hrec).
      injection Halloc as <- <-.
      destruct (IH _ _ _ _ Hrec) as [-> Hkeep].
      eapply keeps_scalars_set; [|done|].
      * eapply keeps_scalars_trans; [|exact Hkeep]. apply keeps_scalars_alloc.
      * intros d' v' Hd' Hv' Hr'. rewrite Hlt in Hd'. injection Hd' as <-.
        by rewrite Hk in Hv'.
Qed.

Lemma same_keys_refl s : same_keys s s.
Proof.
  split; [done|]. split; [eauto|]. exists []. by rewrite app_nil_r.
Qed.

Lemma same_keys_trans s1 s2 s3 :
  same_keys s1 s2 → same_keys s2 s3 → same_keys s1 s3.
Proof.
  intros (Hl1 & Hk1 & o1 & Ho1) (Hl2 & Hk2 & o2 & Ho2).
  split; [congruence|]. split.
  - intros l d Hd. destruct (Hk1 l d Hd) as (d' & Hd' & Hkd').
    destruct (Hk2 l d' Hd') as (d'' & Hd'' & Hkd''). exists d''. split; [done|].
    congruence.
  - exists (o1 ++ o2). by rewrite Ho2, Ho1, app_assoc.
Qed.

Lemma same_keys_set s l d k x :
  heap s !! l = Some d → k ∈ keys d →
  same_keys s (MkState (<[l := dict_set k x d]> (heap s)) (stderr s)).
Proof.
  intros Hl Hk. split; [apply length_insert|]. cbn [heap stderr]. split.
  - intros l0 d0 Hl0. destruct (decide (l0 = l)) as [->|Hne].
    + rewrite Hl in Hl0. injection Hl0 as <-. exists (dict_set k x d).
      split; [apply list_lookup_insert_eq; by eapply lookup_lt_Some|].
      by apply dict_set_keys.
    + exists d0. by rewrite list_lookup_insert_ne.
  - exists []. by rewrite app_nil_r.
Qed.

Lemma update_dict_strict_same_keys new :
  ∀ target s r s',
    _update_dict_strict new target s = Ok (r, s') →
    r = target ∧ same_keys s s' ∧ keeps_scalars (heap s) (heap s').
Proof.
  induction new as [a|l|m IH] using pyval_map_ind; intros target s r s' Hrun;
    [done..|].
  rewrite update_dict_strict_unfold in Hrun.
  apply bind_Ok in Hrun as ([] & s1 & Hloop & [= <- <-]). split; [done|].
  refine (for_each_preserves _
            (λ s s', same_keys s s' ∧ keeps_scalars (heap s) (heap s'))
            _ _ m _ s tt s1 Hloop).
  { split; [apply same_keys_refl | apply keeps_scalars_refl]. }
  { intros ??? [??] [??].
    split; [by eapply same_keys_trans | by eapply keeps_scalars_trans]. }
  clear s s1 Hloop. intros [k v] s [] s1 Hin Hbody.
  rewrite Forall_forall in IH. specialize (IH (k, v) Hin). cbn in IH.
  apply bind_Ok in Hbody as (b & s0 & Hb & Hbody).
  destruct target as [?|?|lt]; [done..|].
  destruct (heap s !! lt) as [d|] eqn:Hlt.
  2:{ unfold in_keys, items, deref in Hb. rewrite bind_unfold, Hlt in Hb. done. }
  rewrite (in_keys_run _ _ _ _ Hlt) in Hb. injection Hb as <- <-.
  destruct (dict_has k d) eqn:Hk.
  2:{ injection Hbody as <-. split; [|apply keeps_scalars_refl].
      split; [done|]. split; [eauto|]. by eexists. }
  apply dict_has_keys in Hk as Hkin.
  destruct (non_mapping v) as [x|] eqn:Hv.
  { rewrite (setitem_run _ _ _ _ _ Hlt) in Hbody. injection Hbody as <-.
    split; [by apply same_keys_set|]. cbn.
    eapply keeps_scalars_set; [apply keeps_scalars_refl|done|].
    intros. by eapply non_mapping_is_ref. }
  apply bind_Ok in Hbody as (c & s2 & Hc & Hbody).
  apply bind_Ok in Hbody as (r & s3 & Hrec & Hset).
  unfold get_or_empty in Hc. rewrite bind_unfold, (items_run _ _ _ Hlt) in Hc.
  unfold dict_has in Hk. destruct (dict_get k d) as [c0|] eqn:Hg; [|done].
  injection Hc as <- <-.
  destruct (IH _ _ _ _ Hrec) as (-> & Hsame & Hkeep).
  destruct (proj1 (proj2 Hsame) lt d Hlt) as (d3 & Hlt3 & Hk3).
  rewrite (setitem_run _ _ _ _ _ Hlt3) in Hset. injection Hset as <-. split.
  - eapply same_keys_trans; [exact Hsame|]. apply same_keys_set; [done|].
    by rewrite Hk3.
  - cbn. eapply keeps_scalars_set; [exact Hkeep|done|].
    intros d' v' Hd' Hv' Hr'. rewrite Hlt in Hd'. injection Hd' as <-.
    rewrite Hg in Hv'. by injection Hv' as <-.
Qed.

(** A target that is no mapping stops either merge at the first item. *)
Lemma update_dict_scalar_target m target s :
  is_ref target = false → m ≠ [] →
  ∃ e, _update_dict (PMap m) target s = Err e.
Proof.
  intros Ht Hm. destruct m as [|[k v] m]; [done|].
  rewrite update_dict_unfold, bind_unfold, for_each_cons, bind_unfold.
  destruct (non_mapping v) as [x|].
  { destruct target; [by eexists..|done]. }
  assert (Hset : ∀ r s1, setitem target k r s1 = Err TypeError).
  { intros. by destruct target. }
  assert (Hget : ∀ s1, getitem target k s1 = Err TypeError).
  { intros. by destruct target. }
  rewrite bind_unfold.
  destruct (contains k target s) as [[b s0]|e]; [|by eexists].
  rewrite bind_unfold. destruct b.
  - rewrite bind_unfold, Hget. by eexists.
  - rewrite bind_unfold. cbn [alloc].
    destruct (_update_dict v _ _) as [[r s1]|e]; [|by eexists].
    rewrite Hset. by eexists.
Qed.

Lemma update_dict_strict_scalar_target m target s :
  is_ref target = false → m ≠ [] →
  _update_dict_strict (PMap m) target s = Err AttributeError.
Proof.
  intros Ht Hm. destruct m as [|[k v] m]; [done|].
  rewrite update_dict_strict_unfold, bind_unfold, for_each_cons, !bind_unfold.
  by destruct target.
Qed.

Lemma insert_same_state s l d :
  heap s !! l = Some d → MkState (<[l := d]> (heap s)) (stderr s) = s.
Proof. intros Hl. destruct s as [h e]. cbn in *. by rewrite list_insert_id. Qed.

(** C10, amended: when [target] maps [k] to a scalar or a sequence and
    [new], a mapping with string keys at every level, maps [k] to a
    nested mapping that is not empty, the lenient and the strict merge
    both fail with an error; when the nested mapping is empty,
    [target[k]] keeps its value: merging [{k: {}}] returns the target and
    leaves the store as it was, in both modes.  (Keys that are no strings
    are not covered: an integer key indexes a sequence, so the lenient
    merge of [{k: {0: v}}] over a list assigns [v] to its first
    element.) *)
Theorem merge_mapping_over_scalar (s : state) (t : loc) (d : dict)
    (k : string) (v : value) :
  heap s !! t = Some d →
  dict_get k d = Some v →
  is_ref v = false →
  (∀ new m : list (string * pyval),
     dict_get k new = Some (PMap m) → m ≠ [] →
     (∃ e, _update_dict (PMap new) (VRef t) s = Err e)
     ∧ (∃ e, _update_dict_strict (PMap new) (VRef t) s = Err e))
  ∧ _update_dict (PMap [(k, PMap [])]) (VRef t) s = Ok (VRef t, s)
  ∧ _update_dict_strict (PMap [(k, PMap [])]) (VRef t) s = Ok (VRef t, s).
Proof.
  intros Ht Hk Hv. split; [|split].
  - intros new m Hnew Hm. split.
    + rewrite update_dict_unfold.
      enough (∃ e, for_each (λ '(k, v),
        match non_mapping v with
        | None =>
            b ← contains k (VRef t);
            r ← (if b : bool
                 then c ← getitem (VRef t) k; _update_dict v c
                 else c ← alloc []; _update_dict v c);
            setitem (VRef t) k r
        | Some x => setitem (VRef t) k x
        end) new s = Err e) as [e He].
      { exists e. by rewrite bind_unfold, He. }
      revert s d v Ht Hk Hv.
      induction new as [|[k0 v0] new IH]; intros s d v Ht Hk Hv; [done|].
      rewrite for_each_cons, bind_unfold. cbn in Hnew.
      destruct (String.eqb_spec k k0) as [<-|Hne].
      * injection Hnew as ->. cbn [non_mapping].
        rewrite bind_unfold, (contains_run _ _ _ _ Ht).
        unfold dict_has. rewrite Hk, !bind_unfold, (getitem_run _ _ _ _ Ht), Hk.
        destruct (update_dict_scalar_target m v s Hv Hm) as [e ->]. by eexists.
      * match goal with |- context [match ?x with Ok _ => _ | Err _ => _ end] =>
          destruct x as [[[] s1]|e] eqn:Hbody end; [|by eexists].
        assert (Hstep : _update_dict (PMap [(k0, v0)]) (VRef t) s
                        = Ok (VRef t, s1)).
        { by rewrite update_dict_unfold, bind_unfold, for_each_cons,
            bind_unfold, Hbody. }
        apply update_dict_keeps in Hstep as [_ Hkeep].
        destruct (Hkeep t d k v Ht Hk Hv) as (d1 & v1 & Ht1 & Hk1 & Hv1).
        by eapply IH.
    + rewrite update_dict_strict_unfold.
      enough (∃ e, for_each (λ '(k, v),
        b ← in_keys k (VRef t);
        if b : bool then
          match non_mapping v with
          | None =>
              c ← get_or_empty (VRef t) k;
              r ← _update_dict_strict v c;
              setitem (VRef t) k r
          | Some x => setitem (VRef t) k x
          end
        else write_stderr (skip_message k)) new s = Err e) as [e He].
      { exists e. by rewrite bind_unfold, He. }
      revert s d v Ht Hk Hv.
      induction new as [|[k0 v0] new IH]; intros s d v Ht Hk Hv; [done|].
      rewrite for_each_cons, bind_unfold. cbn in Hnew.
      destruct (String.eqb_spec k k0) as [<-|Hne].
      * injection Hnew as ->.
        rewrite bind_unfold, (in_keys_run _ _ _ _ Ht).
        unfold dict_has. rewrite Hk. cbn [non_mapping].
        unfold get_or_empty.
        rewrite !bind_unfold, (items_run _ _ _ Ht), Hk.
        cbn [mret M_ret]. rewrite bind_unfold.
        rewrite (update_dict_strict_scalar_target m v s Hv Hm). by eexists.
      * match goal with |- context [match ?x with Ok _ => _ | Err _ => _ end] =>
          destruct x as [[[] s1]|e] eqn:Hbody end; [|by eexists].
        assert (Hstep : _update_dict_strict (PMap [(k0, v0)]) (VRef t) s
                        = Ok (VRef t, s1)).
        { by rewrite update_dict_strict_unfold, bind_unfold, for_each_cons,
            bind_unfold, Hbody. }
        apply update_dict_strict_same_keys in Hstep as (_ & _ & Hkeep).
        destruct (Hkeep t d k v Ht Hk Hv) as (d1 & v1 & Ht1 & Hk1 & Hv1).
        by eapply IH.
  - rewrite update_dict_unfold, bind_unfold, for_each_cons, bind_unfold.
    cbn [non_mapping]. rewrite bind_unfold, (contains_run _ _ _ _ Ht).
    unfold dict_has. rewrite Hk, !bind_unfold, (getitem_run _ _ _ _ Ht), Hk.
    cbn [_update_dict for_each mret M_ret]. rewrite bind_unfold.
    cbn [mret M_ret].
    rewrite (setitem_run t s d k v Ht), (dict_set_same _ _ _ Hk).
    by rewrite (insert_same_state _ _ _ Ht).
  - rewrite update_dict_strict_unfold, bind_unfold, for_each_cons, bind_unfold.
    rewrite bind_unfold, (in_keys_run _ _ _ _ Ht).
    unfold dict_has. rewrite Hk. cbn [non_mapping]. unfold get_or_empty.
    rewrite !bind_unfold, (items_run _ _ _ Ht), Hk.
    cbn [_update_dict_strict for_each mret M_ret]. rewrite bind_unfold.
    cbn [mret M_ret]. rewrite bind_unfold. cbn [mret M_ret].
    rewrite (setitem_run t s d k v Ht), (dict_set_same _ _ _ Hk).
    by rewrite (insert_same_state _ _ _ Ht).
Qed.
(** ** Strict merge *)

Lemma merge_slot_None t : merge_slot t None = t.
Proof. by destruct t. Qed.

Lemma merge_slot_map T m :
  merge_slot (PMap T) (Some (PMap m)) = PMap (merge_strict T m).
Proof. reflexivity. Qed.

Lemma merge_slot_leaf t v x :
  non_mapping v = Some x → merge_slot t (Some v) = v.
Proof. destruct v; [by destruct t..|done]. Qed.

Lemma merge_strict_keys T new : keys (merge_strict T new) = keys T.
Proof.
  unfold keys, merge_strict. rewrite <- list_fmap_compose.
  apply list_fmap_ext. by intros _ [k t] _.
Qed.

(** ** Frames *)

Lemma repr_frame_both h h' :
  (∀ t v F, repr h t v F → (∀ l, l ∈ F → h' !! l = h !! l) → repr h' t v F)
  ∧ (∀ T d F, repr_items h T d F → (∀ l, l ∈ F → h' !! l = h !! l) →
              repr_items h' T d F).
Proof.
  apply (repr_mutind h
    (λ t v F _, (∀ l, l ∈ F → h' !! l = h !! l) → repr h' t v F)
    (λ T d F _, (∀ l, l ∈ F → h' !! l = h !! l) → repr_items h' T d F)).
  - constructor.
  - constructor.
  - intros T l d F Hl Hnd _ IH Hfr. econstructor; [|done|].
    + rewrite Hfr; [done|left].
    + apply IH. intros; apply Hfr; by right.
  - constructor.
  - intros k t v T d F1 F2 _ IH1 _ IH2 Hfr. constructor.
    + apply IH1. intros; apply Hfr. apply elem_of_app; by left.
    + apply IH2. intros; apply Hfr. apply elem_of_app; by right.
Qed.

Lemma repr_frame h h' t v F :
  repr h t v F → (∀ l, l ∈ F → h' !! l = h !! l) → repr h' t v F.
Proof. apply repr_frame_both. Qed.

Lemma repr_items_frame h h' T d F :
  repr_items h T d F → (∀ l, l ∈ F → h' !! l = h !! l) → repr_items h' T d F.
Proof. apply repr_frame_both. Qed.

Lemma repr_items_keys h T d F : repr_items h T d F → keys T = keys d.
Proof. induction 1; cbn; [done|]. by f_equal. Qed.

Lemma repr_leaf h v x : non_mapping v = Some x → repr h v x [].
Proof. destruct v; intros [= <-]; constructor. Qed.

(** The slot of a key: what it denotes, and what the dictionary denotes
    once the slot is replaced and the store changed below it only. *)
Lemma repr_items_update h T d F k c :
  repr_items h T d F → NoDup F → dict_get k d = Some c →
  ∃ tk Fk, dict_get k T = Some tk ∧ repr h tk c Fk ∧ Fk ⊆ F ∧ NoDup Fk ∧
    ∀ h' tk' c' Fk',
      repr h' tk' c' Fk' → Fk' ⊆ Fk → NoDup Fk' →
      (∀ l, l ∈ F → l ∉ Fk → h' !! l = h !! l) →
      ∃ F', repr_items h' (dict_set k tk' T) (dict_set k c' d) F'
            ∧ F' ⊆ F ∧ NoDup F'.
Proof.
  induction 1 as [|k0 t0 v0 T d F1 F2 Ht0 HT IH]; intros Hnd Hk; [done|].
  apply NoDup_app in Hnd as (Hnd1 & Hdisj & Hnd2). cbn in Hk. cbn [dict_get dict_set].
  destruct (String.eqb_spec k k0) as [->|Hne].
  - injection Hk as <-. exists t0, F1. split; [done|]. split; [done|].
    split; [intros x Hx; apply elem_of_app; by left|]. split; [done|].
    intros h' tk' c' Fk' Hrep Hsub Hnd' Hfr. exists (Fk' ++ F2). split; [|split].
    + constructor; [done|]. eapply repr_items_frame; [exact HT|].
      intros l Hl. apply Hfr; [apply elem_of_app; by right|].
      intros Hl1. by eapply Hdisj.
    + intros x [Hx|Hx]%elem_of_app; apply elem_of_app; [left; by apply Hsub | by right].
    + apply NoDup_app. split; [done|]. split; [|done].
      intros x Hx. apply Hdisj. by apply Hsub.
  - destruct (IH Hnd2 Hk) as (tk & Fk & Hg & Hrep & Hsub & HndFk & Hupd).
    exists tk, Fk. split; [done|]. split; [done|].
    split; [intros x Hx; apply elem_of_app; right; by apply Hsub|].
    split; [done|].
    intros h' tk' c' Fk' Hrep' Hsub' Hnd' Hfr.
    destruct (Hupd h' tk' c' Fk' Hrep' Hsub' Hnd') as (F' & HF' & HsubF' & HndF').
    { intros l Hl Hnl. apply Hfr; [apply elem_of_app; by right | done]. }
    exists (F1 ++ F'). split; [|split].
    + constructor; [|done]. eapply repr_frame; [exact Ht0|].
      intros l Hl. apply Hfr; [apply elem_of_app; by left|].
      intros Hlk. eapply Hdisj; [exact Hl|]. by apply Hsub.
    + intros x [Hx|Hx]%elem_of_app; apply elem_of_app; [by left | right; by apply HsubF'].
    + apply NoDup_app. split; [done|]. split; [|done].
      intros x Hx Hx'. eapply Hdisj; [exact Hx|]. by apply HsubF'.
Qed.

Lemma elem_keys {A} (d : list (string * A)) k x : (k, x) ∈ d → k ∈ keys d.
Proof. intros Hin. change k with (fst (k, x)). by apply list_elem_of_fmap_2. Qed.

Lemma lookup_keys {A} (d : list (string * A)) i k x :
  d !! i = Some (k, x) → k ∈ keys d.
Proof. intros Hi. eapply elem_keys. by eapply list_elem_of_lookup_2. Qed.

Lemma merge_strict_skip T k v rest :
  k ∉ keys T → merge_strict T ((k, v) :: rest) = merge_strict T rest.
Proof.
  intros Hk. unfold merge_strict. apply list_fmap_ext. intros i [k0 t0] Hi. cbn.
  destruct (String.eqb_spec k0 k) as [->|Hne]; [|done].
  exfalso. apply Hk. by eapply lookup_keys.
Qed.

Lemma merge_strict_cons T k v rest tk :
  NoDup (keys T) → k ∉ keys rest → dict_get k T = Some tk →
  merge_strict (dict_set k (merge_slot tk (Some v)) T) rest
  = merge_strict T ((k, v) :: rest).
Proof.
  intros Hnd Hk. unfold merge_strict.
  induction T as [|[k0 t0] T IH]; [done|]. cbn [dict_get dict_set].
  apply NoDup_cons in Hnd as [Hk0 Hnd].
  destruct (String.eqb_spec k k0) as [->|Hne].
  - intros [= ->]. cbn. rewrite String.eqb_refl.
    apply dict_get_keys in Hk. rewrite Hk, merge_slot_None. f_equal.
    apply list_fmap_ext. intros i [k1 t1] Hi. cbn.
    destruct (String.eqb_spec k1 k0) as [->|]; [|done].
    exfalso. apply Hk0. by eapply lookup_keys.
  - intros Hg. cbn. rewrite IH by done.
    destruct (String.eqb_spec k0 k) as [->|]; [done|]. done.
Qed.

Lemma compatible_skip T k v rest :
  k ∉ keys T →
  Forall (λ kt, compatible kt.2 (dict_get kt.1 ((k, v) :: rest))) T →
  Forall (λ kt, compatible kt.2 (dict_get kt.1 rest)) T.
Proof.
  intros Hk. rewrite !Forall_forall. intros Hall [k0 t0] Hin.
  specialize (Hall _ Hin). cbn in *.
  destruct (String.eqb_spec k0 k) as [->|]; [|done].
  exfalso. apply Hk. by eapply elem_keys.
Qed.

Lemma Forall_dict_set {A} (P : string * A → Prop) k x d :
  Forall P d → P (k, x) → Forall P (dict_set k x d).
Proof.
  intros Hall Hx. induction Hall as [|[k0 x0] d H0 Hall IH]; cbn.
  - by constructor.
  - destruct (String.eqb k k0); by constructor.
Qed.

Lemma compatible_cons T k v rest t' :
  k ∉ keys rest →
  Forall (λ kt, compatible kt.2 (dict_get kt.1 ((k, v) :: rest))) T →
  Forall (λ kt, compatible kt.2 (dict_get kt.1 rest)) (dict_set k t' T).
Proof.
  intros Hk Hall. apply dict_get_keys in Hk. apply Forall_dict_set.
  - eapply Forall_impl; [exact Hall|]. intros [k0 t0] H0. cbn in *.
    destruct (String.eqb_spec k0 k) as [->|]; [|done]. rewrite Hk. constructor.
  - cbn. rewrite Hk. constructor.
Qed.

Lemma merge_strict_nil T : merge_strict T [] = T.
Proof.
  unfold merge_strict. rewrite <- (list_fmap_id T) at 2.
  apply list_fmap_ext. intros _ [k t] _. cbn. by rewrite merge_slot_None.
Qed.

Lemma strict_loop l rest :
  Forall (λ kv, strict_spec_at kv.2) rest →
  NoDup (keys rest) →
  Forall (λ kv, distinct_keys kv.2) rest →
  ∀ Tc d Fc s,
    heap s !! l = Some d → NoDup (keys d) →
    repr_items (heap s) Tc d Fc → NoDup (l :: Fc) →
    match for_each (strict_body (VRef l)) rest s with
    | Ok (_, s') =>
        ∃ d' F', heap s' !! l = Some d' ∧ NoDup (keys d')
          ∧ repr_items (heap s') (merge_strict Tc rest) d' F'
          ∧ F' ⊆ Fc ∧ NoDup F'
          ∧ (∀ l', l' ∉ l :: Fc → heap s' !! l' = heap s !! l')
    | Err _ => ¬ Forall (λ kt, compatible kt.2 (dict_get kt.1 rest)) Tc
    end.
Proof.
  induction rest as [|[k v] rest IH]; intros Hspec Hndk Hdist Tc d Fc s Hl Hndd HTc HndF.
  { cbn. exists d, Fc. rewrite merge_strict_nil.
    apply NoDup_cons in HndF as [_ HndFc]. by repeat split. }
  apply Forall_cons in Hspec as [Hv Hspec]. cbn in Hv.
  apply NoDup_cons in Hndk as [Hk Hndk].
  apply Forall_cons in Hdist as [Hdv Hdist]. cbn in Hdv.
  specialize (IH Hspec Hndk Hdist).
  apply NoDup_cons in HndF as HndF'. destruct HndF' as [HlF HndFc].
  pose proof (repr_items_keys _ _ _ _ HTc) as Hkeys.
  rewrite for_each_cons, bind_unfold. unfold strict_body at 1.
  rewrite bind_unfold, (in_keys_run _ _ _ _ Hl).
  destruct (dict_has k d) eqn:Hhas.
  2:{ (* the key is not in the target: reported and dropped *)
    assert (Hnk : k ∉ keys Tc).
    { rewrite Hkeys. intros Hin%dict_has_keys. congruence. }
    cbn [write_stderr].
    specialize (IH Tc d Fc (MkState (heap s) (stderr s ++ [skip_message k]))
                  Hl Hndd HTc HndF).
    destruct (for_each _ rest _) as [[[] s']|e].
    - rewrite merge_strict_skip by done. exact IH.
    - intros Hc. apply IH. by eapply compatible_skip. }
  unfold dict_has in Hhas. destruct (dict_get k d) as [c|] eqn:Hg; [|done].
  destruct (repr_items_update _ _ _ _ _ _ HTc HndFc Hg)
    as (tk & Fk & Hgt & Hrep & Hsub & HndFk & Hupd).
  assert (HndT : NoDup (keys Tc)) by (by rewrite Hkeys).
  assert (HlFk : l ∉ Fk) by (intros Hin; apply HlF; by apply Hsub).
  (* what remains once the item is done *)
  assert (Hrest : ∀ s1 F1,
    heap s1 !! l = Some (dict_set k (match non_mapping v with
                                     | Some x => x | None => c end) d) →
    repr_items (heap s1) (dict_set k (merge_slot tk (Some v)) Tc)
               (dict_set k (match non_mapping v with
                            | Some x => x | None => c end) d) F1 →
    F1 ⊆ Fc → NoDup F1 →
    (∀ l', l' ∉ l :: Fc → heap s1 !! l' = heap s !! l') →
    match for_each (strict_body (VRef l)) rest s1 with
    | Ok (_, s') =>
        ∃ d' F', heap s' !! l = Some d' ∧ NoDup (keys d')
          ∧ repr_items (heap s') (merge_strict Tc ((k, v) :: rest)) d' F'
          ∧ F' ⊆ Fc ∧ NoDup F'
          ∧ (∀ l', l' ∉ l :: Fc → heap s' !! l' = heap s !! l')
    | Err _ =>
        ¬ Forall (λ kt, compatible kt.2 (dict_get kt.1 ((k, v) :: rest))) Tc
    end).
  { intros s1 F1 Hl1 HT1 Hsub1 Hnd1 Hfr1.
    assert (HndF1 : NoDup (l :: F1)).
    { apply NoDup_cons. split; [|done]. intros Hin. apply HlF. by apply Hsub1. }
    assert (Hndd1 : NoDup (keys (dict_set k (match non_mapping v with
                                             | Some x => x | None => c end) d))).
    { rewrite (dict_set_keys k _ d); [done|]. eapply elem_keys. by eapply dict_get_elem. }
    specialize (IH _ _ _ _ Hl1 Hndd1 HT1 HndF1).
    destruct (for_each _ rest s1) as [[[] s']|e].
    - destruct IH as (d' & F' & Hl' & Hndd' & HT' & Hsub' & Hnd' & Hfr').
      exists d', F'. rewrite <- (merge_strict_cons _ _ _ _ _ HndT Hk Hgt).
      split; [done|]. split; [done|]. split; [done|].
      split; [by etrans|]. split; [done|].
      intros l' Hl'n. rewrite Hfr'; [by apply Hfr1|].
      intros [->|Hin]%elem_of_cons; apply Hl'n; [left | right; by apply Hsub1].
    - intros Hc. apply IH. by eapply compatible_cons. }
  destruct (non_mapping v) as [x|] eqn:Hnm.
  - (* a scalar or a sequence: the slot is overwritten *)
    rewrite (setitem_run _ _ _ _ _ Hl).
    destruct (Hupd (<[l := dict_set k x d]> (heap s)) v x [])
      as (F1 & HT1 & Hsub1 & Hnd1).
    { by apply repr_leaf. }
    { intros ? Hin. by apply elem_of_nil in Hin. }
    { constructor. }
    { intros l0 Hl0 _. apply list_lookup_insert_ne. by intros ->. }
    rewrite (merge_slot_leaf tk v x Hnm) in Hrest.
    apply (Hrest _ F1); [| done..|].
    + cbn. apply list_lookup_insert_eq. by eapply lookup_lt_Some.
    + intros l' Hl'. cbn. apply list_lookup_insert_ne.
      intros ->. apply Hl'. left.
  - (* a mapping: the merge goes into the slot *)
    destruct (non_mapping_None _ Hnm) as [m' ->].
    unfold get_or_empty. rewrite !bind_unfold, (items_run _ _ _ Hl), Hg.
    cbn [mret M_ret]. rewrite bind_unfold.
    specialize (Hv m' eq_refl Hdv c tk Fk s Hrep HndFk).
    destruct (_update_dict_strict (PMap m') c s) as [[r s1]|e].
    + destruct Hv as (-> & Fk' & Hrep' & Hsub' & Hnd' & Hfr').
      assert (Hl1 : heap s1 !! l = Some d) by (by rewrite Hfr').
      rewrite (setitem_run _ _ _ _ _ Hl1), (dict_set_same _ _ _ Hg).
      rewrite (insert_same_state _ _ _ Hl1).
      destruct (Hupd (heap s1) (merge_slot tk (Some (PMap m'))) c Fk')
        as (F1 & HT1 & Hsub1 & Hnd1); [done..| |].
      { intros l0 _ Hl0. by apply Hfr'. }
      cbn [non_mapping] in Hrest. rewrite (dict_set_same _ _ _ Hg) in Hrest, HT1.
      apply (Hrest s1 F1); [done..|].
      intros l' Hl'. apply Hfr'. intros Hin. apply Hl'. right. by apply Hsub.
    + intros Hc. apply Hv. rewrite Forall_forall in Hc.
      specialize (Hc (k, tk) (dict_get_elem _ _ _ Hgt)). cbn in Hc.
      by rewrite String.eqb_refl in Hc.
Qed.

Lemma strict_spec new : strict_spec_at new.
Proof.
  induction new as [a|l|m IH] using pyval_map_ind; [by intros ? [=]..|].
  intros m0 [= <-] Hdist tv T F s Hrep HndF.
  inversion Hdist as [| |? Hndk Hdv]; subst.
  rewrite update_dict_strict_unfold, bind_unfold.
  change (for_each _ m s) with (for_each (strict_body tv) m s).
  inversion Hrep as [a|sq|T0 l d Fc Hl Hndd HT]; subst.
  - (* the target is a scalar *)
    destruct m as [|[k v] m]; cbn.
    + split; [done|]. exists []. by repeat split.
    + intros Hc. by inversion Hc.
  - destruct m as [|[k v] m]; cbn.
    + split; [done|]. exists []. by repeat split.
    + intros Hc. by inversion Hc.
  - (* the target is a dictionary *)
    pose proof (strict_loop l m IH Hndk Hdv T0 d Fc s Hl Hndd HT HndF) as Hloop.
    destruct (for_each (strict_body (VRef l)) m s) as [[[] s']|e].
    + destruct Hloop as (d' & F' & Hl' & Hndd' & HT' & Hsub' & Hnd' & Hfr').
      cbn [mret M_ret]. split; [done|]. exists (l :: F').
      apply NoDup_cons in HndF as [HlF HndFc].
      rewrite merge_slot_map. split; [by econstructor|]. split; [|split].
      * intros x [->|Hx]%elem_of_cons; [left | right; by apply Hsub'].
      * apply NoDup_cons. split; [|done]. intros Hin. apply HlF. by apply Hsub'.
      * done.
    + intros Hc. apply Hloop. inversion Hc as [| | |? ? Hall|]; subst; [done|].
      apply Forall_forall. intros [k0 t0] _. cbn. constructor.
Qed.

Lemma dict_get_merge_strict T new k :
  dict_get k (merge_strict T new)
  = (λ t, merge_slot t (dict_get k new)) <$> dict_get k T.
Proof.
  unfold merge_strict. induction T as [|[k0 t0] T IH]; [done|]. cbn.
  destruct (String.eqb_spec k k0) as [->|]; [done | exact IH].
Qed.

Lemma strict_step_run t k v s s1 :
  strict_body (VRef t) (k, v) s = Ok (tt, s1) →
  _update_dict_strict (PMap [(k, v)]) (VRef t) s = Ok (VRef t, s1).
Proof.
  intros Hbody. rewrite update_dict_strict_unfold, bind_unfold, for_each_cons.
  change (_ ≫= _) with (strict_body (VRef t) (k, v) ≫= λ _, mret tt).
  by rewrite bind_unfold, Hbody.
Qed.

Lemma strict_loop_run t m s s1 :
  for_each (strict_body (VRef t)) m s = Ok (tt, s1) →
  _update_dict_strict (PMap m) (VRef t) s = Ok (VRef t, s1).
Proof.
  intros Hloop. rewrite update_dict_strict_unfold, bind_unfold.
  change (for_each _ m s) with (for_each (strict_body (VRef t)) m s).
  by rewrite Hloop.
Qed.

(** A key of [new] that the target does not have is reported. *)
Lemma strict_loop_reports t k new :
  ∀ s d s',
    heap s !! t = Some d → k ∉ keys d → k ∈ keys new →
    for_each (strict_body (VRef t)) new s = Ok (tt, s') →
    skip_message k ∈ stderr s'.
Proof.
  induction new as [|[k0 v0] new IH]; intros s d s' Ht Hk Hin Hrun.
  { by apply elem_of_nil in Hin. }
  rewrite for_each_cons in Hrun. apply bind_Ok in Hrun as ([] & s1 & Hbody & Hrest).
  destruct (decide (k = k0)) as [<-|Hne].
  - unfold strict_body in Hbody.
    rewrite bind_unfold, (in_keys_run _ _ _ _ Ht) in Hbody.
    assert (dict_has k d = false) as Hhas.
    { destruct (dict_has k d) eqn:E; [|done]. by apply dict_has_keys in E. }
    rewrite Hhas in Hbody. injection Hbody as <-.
    apply strict_loop_run, update_dict_strict_same_keys in Hrest
      as (_ & (_ & _ & out & Hout) & _).
    rewrite Hout. cbn. apply elem_of_app. left. apply elem_of_app. right. left.
  - apply strict_step_run, update_dict_strict_same_keys in Hbody
      as (_ & (_ & Hkeys & _) & _).
    destruct (Hkeys t d Ht) as (d1 & Ht1 & Hk1).
    eapply (IH s1 d1); [done|by rewrite Hk1| |done].
    apply elem_of_cons in Hin as [?|?]; [done|done].
Qed.

(** C4: the strict merge never introduces a key.  When it returns, it
    returns the target, no dictionary has been created, and every
    dictionary of the store, the target and the mappings nested in it at
    every level, has exactly the keys it had; every key of [new] that the
    target lacks is reported on [stderr] (and dropped).  When the store
    below the target is a tree and [new] has distinct keys, the merge
    returns as soon as no non-empty mapping of [new] meets a scalar of the
    target, and the target then denotes the old tree in which a key that
    [new] maps to a scalar or a sequence holds that value, a key that both
    map to mappings holds the strict merge of the two, and a key that
    [new] does not name holds what it held. *)
Theorem strict_merge_keeps_key_set (s : state) (t : loc) (d : dict)
    (new : list (string * pyval)) :
  heap s !! t = Some d →
  (∀ r s', _update_dict_strict (PMap new) (VRef t) s = Ok (r, s') →
     r = VRef t
     ∧ length (heap s') = length (heap s)
     ∧ (∀ l d0, heap s !! l = Some d0 →
          ∃ d', heap s' !! l = Some d' ∧ keys d' = keys d0)
     ∧ (∀ k, k ∈ keys new → k ∉ keys d → skip_message k ∈ stderr s'))
  ∧ ∀ T F,
      repr (heap s) (PMap T) (VRef t) F →
      NoDup F →
      distinct_keys (PMap new) →
      (compatible (PMap T) (Some (PMap new)) →
       ∃ s', _update_dict_strict (PMap new) (VRef t) s = Ok (VRef t, s'))
      ∧ ∀ r s', _update_dict_strict (PMap new) (VRef t) s = Ok (r, s') →
          (∃ F', repr (heap s') (PMap (merge_strict T new)) (VRef t) F')
          ∧ keys (merge_strict T new) = keys T
          ∧ (∀ k v tk, dict_get k new = Some v → dict_get k T = Some tk →
               dict_get k (merge_strict T new)
               = Some (match v, tk with
                       | PMap m, PMap Tk => PMap (merge_strict Tk m)
                       | PMap _, _ => tk
                       | _, _ => v
                       end))
          ∧ (∀ k tk, dict_get k new = None → dict_get k T = Some tk →
               dict_get k (merge_strict T new) = Some tk).
Proof.
  intros Ht. split.
  - intros r s' Hrun.
    destruct (update_dict_strict_same_keys _ _ _ _ _ Hrun)
      as (-> & (Hlen & Hkeys & _) & _).
    split; [done|]. split; [done|]. split; [done|].
    intros k Hin Hnk. rewrite update_dict_strict_unfold in Hrun.
    apply bind_Ok in Hrun as ([] & s1 & Hloop & [= <-]).
    by eapply (strict_loop_reports t k new s d).
  - intros T F Hrep HndF Hdist.
    pose proof (strict_spec (PMap new) new eq_refl Hdist (VRef t) (PMap T) F s
                  Hrep HndF) as Hspec.
    split.
    { intros Hc. destruct (_update_dict_strict (PMap new) (VRef t) s)
        as [[r s']|e]; [|done].
      destruct Hspec as [-> _]. by exists s'. }
    intros r s' Hrun. rewrite Hrun in Hspec.
    destruct Hspec as (-> & F' & Hrep' & _).
    split; [by exists F'|]. split; [apply merge_strict_keys|]. split.
    + intros k v tk Hv Htk. rewrite dict_get_merge_strict, Htk, Hv. cbn.
      by destruct v, tk.
    + intros k tk Hv Htk. rewrite dict_get_merge_strict, Htk, Hv. cbn.
      by rewrite merge_slot_None.
Qed.
(** ** The tree [check_config] returns *)

Section CheckResult.
Context `{Env}.

Lemma check_config_result s c d secs a da root r :
  heap s !! c = Some d →
  NoDup (keys d) →
  sections_of (heap s) d secs →
  dict_get "all" d = Some (VRef a) →
  heap s !! a = Some da →
  match dict_get "root" da with
  | Some v => verify v
  | None => Ok (Path_of_str getcwd)
  end = Ok root →
  validate_all root secs = Ok r →
  ∃ s', check_config (VRef c) s = Ok (VRef (length (heap s)), s')
    ∧ stderr s' = stderr s
    ∧ length (heap s') = length (heap s) + 1 + length r
    ∧ (∀ l, l < length (heap s) → heap s' !! l = heap s !! l)
    ∧ heap s' !! length (heap s)
      = Some (refs_from (length (heap s) + 1) (keys r))
    ∧ ∀ j sec ds', r !! j = Some (sec, ds') →
        heap s' !! (length (heap s) + 1 + j)
        = Some (if String.eqb sec "all"
                then dict_set "root" (VAtom (APath root)) ds'
                else ds').
Proof.
  intros Hc Hnd Hsecs Hall Ha Hroot Hr.
  pose proof (check_config_run s c d secs a da Hc Hnd Hsecs Hall Ha) as Hrun.
  rewrite Hroot, Hr in Hrun. destruct Hrun as (i & dall & Hki & Hri & Hrun).
  eexists. split; [exact Hrun|]. cbn [heap stderr].
  assert (Hndr : NoDup (keys r)).
  { by rewrite (validate_all_keys _ _ _ Hr), (sections_of_keys _ _ _ Hsecs). }
  split; [done|]. split.
  { rewrite length_insert, length_app. cbn. rewrite length_fmap. lia. }
  split.
  { intros l Hlt. rewrite list_lookup_insert_ne by lia.
    by rewrite lookup_app_l. }
  split.
  { rewrite list_lookup_insert_ne by lia. by apply list_lookup_middle. }
  intros j sec ds' Hj.
  assert (Hlen : j < length r) by (by eapply lookup_lt_Some).
  assert (Hbase : (heap s ++ refs_from (length (heap s) + 1) (keys r)
                   :: (snd <$> r)) !! (length (heap s) + 1 + j) = Some ds').
  { rewrite <- Nat.add_assoc, lookup_app_r by lia.
    replace (length (heap s) + (1 + j) - length (heap s)) with (S j) by lia.
    change ((snd <$> r) !! j = Some ds'). by rewrite list_lookup_fmap, Hj. }
  destruct (decide (j = i)) as [->|Hne].
  - rewrite Hri in Hj. injection Hj as <- <-.
    rewrite list_lookup_insert_eq; [done|]. by eapply lookup_lt_Some.
  - rewrite list_lookup_insert_ne by lia. rewrite Hbase.
    destruct (String.eqb_spec sec "all") as [->|]; [|done].
    exfalso. apply Hne. eapply NoDup_lookup; [exact Hndr| |exact Hki].
    unfold keys. by rewrite list_lookup_fmap, Hj.
Qed.

End CheckResult.

(** ** Output directories *)

Section SubdirFacts.
Context `{Env}.
Variable number_truediv : atom → atom → result atom.

Lemma output_subdir_run s c d a da sec l ds out suffix :
  heap s !! c = Some d →
  dict_get "all" d = Some (VRef a) → heap s !! a = Some da →
  dict_get "output_fp" da = Some out →
  dict_get sec d = Some (VRef l) → heap s !! l = Some ds →
  dict_get "suffix" ds = Some suffix →
  output_subdir number_truediv (VRef c) sec s
  = match truediv number_truediv out suffix with
    | Ok v => Ok (v, s)
    | Err e => Err e
    end.
Proof.
  intros Hc Hall Ha Hout Hsec Hl Hsuf. unfold output_subdir.
  rewrite bind_unfold, (getitem_run _ _ _ _ Hc), Hall.
  rewrite bind_unfold, (getitem_run _ _ _ _ Ha), Hout.
  rewrite bind_unfold, (getitem_run _ _ _ _ Hc), Hsec.
  rewrite bind_unfold, (getitem_run _ _ _ _ Hl), Hsuf.
  done.
Qed.

Lemma truediv_path p v q :
  Path_of v = Ok q →
  truediv number_truediv (VAtom (APath p)) v = Ok (VAtom (APath (joinpath p q))).
Proof. destruct v as [[]| |]; intros [= <-]; done. Qed.

End SubdirFacts.

(** X1: on the tree [check_config] returns, [output_subdir] gives the
    output directory of the configuration, home-expanded and put under
    the root, joined with the suffix of the section, and changes
    nothing. *)
Theorem output_subdir_of_checked `{Env}
    (number_truediv : atom → atom → result atom)
    (s : state) (c a l : loc) (d da ds : dict) (sec : string)
    (out suffix : value) (p q : Path) (r : value) (s' : state) :
  heap s !! c = Some d →
  config_tree (heap s) d →
  dict_get "all" d = Some (VRef a) → heap s !! a = Some da →
  dict_get "output_fp" da = Some out → Path_of out = Ok p →
  dict_get sec d = Some (VRef l) → heap s !! l = Some ds →
  dict_get "suffix" ds = Some suffix → Path_of suffix = Ok q →
  check_config (VRef c) s = Ok (r, s') →
  ∃ root,
    match dict_get "root" da with
    | Some v => verify v
    | None => Ok (Path_of_str getcwd)
    end = Ok root
    ∧ output_subdir number_truediv r sec s'
      = Ok (VAtom (APath (joinpath (under_root root (expanduser p)) q)), s').
Proof.
  intros Hc [Hnd Htree] Hall Ha Hout Hp Hsec Hl Hsuf Hq Hrun.
  destruct (sections_of_exists _ _ Htree) as [secs Hsecs].
  pose proof (check_config_run s c d secs a da Hc Hnd Hsecs Hall Ha) as Hcr.
  destruct (match dict_get "root" da with Some v => verify v | None => _ end)
    as [root|x] eqn:Hroot; [|congruence].
  exists root. split; [done|].
  destruct (validate_all root secs) as [rs|x] eqn:Hrs; [|congruence]. clear Hcr.
  destruct (check_config_result s c d secs a da root rs Hc Hnd Hsecs Hall Ha
              Hroot Hrs) as (s1 & Hrun1 & _ & _ & _ & Hnew & Hsl).
  rewrite Hrun1 in Hrun. injection Hrun as <- <-.
  assert (Hndr : NoDup (keys rs)).
  { by rewrite (validate_all_keys _ _ _ Hrs), (sections_of_keys _ _ _ Hsecs). }
  (* where the sections went *)
  assert (Hsect : ∀ sec0 l0 ds0,
    dict_get sec0 d = Some (VRef l0) → heap s !! l0 = Some ds0 →
    ∃ j ds', keys rs !! j = Some sec0 ∧ rs !! j = Some (sec0, ds')
             ∧ validate_items root ds0 = Ok ds').
  { intros sec0 l0 ds0 Hg Hl0.
    destruct (dict_get_lookup _ _ _ Hg) as (j & Hj & _).
    destruct (sections_of_lookup _ _ _ _ _ _ Hsecs Hj)
      as (l1 & ds1 & [= <-] & Hl1 & _ & Hsj).
    rewrite Hl0 in Hl1. injection Hl1 as <-.
    destruct (validate_all_lookup _ _ _ _ _ _ Hrs Hsj) as (ds' & Hrj & Hv).
    exists j, ds'. split; [|done]. unfold keys. by rewrite list_lookup_fmap, Hrj. }
  destruct (Hsect _ _ _ Hall Ha) as (i & dall & Hki & Hri & Hvall).
  destruct (Hsect _ _ _ Hsec Hl) as (j & ds' & Hkj & Hrj & Hvds).
  destruct (map_items_get _ _ _ _ _ Hvall Hout) as (out' & Hvo & Hout').
  destruct (map_items_get _ _ _ _ _ Hvds Hsuf) as (suf' & Hvs & Hsuf').
  rewrite validate_value_fp in Hvo by reflexivity. rewrite Hp in Hvo.
  destruct (expands p); [|done]. cbn in Hvo. injection Hvo as <-.
  rewrite validate_value_other in Hvs by reflexivity. injection Hvs as <-.
  erewrite (output_subdir_run number_truediv s1 _ _ _ _ sec);
    [ | exact Hnew
      | exact (dict_get_refs_from _ _ _ _ Hndr Hki)
      | exact (Hsl _ _ _ Hri)
      | cbn; by rewrite dict_get_set_ne
      | exact (dict_get_refs_from _ _ _ _ Hndr Hkj)
      | exact (Hsl _ _ _ Hrj)
      | destruct (String.eqb sec "all"); [by rewrite dict_get_set_ne | done] ].
  by rewrite (truediv_path _ _ _ _ Hq).
Qed.

(** X2: on a configuration as it is loaded, where the output directory
    and the suffix are both strings, [output_subdir] raises [TypeError]:
    strings do not divide.  A missing [output_fp], section or [suffix]
    raises [KeyError] with that key, in the order the keys are read. *)
Theorem output_subdir_raw_config `{Env}
    (number_truediv : atom → atom → result atom)
    (s : state) (c a : loc) (d da : dict) (sec : string) :
  heap s !! c = Some d →
  dict_get "all" d = Some (VRef a) →
  heap s !! a = Some da →
  (dict_get "output_fp" da = None →
   output_subdir number_truediv (VRef c) sec s = Err (KeyError "output_fp"))
  ∧ (dict_has "output_fp" da = true → dict_get sec d = None →
     output_subdir number_truediv (VRef c) sec s = Err (KeyError sec))
  ∧ (∀ l ds,
       dict_has "output_fp" da = true →
       dict_get sec d = Some (VRef l) → heap s !! l = Some ds →
       dict_get "suffix" ds = None →
       output_subdir number_truediv (VRef c) sec s = Err (KeyError "suffix"))
  ∧ (∀ l ds o x,
       dict_get "output_fp" da = Some (VAtom (AStr o)) →
       dict_get sec d = Some (VRef l) → heap s !! l = Some ds →
       dict_get "suffix" ds = Some (VAtom (AStr x)) →
       output_subdir number_truediv (VRef c) sec s = Err TypeError).
Proof.
  intros Hc Hall Ha. unfold output_subdir, dict_has.
  rewrite bind_unfold, (getitem_run _ _ _ _ Hc), Hall.
  rewrite bind_unfold, (getitem_run _ _ _ _ Ha).
  split; [by intros ->|].
  destruct (dict_get "output_fp" da) as [out|];
    [|split; [done|split; [done|by intros]]].
  rewrite bind_unfold, (getitem_run _ _ _ _ Hc).
  split; [by intros _ ->|]. split.
  - intros l ds _ -> Hl Hsuf.
    by rewrite bind_unfold, (getitem_run _ _ _ _ Hl), Hsuf.
  - intros l ds o x [= ->] -> Hl Hsuf.
    by rewrite bind_unfold, (getitem_run _ _ _ _ Hl), Hsuf.
Qed.

(** X3: without an [all] section, [check_config], [check_compatibility]
    and [output_subdir] all raise [KeyError('all')], whatever else the
    configuration holds. *)
Theorem no_all_section `{Env} (number_truediv : atom → atom → result atom)
    (s : state) (c : loc) (d : dict) (sec : string) :
  heap s !! c = Some d →
  dict_get "all" d = None →
  check_config (VRef c) s = Err (KeyError "all")
  ∧ check_compatibility (VRef c) s = Err (KeyError "all")
  ∧ output_subdir number_truediv (VRef c) sec s = Err (KeyError "all").
Proof.
  intros Hc Hall. unfold check_config, check_compatibility, output_subdir.
  by rewrite !bind_unfold, (getitem_run _ _ _ _ Hc), Hall.
Qed.

(** ** Loops, piece by piece *)

Lemma for_each_app {A} (body : A → M unit) l1 l2 s :
  for_each body (l1 ++ l2) s
  = match for_each body l1 s with
    | Ok (_, s1) => for_each body l2 s1
    | Err e => Err e
    end.
Proof.
  revert s. induction l1 as [|x l1 IH]; intros s; [done|].
  cbn [app]. rewrite !for_each_cons, !bind_unfold.
  destruct (body x s) as [[[] s1]|]; [apply IH | done].
Qed.

Lemma map_items_first_error f pre k v post e :
  (∀ k0 v0, (k0, v0) ∈ pre → succeeds (f k0 v0)) →
  f k v = Err e →
  map_items f (pre ++ (k, v) :: post) = Err e.
Proof.
  intros Hpre Hf. induction pre as [|[k0 v0] pre IH]; cbn.
  - by rewrite result_bind_unfold, Hf.
  - rewrite result_bind_unfold. destruct (Hpre k0 v0) as [v0' ->]; [left|].
    rewrite result_bind_unfold, IH; [done|].
    intros k1 v1 Hin. apply Hpre. by right.
Qed.

Lemma map_items_ext f g d :
  (∀ k v, (k, v) ∈ d → f k v = g k v) → map_items f d = map_items g d.
Proof.
  induction d as [|[k v] d IH]; intros Hext; cbn; [done|].
  rewrite Hext by left. rewrite IH; [done|].
  intros k0 v0 Hin. apply Hext. by right.
Qed.

(** ** Sections that do not validate *)

Section ValidateErrors.
Context `{Env}.

Lemma validate_paths_not_mapping v root s :
  is_ref v = false → validate_paths v root s = Err AttributeError.
Proof. intros Hv. unfold validate_paths. rewrite !bind_unfold. by destruct v. Qed.

Lemma check_config_unfold s c d a da root :
  heap s !! c = Some d →
  dict_get "all" d = Some (VRef a) →
  heap s !! a = Some da →
  match dict_get "root" da with
  | Some v => verify v
  | None => Ok (Path_of_str getcwd)
  end = Ok root →
  check_config (VRef c) s
  = (for_each (λ '(section, values),
       r ← validate_paths values root;
       setitem (VRef (length (heap s))) section r) d ;;
     new_all ← getitem (VRef (length (heap s))) "all";
     setitem new_all "root" (VAtom (APath root)) ;;
     mret (VRef (length (heap s))))
    (MkState (heap s ++ [[]]) (stderr s)).
Proof.
  intros Hc Hall Ha Hroot. unfold check_config.
  rewrite bind_unfold, (getitem_run _ _ _ _ Hc), Hall.
  rewrite bind_unfold, (contains_run _ _ _ _ Ha).
  rewrite bind_unfold. unfold dict_has.
  destruct (dict_get "root" da) as [v|] eqn:E.
  - rewrite bind_unfold, (getitem_run _ _ _ _ Ha), E. unfold lift.
    rewrite Hroot. by rewrite bind_unfold, (items_run _ _ _ Hc).
  - injection Hroot as <-. cbn [mret M_ret].
    by rewrite bind_unfold, (items_run _ _ _ Hc).
Qed.

End ValidateErrors.

(** X4: the first entry of a section whose value does not validate
    decides how [validate_paths] fails; an [_fp] key that holds neither
    a string nor a path ([None], a number, a list, a mapping) raises
    [TypeError], [output_fp] included. *)
Theorem validate_paths_first_error `{Env} (s : state) (l : loc)
    (pre post : dict) (k : string) (v : value) (root : Path) :
  heap s !! l = Some (pre ++ (k, v) :: post) →
  NoDup (keys (pre ++ (k, v) :: post)) →
  (∀ k0 v0, (k0, v0) ∈ pre → succeeds (validate_value root k0 v0)) →
  (∀ e, validate_value root k v = Err e →
        validate_paths (VRef l) root s = Err e)
  ∧ (ends_with "_fp" k = true → pathlike v = false →
     validate_paths (VRef l) root s = Err TypeError).
Proof.
  intros Hl Hnd Hpre.
  assert (Hfirst : ∀ e, validate_value root k v = Err e →
                        validate_paths (VRef l) root s = Err e).
  { intros e He. rewrite (validate_paths_run root l s _ Hl Hnd).
    unfold validate_items. by rewrite (map_items_first_error _ _ _ _ _ e Hpre He). }
  split; [done|]. intros Hk Hv. apply Hfirst.
  rewrite validate_value_fp by done. by destruct v as [[]| |].
Qed.

(** X5: a path that is absolute once home-expanded does not depend on
    the root: when every [_fp] value of a section is such a path,
    [validate_paths] does the same with any two roots. *)
Theorem validate_paths_absolute `{Env} (s : state) (l : loc) (S : dict)
    (root root' : Path) :
  heap s !! l = Some S →
  NoDup (keys S) →
  (∀ k v, (k, v) ∈ S → ends_with "_fp" k = true →
     ∃ p, Path_of v = Ok p ∧ is_absolute (expanduser p) = true) →
  validate_paths (VRef l) root s = validate_paths (VRef l) root' s.
Proof.
  intros Hl Hnd Habs.
  rewrite !(validate_paths_run _ l s S Hl Hnd). unfold validate_items.
  rewrite (map_items_ext (validate_value root) (validate_value root')); [done|].
  intros k v Hin. destruct (ends_with "_fp" k) eqn:Hk.
  - destruct (Habs k v Hin Hk) as (p & Hp & Hp').
    rewrite !validate_value_fp by done. rewrite Hp. unfold under_root.
    destruct (expands p); [|done]. by rewrite Hp'.
  - by rewrite !validate_value_other.
Qed.

(** X6: a section that holds no mapping ([None] for a section left
    empty, a scalar, a list) makes [check_config] raise
    [AttributeError], once the root and the sections before it have
    validated. *)
Theorem check_config_section_not_mapping `{Env} (s : state) (c a : loc)
    (pre post da : dict) (sec : string) (v : value) (root : Path) :
  heap s !! c = Some (pre ++ (sec, v) :: post) →
  NoDup (keys (pre ++ (sec, v) :: post)) →
  dict_get "all" (pre ++ (sec, v) :: post) = Some (VRef a) →
  heap s !! a = Some da →
  match dict_get "root" da with
  | Some v => verify v
  | None => Ok (Path_of_str getcwd)
  end = Ok root →
  (∀ sec0 v0, (sec0, v0) ∈ pre →
     ∃ l ds, v0 = VRef l ∧ heap s !! l = Some ds ∧ NoDup (keys ds)
             ∧ succeeds (validate_items root ds)) →
  is_ref v = false →
  check_config (VRef c) s = Err AttributeError.
Proof.
  intros Hc Hnd Hall Ha Hroot Hpre Hv.
  rewrite (check_config_unfold s c _ a da root Hc Hall Ha Hroot).
  rewrite bind_unfold, for_each_app.
  destruct (sections_of_exists (heap s) pre) as [secs Hsecs].
  { intros sec0 v0 Hin. destruct (Hpre sec0 v0 Hin) as (l & ds & ? & ? & ? & _).
    eauto. }
  pose proof (check_loop_run root (heap s) (stderr s) [] [] pre secs Hsecs)
    as Hloop.
  cbn [app keys fmap list_fmap] in Hloop. rewrite Hloop; clear Hloop.
  2:{ unfold keys in Hnd. rewrite fmap_app in Hnd.
      by apply NoDup_app in Hnd as (? & _). }
  destruct (proj1 (validate_all_total root secs)) as [r ->].
  { intros sec0 ds0 Hin.
    apply list_elem_of_lookup in Hin as [j Hj].
    destruct (Forall2_lookup_r _ _ _ _ _ Hsecs Hj)
      as ([sec1 v1] & Hj1 & <- & l & -> & Hl & _).
    destruct (Hpre sec1 (VRef l)) as (l' & ds' & [= <-] & Hl' & _ & Hok).
    { by eapply list_elem_of_lookup_2. }
    congruence. }
  rewrite for_each_cons, !bind_unfold.
  by rewrite validate_paths_not_mapping.
Qed.

(** X7: a configuration version that is an ASCII string but no strict
    semantic version ([MAJOR.MINOR.PATCH], as ["3.2"] is not; one final
    newline is let through) makes [check_compatibility] raise the
    [ValueError] of [Version], before the package version is looked at;
    with the version absent or well formed, it returns the two majors when
    the package version parses, and raises the [ValueError] of [Version]
    when the package version is an ASCII string that does not. *)
Theorem check_compatibility_invalid_version `{Env} (s : state) (c a : loc)
    (d da : dict) :
  heap s !! c = Some d →
  dict_get "all" d = Some (VRef a) →
  heap s !! a = Some da →
  (∀ v, dict_get "version" da = Some (VAtom (AStr v)) →
     SemVer.ascii_only v = true →
     SemVer.parse v = None →
     check_compatibility (VRef c) s
     = Err (ValueError (version_error (VAtom (AStr v)))))
  ∧ (∀ v cv, dict_get "version" da = Some (VAtom (AStr v)) ∨
             (dict_get "version" da = None ∧ v = "0.0.0") →
     SemVer.parse v = Some cv →
     match SemVer.parse __version__ with
     | Some pkg => check_compatibility (VRef c) s
                   = Ok ((SemVer.major pkg, SemVer.major cv), s)
     | None => SemVer.ascii_only __version__ = true →
               check_compatibility (VRef c) s
               = Err (ValueError (version_error (VAtom (AStr __version__))))
     end).
Proof.
  intros Hc Hall Ha. unfold check_compatibility.
  rewrite bind_unfold, (getitem_run _ _ _ _ Hc), Hall.
  rewrite bind_unfold, (get_method_run _ _ _ _ _ Ha). split.
  - intros v -> _ Hv. rewrite bind_unfold. cbn. by rewrite Hv.
  - intros v cv Hver Hv.
    assert (match dict_get "version" da with
            | Some v => v
            | None => VAtom (AStr "0.0.0")
            end = VAtom (AStr v)) as ->.
    { by destruct Hver as [->|[-> ->]]. }
    rewrite bind_unfold, (Version_in_Ok _ cv); [|cbn; by rewrite Hv].
    rewrite bind_lift. cbn [Version].
    by destruct (SemVer.parse __version__).
Qed.
(** ** Database specifications that do not expand *)

Lemma insert_last {A} (h : list A) x y : <[length h := x]> (h ++ [y]) = h ++ [x].
Proof. rewrite <- (Nat.add_0_r (length h)). by rewrite insert_app_r. Qed.

Section DatabaseErrors.
Context `{Env}.

Lemma process_databases_unfold s c d :
  heap s !! c = Some d →
  process_databases (VRef c) s
  = match dict_get "root_fp" d with
    | None => Err (KeyError "root_fp")
    | Some r =>
        match (p ← makepath r; verify (VAtom (APath p))) with
        | Err e => Err e
        | Ok root =>
            (bn ← truthy (get_or_none "nucleotide" d);
             (if bn : bool
              then g ← expand_group root (get_or_none "nucleotide" d);
                   setitem (VRef (length (heap s) + 2)) "nucl" g
              else mret tt) ;;
             bp ← truthy (get_or_none "protein" d);
             (if bp : bool
              then g ← expand_group root (get_or_none "protein" d);
                   setitem (VRef (length (heap s) + 2)) "prot" g
              else mret tt) ;;
             mret (VRef (length (heap s) + 2))) (dbs_state s)
        end
    end.
Proof.
  intros Hc. unfold process_databases.
  rewrite bind_unfold. cbn [alloc heap stderr].
  rewrite bind_unfold. cbn [alloc heap stderr].
  rewrite bind_unfold. cbn [alloc heap stderr].
  rewrite <- !app_assoc, !length_app. cbn [app length].
  replace (length (heap s) + 1 + 1) with (length (heap s) + 2) by lia.
  fold (dbs_state s).
  assert (Hcst : heap (dbs_state s) !! c = Some d).
  { cbn. by apply lookup_app_l_Some. }
  rewrite bind_unfold, (getitem_run _ _ _ _ Hcst).
  destruct (dict_get "root_fp" d) as [r|]; [|done].
  rewrite bind_lift. destruct (_ ≫= _) as [root|e]; [|done].
  rewrite bind_unfold, (get_method_run _ _ _ _ _ Hcst).
  by rewrite bind_unfold, (get_method_run _ _ _ _ _ Hcst).
Qed.

Lemma truthy_falsy v st :
  falsy (heap st) v = true → truthy v st = Ok (false, st).
Proof.
  destruct v as [a|l|l]; cbn.
  - by intros ->%negb_true_iff.
  - by destruct l.
  - rewrite bind_unfold. unfold deref.
    destruct (heap st !! l) as [[|]|]; done.
Qed.

Lemma truthy_not_mapping v st :
  is_ref v = false → falsy (heap st) v = false → truthy v st = Ok (true, st).
Proof.
  destruct v as [a|l|l]; cbn; [|by destruct l|done].
  by intros _ ->%negb_false_iff.
Qed.

Lemma expand_group_not_mapping root v st :
  is_ref v = false → expand_group root v st = Err AttributeError.
Proof. intros Hv. unfold expand_group. rewrite bind_unfold. by destruct v. Qed.

Lemma falsy_dbs_state s v :
  falsy (heap s) v = true → falsy (heap (dbs_state s)) v = true.
Proof.
  destruct v as [a|l|l]; cbn; [done..|].
  destruct (heap s !! l) as [g|] eqn:E; [|done].
  by rewrite (lookup_app_l_Some _ _ _ _ E).
Qed.

Lemma falsy_dbs_state_scalar s v :
  is_ref v = false → falsy (heap (dbs_state s)) v = falsy (heap s) v.
Proof. by destruct v. Qed.

(** An entry that is no path stops the expansion of a group. *)
Lemma expand_group_first_error root l st pre post db v :
  heap st !! l = Some (pre ++ (db, v) :: post) →
  Forall (λ kv, pathlike kv.2 = true) pre →
  pathlike v = false →
  expand_group root (VRef l) st = Err TypeError.
Proof.
  intros Hl Hpre Hv. unfold expand_group.
  rewrite bind_unfold, (items_run _ _ _ Hl).
  rewrite bind_unfold. cbn [alloc]. rewrite bind_unfold, for_each_app.
  assert (Hrun : ∀ s0, ∃ s1,
    for_each (λ '(db, path),
      p ← lift (Path_of path);
      setitem (VRef (length (heap st))) db
        (VAtom (AStr (path_str (joinpath root p))))) pre
      (MkState (heap st ++ [s0]) (stderr st))
    = Ok (tt, MkState (heap st ++ [s1]) (stderr st))).
  { clear Hl. induction Hpre as [|[k x] pre Hx _ IH]; intros s0; [by eexists|].
    rewrite for_each_cons, bind_unfold, bind_lift.
    destruct x as [[]| |]; try done; cbn [Path_of];
      (erewrite setitem_run; [|cbn; by apply list_lookup_middle]);
      cbn [heap stderr]; rewrite insert_last; apply IH. }
  destruct (Hrun []) as [s1 ->].
  rewrite for_each_cons, bind_unfold, bind_lift.
  by destruct v as [[]| |].
Qed.

End DatabaseErrors.

(** X8: [process_databases] raises [KeyError('root_fp')] on a
    specification without that key and [TypeError] when the key holds
    neither a string nor a path, whatever the groups are. *)
Theorem process_databases_root_required `{Env} (s : state) (c : loc) (d : dict) :
  heap s !! c = Some d →
  (dict_get "root_fp" d = None →
   process_databases (VRef c) s = Err (KeyError "root_fp"))
  ∧ (∀ v, dict_get "root_fp" d = Some v → pathlike v = false →
     process_databases (VRef c) s = Err TypeError).
Proof.
  intros Hc. rewrite (process_databases_unfold s c d Hc). split.
  - by intros ->.
  - intros v -> Hv. unfold makepath. rewrite !result_bind_unfold.
    by destruct v as [[]| |].
Qed.

(** X9: with a root that home-expands and exists, a group that Python
    takes as false ([None] for a key left empty, an empty mapping)
    counts as absent: when both groups are absent or false, the result
    holds two empty mappings and nothing else is changed. *)
Theorem process_databases_false_groups `{Env} (s : state) (c : loc)
    (d : dict) (v : value) (p : Path) :
  heap s !! c = Some d →
  dict_get "root_fp" d = Some v →
  Path_of v = Ok p →
  expands p = true →
  path_exists (expanduser p) = true →
  falsy (heap s) (get_or_none "nucleotide" d) = true →
  falsy (heap s) (get_or_none "protein" d) = true →
  process_databases (VRef c) s
  = Ok (VRef (length (heap s) + 2),
        MkState (heap s ++ [[]; [];
                   [("nucl", VRef (length (heap s)));
                    ("prot", VRef (length (heap s) + 1))]]) (stderr s)).
Proof.
  intros Hc Hroot Hp Hhome Hex Hn Hpr.
  rewrite (process_databases_unfold s c d Hc), Hroot.
  unfold makepath, verify. rewrite !result_bind_unfold, Hp, Hhome.
  cbn [Path_of mret result_ret]. rewrite result_bind_unfold, Hex.
  rewrite bind_unfold, (truthy_falsy _ _ (falsy_dbs_state _ _ Hn)).
  rewrite bind_unfold. cbn [mret M_ret].
  by rewrite bind_unfold, (truthy_falsy _ _ (falsy_dbs_state _ _ Hpr)).
Qed.

(** X10: with a root that home-expands and exists, a group that is not
    false and is no mapping (a string, a list of paths) makes
    [process_databases] raise [AttributeError], and a mapping one of
    whose entries is neither a string nor a path makes it raise
    [TypeError]; for the protein group this holds once the nucleotide
    group is absent or false. *)
Theorem process_databases_bad_group `{Env} (s : state) (c : loc)
    (d : dict) (v : value) (p : Path) (g : string) :
  heap s !! c = Some d →
  dict_get "root_fp" d = Some v →
  Path_of v = Ok p →
  expands p = true →
  path_exists (expanduser p) = true →
  g = "nucleotide"
  ∨ (g = "protein" ∧ falsy (heap s) (get_or_none "nucleotide" d) = true) →
  (is_ref (get_or_none g d) = false →
   falsy (heap s) (get_or_none g d) = false →
   process_databases (VRef c) s = Err AttributeError)
  ∧ (∀ l pre post db x,
       get_or_none g d = VRef l →
       heap s !! l = Some (pre ++ (db, x) :: post) →
       Forall (λ kv, pathlike kv.2 = true) pre →
       pathlike x = false →
       process_databases (VRef c) s = Err TypeError).
Proof.
  intros Hc Hroot Hp Hhome Hex Hg.
  rewrite (process_databases_unfold s c d Hc), Hroot.
  unfold makepath, verify. rewrite !result_bind_unfold, Hp, Hhome.
  cbn [Path_of mret result_ret]. rewrite result_bind_unfold, Hex.
  assert (Hbad : ∀ x e st,
    truthy x st = Ok (true, st) → expand_group (resolve (expanduser p)) x st = Err e →
    ∀ key (k : M value), (bn ← truthy x;
         (if bn : bool
          then g ← expand_group (resolve (expanduser p)) x;
               setitem (VRef (length (heap s) + 2)) key g
          else mret tt) ;; k) st = Err e).
  { intros x e st Ht He key k. by rewrite bind_unfold, Ht, !bind_unfold, He. }
  assert (Hmap : ∀ l pre post db x,
    heap s !! l = Some (pre ++ (db, x) :: post) →
    truthy (VRef l) (dbs_state s) = Ok (true, dbs_state s)).
  { intros l pre post db x Hl. cbn [truthy]. rewrite bind_unfold.
    erewrite deref_run; [|cbn; by apply lookup_app_l_Some]. by destruct pre. }
  destruct Hg as [->|[-> Hn]].
  - split.
    + intros Href Hf. apply Hbad.
      * apply truthy_not_mapping; [done|]. by rewrite falsy_dbs_state_scalar.
      * by apply expand_group_not_mapping.
    + intros l pre post db x -> Hl Hpre Hx. apply Hbad.
      * by eapply Hmap.
      * eapply expand_group_first_error; [|done..].
        cbn. by apply lookup_app_l_Some.
  - rewrite bind_unfold, (truthy_falsy _ _ (falsy_dbs_state _ _ Hn)).
    rewrite bind_unfold. cbn [mret M_ret]. split.
    + intros Href Hf.
      rewrite bind_unfold, truthy_not_mapping, !bind_unfold;
        [|done|by rewrite falsy_dbs_state_scalar].
      by rewrite expand_group_not_mapping.
    + intros l pre post db x -> Hl Hpre Hx.
      rewrite bind_unfold, (Hmap _ _ _ _ _ Hl), !bind_unfold.
      erewrite expand_group_first_error; [done| |done..].
      cbn. by apply lookup_app_l_Some.
Qed.
(** ** Extensions that cannot be read *)

Section ExtensionErrors.
Context `{Env}.

Lemma extension_loop_app sunbeam_dir config l1 l2 :
  extension_loop sunbeam_dir config (l1 ++ l2)
  = match extension_loop sunbeam_dir config l1 with
    | Ok config' => extension_loop sunbeam_dir config' l2
    | Err e => Err e
    end.
Proof.
  revert config. induction l1 as [|sbx l1 IH]; intros config; [done|].
  cbn [app extension_loop]. rewrite !result_bind_unfold.
  destruct (extension_step sunbeam_dir config sbx); [apply IH | done].
Qed.

End ExtensionErrors.

(** X11: [extension_config] lets through every failure but
    [NotADirectoryError]: when the extensions directory cannot be
    listed, when an entry cannot be listed for another reason, or when a
    [config.yml] cannot be read, it raises that error and what the
    entries before had contributed is lost. *)
Theorem extension_config_errors `{Env} :
  (∀ e, listdir extensions_dir = Err e → extension_config = Err e)
  ∧ (∀ pre sbx post e,
       listdir extensions_dir = Ok (pre ++ sbx :: post) →
       (∀ x, x ∈ pre → readable_entry x) →
       (listdir (join_str extensions_dir sbx) = Err e
        ∧ e ≠ NotADirectoryError)
       ∨ (∃ files, listdir (join_str extensions_dir sbx) = Ok files
            ∧ "config.yml" ∈ files
            ∧ read_text (join_str (join_str extensions_dir sbx) "config.yml")
              = Err e) →
       extension_config = Err e).
Proof.
  split.
  - intros e He. unfold extension_config. fold extensions_dir. by rewrite He.
  - intros pre sbx post e Hls Hpre Hbad.
    unfold extension_config. fold extensions_dir.
    rewrite Hls, result_bind_unfold, extension_loop_app.
    rewrite extension_loop_run by done.
    cbn [extension_loop]. rewrite result_bind_unfold.
    unfold extension_step. fold extensions_dir.
    destruct Hbad as [[-> Hne]|(files & -> & Hin & Hread)].
    + by destruct e.
    + assert (existsb (String.eqb "config.yml") files = true) as ->.
      { apply existsb_exists. exists "config.yml".
        split; [by apply list_elem_of_In | apply String.eqb_refl]. }
      by rewrite result_bind_unfold, Hread.
Qed.

(** ** Records the filter cannot read *)

Section DecontamErrors.
Import Decontam DecontamSpec DecontamFacts.

Lemma get_mapped_reads_app pre post a b :
  Forall well_formed pre →
  get_mapped_reads (pre ++ post) a b
  = ((query_name <$> List.filter (selected a b) pre)
       ++ (get_mapped_reads post a b).1,
     (get_mapped_reads post a b).2).
Proof.
  induction 1 as [|r pre Hr _ IH]; cbn [app].
  - by destruct (get_mapped_reads post a b).
  - cbn [get_mapped_reads List.filter].
    rewrite (keep_selected _ _ _ Hr), IH.
    by destruct (selected a b r).
Qed.

Lemma get_mapped_reads_raise r post a b e :
  keep r a b = Err e → get_mapped_reads (r :: post) a b = ([], Some e).
Proof. intros He. cbn [get_mapped_reads]. by rewrite He. Qed.

End DecontamErrors.

(** X12: a mapped record without CIGAR ends [get_mapped_reads] with
    [TypeError], and one whose aligned and clipped lengths add up to
    zero ends it with [ZeroDivisionError]; the names of the records
    selected before it have been yielded, those after it are never
    read. *)
Theorem get_mapped_reads_stops (pre post : list Decontam.read)
    (r : Decontam.read) (min_pct_id min_len_frac : float) :
  Forall DecontamSpec.well_formed pre →
  Decontam.is_unmapped r = false →
  (Decontam.cigartuples r = None →
   Decontam.get_mapped_reads (pre ++ r :: post) min_pct_id min_len_frac
   = (Decontam.query_name
        <$> List.filter (DecontamSpec.selected min_pct_id min_len_frac) pre,
      Some TypeError))
  ∧ (∀ cigar,
       Decontam.cigartuples r = Some cigar →
       DecontamSpec.finite (Decontam.query_alignment_length r) →
       DecontamSpec.finite
         (Decontam.query_alignment_length r + DecontamSpec.clipped cigar) →
       (Decontam.query_alignment_length r + DecontamSpec.clipped cigar = 0)%Z →
       Decontam.get_mapped_reads (pre ++ r :: post) min_pct_id min_len_frac
       = (Decontam.query_name
            <$> List.filter (DecontamSpec.selected min_pct_id min_len_frac) pre,
          Some ZeroDivisionError)).
Proof.
  intros Hpre Hu. rewrite (get_mapped_reads_app _ _ _ _ Hpre). split.
  - intros Hc. rewrite (get_mapped_reads_raise _ _ _ _ TypeError).
    + by rewrite app_nil_r.
    + unfold Decontam.keep, Decontam._get_frac. by rewrite Hu, Hc.
  - intros cigar Hc Hq Hqc Hz.
    rewrite (get_mapped_reads_raise _ _ _ _ ZeroDivisionError).
    + by rewrite app_nil_r.
    + unfold Decontam.keep, Decontam._get_frac, Decontam.true_div.
      rewrite Hu, Hc. cbn [negb].
      rewrite DecontamFacts.clip_loop_spec, Z.add_0_l.
      rewrite !result_bind_unfold, (DecontamFacts.float_of_int_finite _ Hq).
      rewrite !result_bind_unfold, (DecontamFacts.float_of_int_finite _ Hqc).
      by rewrite Hz.
Qed.

(** X13: the tests are made in order and stop at the first that fails:
    a stream whose records are all unmapped, or mapped with an aligned
    fraction not above [min_len_frac], yields nothing and raises
    nothing, whether or not the records have a reference span or an
    edit distance. *)
Theorem get_mapped_reads_short_circuit (sam : list Decontam.read)
    (min_pct_id min_len_frac : float) :
  Forall (λ r,
    Decontam.is_unmapped r = true
    ∨ ∃ cigar,
        Decontam.cigartuples r = Some cigar
        ∧ DecontamSpec.finite (Decontam.query_alignment_length r)
        ∧ DecontamSpec.finite
            (Decontam.query_alignment_length r + DecontamSpec.clipped cigar)
        ∧ (Decontam.query_alignment_length r + DecontamSpec.clipped cigar ≠ 0)%Z
        ∧ Decontam.gt (DecontamSpec.aligned_fraction r) min_len_frac = false)
    sam →
  Decontam.get_mapped_reads sam min_pct_id min_len_frac = ([], None).
Proof.
  induction 1 as [|r sam Hr _ IH]; [done|].
  cbn [Decontam.get_mapped_reads]. rewrite IH.
  assert (Decontam.keep r min_pct_id min_len_frac = Ok false) as ->; [|done].
  unfold Decontam.keep.
  destruct Hr as [->|(cigar & Hc & Hq & Hqc & Hnz & Hgt)]; [done|].
  destruct (Decontam.is_unmapped r); [done|]. cbn [negb].
  assert (Decontam._get_frac r = Ok (DecontamSpec.aligned_fraction r)) as ->.
  { unfold Decontam._get_frac, DecontamSpec.aligned_fraction,
      DecontamSpec.cigar_of, Decontam.true_div. rewrite Hc.
    rewrite DecontamFacts.clip_loop_spec, Z.add_0_l.
    rewrite !result_bind_unfold, (DecontamFacts.float_of_int_finite _ Hq).
    rewrite (DecontamFacts.float_of_int_finite _ Hqc).
    by destruct (Z.eqb_spec
      (Decontam.query_alignment_length r + DecontamSpec.clipped cigar) 0). }
  by rewrite result_bind_unfold, Hgt.
Qed.

(** ** Thresholds *)

Lemma SFleb_ltb_trans x y z :
  SFleb x y = true → SFltb y z = true → SFltb x z = true.
Proof.
  unfold SFleb, SFltb.
  destruct x as [sx|sx| |sx mx ex], y as [sy|sy| |sy my ey],
    z as [sz|sz| |sz mz ez]; cbn; try done;
    repeat match goal with s : bool |- _ => destruct s end; cbn; try done;
    rewrite ?Pos.compare_cont_spec; cbn;
    destruct (Z.compare_spec ex ey), (Z.compare_spec ey ez),
      (Z.compare_spec ex ez); try done; try lia; cbn;
    destruct (Pos.compare_spec mx my), (Pos.compare_spec my mz),
      (Pos.compare_spec mx mz); cbn; try done; try lia.
Qed.

Lemma gt_leb_trans (f a a' : float) :
  PrimFloat.leb a' a = true → Decontam.gt f a = true → Decontam.gt f a' = true.
Proof.
  unfold Decontam.gt.
  rewrite FloatAxioms.leb_spec, !FloatAxioms.ltb_spec. apply SFleb_ltb_trans.
Qed.

Lemma filter_sublist {A B} (f : A → B) (P Q : A → bool) l :
  (∀ x, P x = true → Q x = true) →
  sublist (f <$> List.filter P l) (f <$> List.filter Q l).
Proof.
  intros HPQ. induction l as [|x l IH]; cbn; [constructor|].
  destruct (P x) eqn:HP.
  - rewrite (HPQ x HP). cbn. by constructor.
  - destruct (Q x); cbn; [by constructor | done].
Qed.

(** X14: lowering a threshold never loses a read: on a stream whose
    mapped records are well formed, the names yielded with thresholds
    [min_pct_id] and [min_len_frac] are, in order, among those yielded
    with thresholds that are not above them. *)
Theorem get_mapped_reads_monotone (sam : list Decontam.read)
    (min_pct_id min_len_frac min_pct_id' min_len_frac' : float) :
  Forall DecontamSpec.well_formed sam →
  PrimFloat.leb min_pct_id' min_pct_id = true →
  PrimFloat.leb min_len_frac' min_len_frac = true →
  sublist (Decontam.get_mapped_reads sam min_pct_id min_len_frac).1
          (Decontam.get_mapped_reads sam min_pct_id' min_len_frac').1.
Proof.
  intros Hwf Hp Hf.
  rewrite <- (app_nil_r sam), !(get_mapped_reads_app _ _ _ _ Hwf).
  cbn [fst Decontam.get_mapped_reads]. rewrite !app_nil_r.
  apply filter_sublist. intros r. unfold DecontamSpec.selected.
  rewrite !andb_true_iff. intros [[Hu Hfrac] Hpct].
  split; [split; [done|]|]; by eapply gt_leb_trans.
Qed.
(** ** The lenient merge on trees *)

Lemma repr_bound_both h :
  (∀ t v F, repr h t v F → ∀ l, l ∈ F → l < length h)
  ∧ (∀ T d F, repr_items h T d F → ∀ l, l ∈ F → l < length h).
Proof.
  apply (repr_mutind h
    (λ t v F _, ∀ l, l ∈ F → l < length h)
    (λ T d F _, ∀ l, l ∈ F → l < length h)).
  - intros a l Hin. by apply elem_of_nil in Hin.
  - intros sq l Hin. by apply elem_of_nil in Hin.
  - intros T l d F Hl _ _ IH x [->|Hx]%elem_of_cons.
    + by eapply lookup_lt_Some.
    + by apply IH.
  - intros l Hin. by apply elem_of_nil in Hin.
  - intros k t v T d F1 F2 _ IH1 _ IH2 l [Hl|Hl]%elem_of_app; auto.
Qed.

Lemma repr_bound h t v F l : repr h t v F → l ∈ F → l < length h.
Proof. intros Hr. by apply (proj1 (repr_bound_both h) t v F). Qed.

Lemma repr_items_bound h T d F l : repr_items h T d F → l ∈ F → l < length h.
Proof. intros Hr. by apply (proj2 (repr_bound_both h) T d F). Qed.

Lemma repr_items_snoc h T d F k t v F1 :
  repr_items h T d F → repr h t v F1 →
  repr_items h (T ++ [(k, t)]) (d ++ [(k, v)]) (F ++ F1).
Proof.
  induction 1 as [|k0 t0 v0 T d Fa Fb Ht0 HT IH]; intros Hv; cbn.
  - rewrite <- (app_nil_r F1). by repeat constructor.
  - rewrite <- app_assoc. constructor; [done | by apply IH].
Qed.

(** The slot of a key, once more: the store below it may have grown. *)
Lemma repr_items_replace h T d F k c :
  repr_items h T d F → NoDup F → dict_get k d = Some c →
  ∃ tk Fk, dict_get k T = Some tk ∧ repr h tk c Fk ∧ Fk ⊆ F ∧ NoDup Fk ∧
    ∀ h' tk' c' Fk',
      repr h' tk' c' Fk' → NoDup Fk' →
      (∀ x, x ∈ Fk' → x ∈ Fk ∨ x ∉ F) →
      (∀ l, l ∈ F → l ∉ Fk → h' !! l = h !! l) →
      ∃ F', repr_items h' (dict_set k tk' T) (dict_set k c' d) F'
            ∧ NoDup F' ∧ (∀ x, x ∈ F' → x ∈ F ∨ x ∈ Fk').
Proof.
  induction 1 as [|k0 t0 v0 T d F1 F2 Ht0 HT IH]; intros Hnd Hk; [done|].
  apply NoDup_app in Hnd as (Hnd1 & Hdisj & Hnd2).
  cbn in Hk. cbn [dict_get dict_set].
  destruct (String.eqb_spec k k0) as [->|Hne].
  - injection Hk as <-. exists t0, F1. split; [done|]. split; [done|].
    split; [intros x Hx; apply elem_of_app; by left|]. split; [done|].
    intros h' tk' c' Fk' Hrep Hnd' Hnew Hfr. exists (Fk' ++ F2).
    split; [|split].
    + constructor; [done|]. eapply repr_items_frame; [exact HT|].
      intros l Hl. apply Hfr; [apply elem_of_app; by right|].
      intros Hl1. by eapply Hdisj.
    + apply NoDup_app. split; [done|]. split; [|done].
      intros x Hx Hx2. destruct (Hnew x Hx) as [Hx1|Hxn].
      * by eapply Hdisj.
      * apply Hxn. apply elem_of_app. by right.
    + intros x [Hx|Hx]%elem_of_app; [by right|].
      left. apply elem_of_app. by right.
  - destruct (IH Hnd2 Hk) as (tk & Fk & Hg & Hrep & Hsub & HndFk & Hupd).
    exists tk, Fk. split; [done|]. split; [done|].
    split; [intros x Hx; apply elem_of_app; right; by apply Hsub|].
    split; [done|].
    intros h' tk' c' Fk' Hrep' Hnd' Hnew Hfr.
    destruct (Hupd h' tk' c' Fk' Hrep' Hnd') as (F' & HF' & HndF' & HinF').
    { intros x Hx. destruct (Hnew x Hx) as [?|Hxn]; [by left|].
      right. intros Hx2. apply Hxn. apply elem_of_app. by right. }
    { intros l Hl Hnl. apply Hfr; [apply elem_of_app; by right | done]. }
    exists (F1 ++ F'). split; [|split].
    + constructor; [|done]. eapply repr_frame; [exact Ht0|].
      intros l Hl. apply Hfr; [apply elem_of_app; by left|].
      intros Hlk. eapply Hdisj; [exact Hl|]. by apply Hsub.
    + apply NoDup_app. split; [done|]. split; [|done].
      intros x Hx Hx'. destruct (HinF' x Hx') as [Hx2|Hxk].
      * by eapply Hdisj.
      * destruct (Hnew x Hxk) as [Hxk'|Hxn].
        -- eapply Hdisj; [exact Hx|]. by apply Hsub.
        -- apply Hxn. apply elem_of_app. by left.
    + intros x [Hx|Hx]%elem_of_app.
      * left. apply elem_of_app. by left.
      * destruct (HinF' x Hx) as [?|?]; [|by right].
        left. apply elem_of_app. by right.
Qed.

Lemma lenient_slot_None t : lenient_slot t None = t.
Proof. by destruct t. Qed.

Lemma lenient_slot_map T m :
  lenient_slot (PMap T) (Some (PMap m)) = PMap (merge_lenient T m).
Proof. reflexivity. Qed.

Lemma lenient_slot_leaf t v x :
  non_mapping v = Some x → lenient_slot t (Some v) = v.
Proof. destruct v; [by destruct t..|done]. Qed.

Lemma filter_all {A} (P : A → bool) l :
  (∀ x, x ∈ l → P x = true) → List.filter P l = l.
Proof.
  induction l as [|x l IH]; intros Hall; cbn; [done|].
  rewrite Hall by left. f_equal. apply IH. intros; apply Hall; by right.
Qed.

Lemma filter_fresh_ext {A B} (T T' : list (string * A)) (m : list (string * B)) :
  (∀ k, k ∈ keys m → dict_has k T = dict_has k T') →
  List.filter (λ kv, negb (dict_has kv.1 T)) m
  = List.filter (λ kv, negb (dict_has kv.1 T')) m.
Proof.
  induction m as [|[k v] m IH]; intros Hext; cbn; [done|].
  rewrite Hext by left. rewrite IH; [done|]. intros; apply Hext; by right.
Qed.

Lemma merge_lenient_empty m : merge_lenient [] m = m.
Proof. unfold merge_lenient. cbn. by apply filter_all. Qed.

Lemma merge_lenient_nil T : merge_lenient T [] = T.
Proof.
  unfold merge_lenient. cbn. rewrite app_nil_r.
  induction T as [|[k t] T IH]; cbn; [done|].
  by rewrite lenient_slot_None, IH.
Qed.

Lemma dict_has_set {A} k k' (x : A) d :
  dict_has k' (dict_set k x d) = (String.eqb k' k || dict_has k' d).
Proof.
  unfold dict_has. destruct (String.eqb_spec k' k) as [->|Hne].
  - by rewrite dict_get_set_eq.
  - by rewrite dict_get_set_ne.
Qed.

(** One round of the loop, on trees. *)
Lemma merge_lenient_cons T k v rest :
  NoDup (keys T) → k ∉ keys rest →
  merge_lenient
    (dict_set k (match dict_get k T with
                 | Some tk => lenient_slot tk (Some v)
                 | None => v
                 end) T) rest
  = merge_lenient T ((k, v) :: rest).
Proof.
  intros HndT Hk. unfold merge_lenient. cbn [List.filter fst].
  assert (Hrest : ∀ x, List.filter (λ kv, negb (dict_has kv.1 (dict_set k x T))) rest
                       = List.filter (λ kv, negb (dict_has kv.1 T)) rest).
  { intros x. apply filter_fresh_ext. intros k0 Hk0. rewrite dict_has_set.
    destruct (String.eqb_spec k0 k) as [->|]; [done|done]. }
  rewrite Hrest. clear Hrest.
  destruct (dict_get k T) as [tk|] eqn:Hg.
  - assert (Hhas : dict_has k T = true) by (unfold dict_has; by rewrite Hg).
    rewrite Hhas. cbn [negb]. f_equal.
    clear Hhas. induction T as [|[k0 t0] T IH]; [done|].
    apply NoDup_cons in HndT as [Hk0 HndT]. cbn in Hg |- *.
    destruct (String.eqb_spec k k0) as [->|Hne].
    + injection Hg as ->. cbn. rewrite String.eqb_refl.
      apply dict_get_keys in Hk. rewrite Hk, lenient_slot_None. f_equal.
      apply list_fmap_ext. intros _ [k1 t1] Hin%list_elem_of_lookup_2.
      destruct (String.eqb_spec k1 k0) as [->|]; [|done].
      exfalso. apply Hk0. by eapply elem_keys.
    + cbn. destruct (String.eqb_spec k0 k); [congruence|]. f_equal. by apply IH.
  - assert (Hhas : dict_has k T = false) by (unfold dict_has; by rewrite Hg).
    rewrite Hhas. cbn [negb].
    apply dict_get_keys in Hg. rewrite (dict_set_fresh _ _ _ Hg), fmap_app.
    cbn. apply dict_get_keys in Hk. rewrite Hk, lenient_slot_None.
    rewrite <- app_assoc. cbn. f_equal.
    apply list_fmap_ext. intros _ [k1 t1] Hin%list_elem_of_lookup_2.
    destruct (String.eqb_spec k1 k) as [->|]; [|done].
    exfalso. apply Hg. by eapply elem_keys.
Qed.

Lemma NoDup_keys_snoc {A} (d : list (string * A)) k x :
  NoDup (keys d) → k ∉ keys d → NoDup (keys (d ++ [(k, x)])).
Proof.
  intros Hnd Hk. unfold keys. rewrite fmap_app. cbn.
  apply NoDup_app. split; [done|]. split; [|apply NoDup_singleton].
  intros y Hy ->%list_elem_of_singleton. by apply Hk.
Qed.

Lemma elem_of_dict_set_ne {A} (d : list (string * A)) k x k0 x0 :
  (k0, x0) ∈ d → k0 ≠ k → (k0, x0) ∈ dict_set k x d.
Proof.
  induction d as [|[k1 x1] d IH]; cbn; intros Hin Hne.
  - by apply elem_of_nil in Hin.
  - apply elem_of_cons in Hin as [[= -> ->]|Hin].
    + destruct (String.eqb_spec k k1); [congruence | left].
    + destruct (String.eqb_spec k k1); right; [done | by apply IH].
Qed.

Lemma compatible_leaf t v x : non_mapping v = Some x → compatible t (Some v).
Proof. destruct v; [constructor..|done]. Qed.

Lemma compatible_uncons T k v rest x :
  NoDup (keys T) →
  (∀ tk, dict_get k T = Some tk → compatible tk (Some v)) →
  Forall (λ kt, compatible kt.2 (dict_get kt.1 rest)) (dict_set k x T) →
  Forall (λ kt, compatible kt.2 (dict_get kt.1 ((k, v) :: rest))) T.
Proof.
  intros HndT Hk Hall. apply Forall_forall. intros [k0 t0] Hin. cbn.
  destruct (String.eqb_spec k0 k) as [->|Hne].
  - apply Hk. by apply dict_get_NoDup.
  - rewrite Forall_forall in Hall.
    apply (Hall (k0, t0)). by apply elem_of_dict_set_ne.
Qed.

Lemma lenient_loop l rest :
  Forall (λ kv, lenient_spec_at kv.2) rest →
  NoDup (keys rest) →
  Forall (λ kv, distinct_keys kv.2) rest →
  ∀ Tc d Fc s,
    heap s !! l = Some d → NoDup (keys d) →
    repr_items (heap s) Tc d Fc → NoDup (l :: Fc) →
    match for_each (lenient_body (VRef l)) rest s with
    | Ok (_, s') =>
        Forall (λ kt, compatible kt.2 (dict_get kt.1 rest)) Tc
        ∧ stderr s' = stderr s
        ∧ (length (heap s) ≤ length (heap s'))%nat
        ∧ (∀ l', l' < length (heap s) → l' ∉ l :: Fc →
                 heap s' !! l' = heap s !! l')
        ∧ ∃ d' F', heap s' !! l = Some d' ∧ NoDup (keys d')
            ∧ repr_items (heap s') (merge_lenient Tc rest) d' F'
            ∧ NoDup (l :: F')
            ∧ (∀ x, x ∈ F' → x ∈ Fc ∨ (length (heap s) ≤ x)%nat)
    | Err _ => ¬ Forall (λ kt, compatible kt.2 (dict_get kt.1 rest)) Tc
    end.
Proof.
  induction rest as [|[k v] rest IH];
    intros Hspec Hndk Hdist Tc d Fc s Hl Hndd HTc HndF.
  { cbn. rewrite merge_lenient_nil.
    split; [apply Forall_forall; intros; constructor|].
    split; [done|]. split; [done|].
    split; [done|]. exists d, Fc. repeat split; try done. intros; by left. }
  apply Forall_cons in Hspec as [Hv Hspec]. cbn in Hv.
  apply NoDup_cons in Hndk as [Hk Hndk].
  apply Forall_cons in Hdist as [Hdv Hdist]. cbn in Hdv.
  specialize (IH Hspec Hndk Hdist).
  apply NoDup_cons in HndF as HndF'. destruct HndF' as [HlF HndFc].
  pose proof (repr_items_keys _ _ _ _ HTc) as Hkeys.
  assert (HndT : NoDup (keys Tc)) by (by rewrite Hkeys).
  assert (Hlt : l < length (heap s)) by (by eapply lookup_lt_Some).
  assert (HFlt : ∀ x, x ∈ Fc → x < length (heap s)).
  { intros x. by eapply repr_items_bound. }
  rewrite for_each_cons, bind_unfold.
  (* what remains once the item is done *)
  assert (Hrest : ∀ s1 d1 F1,
    (∀ tk, dict_get k Tc = Some tk → compatible tk (Some v)) →
    stderr s1 = stderr s →
    (length (heap s) ≤ length (heap s1))%nat →
    (∀ l', l' < length (heap s) → l' ∉ l :: Fc →
           heap s1 !! l' = heap s !! l') →
    heap s1 !! l = Some d1 → NoDup (keys d1) →
    repr_items (heap s1)
      (dict_set k (match dict_get k Tc with
                   | Some tk => lenient_slot tk (Some v)
                   | None => v
                   end) Tc) d1 F1 →
    NoDup F1 →
    (∀ x, x ∈ F1 → x ∈ Fc ∨ (length (heap s) ≤ x)%nat) →
    match for_each (lenient_body (VRef l)) rest s1 with
    | Ok (_, s') =>
        Forall (λ kt, compatible kt.2 (dict_get kt.1 ((k, v) :: rest))) Tc
        ∧ stderr s' = stderr s
        ∧ (length (heap s) ≤ length (heap s'))%nat
        ∧ (∀ l', l' < length (heap s) → l' ∉ l :: Fc →
                 heap s' !! l' = heap s !! l')
        ∧ ∃ d' F', heap s' !! l = Some d' ∧ NoDup (keys d')
            ∧ repr_items (heap s') (merge_lenient Tc ((k, v) :: rest)) d' F'
            ∧ NoDup (l :: F')
            ∧ (∀ x, x ∈ F' → x ∈ Fc ∨ (length (heap s) ≤ x)%nat)
    | Err _ =>
        ¬ Forall (λ kt, compatible kt.2 (dict_get kt.1 ((k, v) :: rest))) Tc
    end).
  { intros s1 d1 F1 Hck He1 Hlen1 Hfr1 Hl1 Hndd1 HT1 Hnd1 Hb1.
    assert (HndF1 : NoDup (l :: F1)).
    { apply NoDup_cons. split; [|done]. intros Hin.
      destruct (Hb1 l Hin); [done | lia]. }
    specialize (IH _ _ _ _ Hl1 Hndd1 HT1 HndF1).
    destruct (for_each _ rest s1) as [[[] s']|e].
    - destruct IH as (Hc' & He' & Hlen' & Hfr' & d' & F' & Hl' & Hndd' & HT' & HndF' & Hb').
      split; [by eapply compatible_uncons|].
      split; [congruence|]. split; [lia|]. split.
      { intros l' Hl'lt Hl'n. rewrite Hfr'; [by apply Hfr1 | lia |].
        intros [->|Hin]%elem_of_cons; [apply Hl'n; left|].
        destruct (Hb1 l' Hin); [apply Hl'n; by right | lia]. }
      exists d', F'. rewrite merge_lenient_cons in HT' by done.
      repeat split; try done.
      intros x Hx. destruct (Hb' x Hx) as [Hx1|?]; [|right; lia].
      by apply Hb1 in Hx1.
    - intros Hc. apply IH. by eapply compatible_cons. }
  unfold lenient_body at 1.
  destruct (non_mapping v) as [x|] eqn:Hnm.
  - (* a scalar or a sequence: the slot is set *)
    rewrite (setitem_run _ _ _ _ _ Hl).
    assert (Hslot : match dict_get k Tc with
                    | Some tk => lenient_slot tk (Some v)
                    | None => v
                    end = v).
    { destruct (dict_get k Tc); [by eapply lenient_slot_leaf | done]. }
    rewrite Hslot in Hrest.
    destruct (dict_get k d) as [c|] eqn:Hg.
    + destruct (repr_items_replace _ _ _ _ _ _ HTc HndFc Hg)
        as (tk & Fk & Hgt & Hrep & Hsub & HndFk & Hupd).
      destruct (Hupd (<[l := dict_set k x d]> (heap s)) v x [])
        as (F1 & HT1 & Hnd1 & Hin1).
      { by apply repr_leaf. }
      { constructor. }
      { intros ? Hin. by apply elem_of_nil in Hin. }
      { intros l0 Hl0 _. apply list_lookup_insert_ne. by intros ->. }
      apply (Hrest _ (dict_set k x d) F1); cbn [heap stderr]; try done.
      * intros. by eapply compatible_leaf.
      * by rewrite length_insert.
      * intros l' _ Hl'. apply list_lookup_insert_ne. intros ->. apply Hl'. left.
      * by apply list_lookup_insert_eq.
      * rewrite dict_set_keys; [done|]. eapply elem_keys. by eapply dict_get_elem.
      * intros y Hy. destruct (Hin1 y Hy) as [?|Hn]; [by left|].
        by apply elem_of_nil in Hn.
    + apply dict_get_keys in Hg.
      assert (HgT : k ∉ keys Tc) by (by rewrite Hkeys).
      rewrite (dict_set_fresh _ _ _ HgT) in Hrest.
      rewrite (dict_set_fresh _ _ _ Hg).
      apply (Hrest _ (d ++ [(k, x)]) (Fc ++ [])); cbn [heap stderr]; try done.
      * intros. by eapply compatible_leaf.
      * by rewrite length_insert.
      * intros l' _ Hl'. apply list_lookup_insert_ne. intros ->. apply Hl'. left.
      * by apply list_lookup_insert_eq.
      * by apply NoDup_keys_snoc.
      * apply repr_items_snoc; [|by apply repr_leaf].
        eapply repr_items_frame; [exact HTc|].
        intros y Hy. apply list_lookup_insert_ne. by intros ->.
      * by rewrite app_nil_r.
      * intros y Hy. left. by rewrite app_nil_r in Hy.
  - (* a mapping: the merge goes into the slot, or into a fresh one *)
    destruct (non_mapping_None _ Hnm) as [m' ->].
    rewrite bind_unfold, (contains_run _ _ _ _ Hl). unfold dict_has.
    destruct (dict_get k d) as [c|] eqn:Hg.
    + rewrite bind_unfold, bind_unfold, (getitem_run _ _ _ _ Hl), Hg.
      destruct (repr_items_replace _ _ _ _ _ _ HTc HndFc Hg)
        as (tk & Fk & Hgt & Hrep & Hsub & HndFk & Hupd).
      specialize (Hv m' eq_refl Hdv c tk Fk s Hrep HndFk).
      destruct (_update_dict (PMap m') c s) as [[r s1]|e].
      * destruct Hv as (-> & Hck & He1 & Hlen1 & Hfr1 & Fk' & Hrep' & Hnd' & Hb').
        assert (Hl1 : heap s1 !! l = Some d).
        { rewrite Hfr1; [done|done|]. intros Hin. apply HlF. by apply Hsub. }
        rewrite (setitem_run _ _ _ _ _ Hl1), (dict_set_same _ _ _ Hg).
        rewrite (insert_same_state _ _ _ Hl1).
        destruct (Hupd (heap s1) (lenient_slot tk (Some (PMap m'))) c Fk'
                    Hrep' Hnd') as (F1 & HT1 & Hnd1 & Hin1).
        { intros y Hy. destruct (Hb' y Hy) as [?|Hge]; [by left|].
          right. intros Hin. apply HFlt in Hin. lia. }
        { intros l0 Hl0 Hl0n. apply Hfr1; [by apply HFlt | done]. }
        rewrite (dict_set_same _ _ _ Hg) in HT1.
        rewrite Hgt in Hrest.
        apply (Hrest s1 d F1); try done.
        -- by intros tk0 [= <-].
        -- intros l' Hl'lt Hl'n. apply Hfr1; [done|].
           intros Hin. apply Hl'n. right. by apply Hsub.
        -- intros y Hy. destruct (Hin1 y Hy) as [?|Hyk]; [by left|].
           destruct (Hb' y Hyk) as [?|?]; [left; by apply Hsub | by right].
      * intros Hc. apply Hv. rewrite Forall_forall in Hc.
        specialize (Hc (k, tk) (dict_get_elem _ _ _ Hgt)). cbn in Hc.
        by rewrite String.eqb_refl in Hc.
    + rewrite bind_unfold, bind_unfold. cbn [alloc].
      set (n := length (heap s)) in *.
      set (s0 := MkState (heap s ++ [[]]) (stderr s)).
      assert (Hrep0 : repr (heap s0) (PMap []) (VRef n) [n]).
      { econstructor; [cbn; by apply list_lookup_middle | constructor | constructor]. }
      specialize (Hv m' eq_refl Hdv _ _ _ s0 Hrep0 (NoDup_singleton _)).
      destruct (_update_dict (PMap m') (VRef n) s0) as [[r s1]|e].
      * destruct Hv as (-> & _ & He1 & Hlen1 & Hfr1 & Fk' & Hrep' & Hnd' & Hb').
        rewrite lenient_slot_map, merge_lenient_empty in Hrep'.
        assert (Hlen0 : length (heap s0) = S n).
        { cbn. rewrite length_app. cbn. lia. }
        assert (Hold : ∀ l', l' < n → heap s1 !! l' = heap s !! l').
        { intros l' Hl'. rewrite Hfr1; [by apply lookup_app_l | lia |].
          rewrite list_elem_of_singleton. lia. }
        assert (Hfresh : ∀ y, y ∈ Fk' → (n ≤ y)%nat).
        { intros y Hy.
          destruct (Hb' _ Hy) as [->%list_elem_of_singleton|?]; lia. }
        assert (Hl1 : heap s1 !! l = Some d) by (by rewrite Hold).
        rewrite (setitem_run _ _ _ _ _ Hl1).
        apply dict_get_keys in Hg.
        assert (HgT : k ∉ keys Tc) by (by rewrite Hkeys).
        rewrite (proj2 (dict_get_keys _ _) HgT) in Hrest.
        rewrite (dict_set_fresh _ _ _ HgT) in Hrest.
        rewrite (dict_set_fresh _ _ _ Hg).
        apply (Hrest _ (d ++ [(k, VRef n)]) (Fc ++ Fk')); cbn [heap stderr].
        -- intros tk0 Htk0. apply dict_get_keys in HgT. congruence.
        -- done.
        -- rewrite length_insert. lia.
        -- intros l' Hl'lt Hl'n. rewrite list_lookup_insert_ne; [by apply Hold|].
           intros ->. apply Hl'n. left.
        -- apply list_lookup_insert_eq. by eapply lookup_lt_Some.
        -- by apply NoDup_keys_snoc.
        -- apply repr_items_snoc.
           ++ eapply repr_items_frame; [exact HTc|]. intros y Hy.
              rewrite list_lookup_insert_ne; [apply Hold, HFlt, Hy|].
              by intros ->.
           ++ eapply repr_frame; [exact Hrep'|]. intros y Hy.
              apply list_lookup_insert_ne. intros ->. apply Hfresh in Hy. lia.
        -- apply NoDup_app. split; [done|]. split; [|done].
           intros y Hy Hy'. apply HFlt in Hy. apply Hfresh in Hy'. lia.
        -- intros y [Hy|Hy]%elem_of_app; [by left|]. right. by apply Hfresh.
      * exfalso. apply Hv. constructor. constructor.
Qed.

Lemma lenient_spec new : lenient_spec_at new.
Proof.
  induction new as [a|l|m IH] using pyval_map_ind; [by intros ? [=]..|].
  intros m0 [= <-] Hdist tv T F s Hrep HndF.
  inversion Hdist as [| |? Hndk Hdv]; subst.
  rewrite update_dict_unfold, bind_unfold.
  change (for_each _ m s) with (for_each (lenient_body tv) m s).
  inversion Hrep as [a|sq|T0 l d Fc Hl Hndd HT]; subst.
  - (* the target is a scalar *)
    destruct m as [|[k v] m].
    + cbn. split; [done|]. split; [constructor|].
      split; [done|]. split; [done|]. split; [done|].
      exists []. split; [constructor|]. split; [constructor|].
      intros ? Hin. by apply elem_of_nil in Hin.
    + destruct (update_dict_scalar_target ((k, v) :: m) (VAtom a) s)
        as [e He]; [done..|].
      rewrite update_dict_unfold, bind_unfold in He.
      change (for_each _ _ s) with (for_each (lenient_body (VAtom a)) ((k, v) :: m) s) in He.
      destruct (for_each _ _ s) as [[[] s']|e']; [done|].
      intros Hc. by inversion Hc.
  - destruct m as [|[k v] m].
    + cbn. split; [done|]. split; [constructor|].
      split; [done|]. split; [done|]. split; [done|].
      exists []. split; [constructor|]. split; [constructor|].
      intros ? Hin. by apply elem_of_nil in Hin.
    + destruct (update_dict_scalar_target ((k, v) :: m) (VSeq sq) s)
        as [e He]; [done..|].
      rewrite update_dict_unfold, bind_unfold in He.
      change (for_each _ _ s) with (for_each (lenient_body (VSeq sq)) ((k, v) :: m) s) in He.
      destruct (for_each _ _ s) as [[[] s']|e']; [done|].
      intros Hc. by inversion Hc.
  - (* the target is a dictionary *)
    pose proof (lenient_loop l m IH Hndk Hdv T0 d Fc s Hl Hndd HT HndF) as Hloop.
    destruct (for_each (lenient_body (VRef l)) m s) as [[[] s']|e].
    + destruct Hloop as (Hc' & He' & Hlen' & Hfr' & d' & F' & Hl' & Hndd' & HT' & HndF' & Hb').
      cbn [mret M_ret]. split; [done|]. split; [by constructor|].
      split; [done|]. split; [done|].
      split; [done|]. exists (l :: F'). rewrite lenient_slot_map.
      split; [by econstructor|]. split; [done|].
      intros x [->|Hx]%elem_of_cons; [left; left|].
      destruct (Hb' x Hx); [left; by right | by right].
    + intros Hc. apply Hloop. inversion Hc as [| | |? ? Hall|]; subst; [done|].
      apply Forall_forall. intros [k0 t0] _. cbn. constructor.
Qed.

Lemma dict_get_app {A} k (a b : list (string * A)) :
  dict_get k (a ++ b)
  = match dict_get k a with Some x => Some x | None => dict_get k b end.
Proof.
  induction a as [|[k0 x0] a IH]; cbn; [done|].
  by destruct (String.eqb k k0).
Qed.

Lemma dict_get_slots (f : pyval → option pyval → pyval) T new k :
  dict_get k ((λ '(k, tk), (k, f tk (dict_get k new))) <$> T)
  = (λ t, f t (dict_get k new)) <$> dict_get k T.
Proof.
  induction T as [|[k0 t0] T IH]; cbn; [done|].
  by destruct (String.eqb_spec k k0) as [->|].
Qed.

Lemma dict_get_filter_fresh {A B} (T : list (string * A))
    (m : list (string * B)) k :
  dict_has k T = false →
  dict_get k (List.filter (λ kv, negb (dict_has kv.1 T)) m) = dict_get k m.
Proof.
  intros Hk. induction m as [|[k0 v0] m IH]; cbn; [done|].
  destruct (String.eqb_spec k k0) as [->|Hne].
  - rewrite Hk. cbn. by rewrite String.eqb_refl.
  - destruct (dict_has k0 T); cbn; [done|].
    by destruct (String.eqb_spec k k0).
Qed.

Lemma dict_get_merge_lenient T new k :
  dict_get k (merge_lenient T new)
  = match dict_get k T with
    | Some t => Some (lenient_slot t (dict_get k new))
    | None => dict_get k new
    end.
Proof.
  unfold merge_lenient. rewrite dict_get_app, (dict_get_slots lenient_slot).
  destruct (dict_get k T) as [t|] eqn:Hg; [done|]. cbn.
  apply dict_get_filter_fresh. unfold dict_has. by rewrite Hg.
Qed.

Lemma keys_filter_fresh {A B} (T : list (string * A)) (m : list (string * B)) :
  keys (List.filter (λ kv, negb (dict_has kv.1 T)) m)
  = List.filter (λ k, negb (dict_has k T)) (keys m).
Proof.
  induction m as [|[k v] m IH]; cbn; [done|].
  destruct (dict_has k T); cbn; [done|]. by f_equal.
Qed.

Lemma merge_lenient_keys T new :
  keys (merge_lenient T new)
  = keys T ++ List.filter (λ k, negb (dict_has k T)) (keys new).
Proof.
  unfold merge_lenient, keys at 1. rewrite fmap_app. f_equal.
  - rewrite <- list_fmap_compose. apply list_fmap_ext. by intros _ [k t] _.
  - apply keys_filter_fresh.
Qed.

(** X15: on a tree-shaped store and for [new] with distinct keys, the
    lenient merge returns whenever no mapping of [new] that is not empty
    meets a scalar or a sequence of the target.  When it returns, it
    returns the target, has written nothing to [stderr] and has left
    every dictionary outside the target as it was; the target denotes
    the old tree in which a key that [new] maps to a scalar or a
    sequence holds that value, a key that both map to mappings holds the
    lenient merge of the two, a key that only [new] has comes after the
    old keys, in the order of [new], with the value [new] gives it, and
    a key that [new] does not name holds what it held. *)
Theorem lenient_merge_tree (s : state) (t : loc)
    (T new : list (string * pyval)) (F : list loc) :
  repr (heap s) (PMap T) (VRef t) F →
  NoDup F →
  distinct_keys (PMap new) →
  (compatible (PMap T) (Some (PMap new)) →
   ∃ s', _update_dict (PMap new) (VRef t) s = Ok (VRef t, s'))
  ∧ ∀ r s', _update_dict (PMap new) (VRef t) s = Ok (r, s') →
      r = VRef t
      ∧ stderr s' = stderr s
      ∧ (∀ l, l < length (heap s) → l ∉ F → heap s' !! l = heap s !! l)
      ∧ (∃ F', repr (heap s') (PMap (merge_lenient T new)) (VRef t) F'
               ∧ NoDup F')
      ∧ keys (merge_lenient T new)
        = keys T ++ List.filter (λ k, negb (dict_has k T)) (keys new)
      ∧ (∀ k v, dict_get k new = Some v →
           dict_get k (merge_lenient T new)
           = Some (match v, dict_get k T with
                   | PMap m, Some (PMap Tk) => PMap (merge_lenient Tk m)
                   | PMap _, Some tk => tk
                   | _, _ => v
                   end))
      ∧ (∀ k, dict_get k new = None →
           dict_get k (merge_lenient T new) = dict_get k T).
Proof.
  intros Hrep HndF Hdist.
  pose proof (lenient_spec (PMap new) new eq_refl Hdist _ _ _ s Hrep HndF)
    as Hspec.
  split.
  - intros Hc. destruct (_update_dict (PMap new) (VRef t) s) as [[r s']|e];
      [|done].
    destruct Hspec as (-> & _). by exists s'.
  - intros r s' Hrun. rewrite Hrun in Hspec.
    destruct Hspec as (-> & _ & He & _ & Hfr & F' & Hrep' & Hnd' & _).
    split; [done|]. split; [done|]. split; [done|].
    split; [by exists F'|]. split; [apply merge_lenient_keys|]. split.
    + intros k v Hv. rewrite dict_get_merge_lenient, Hv.
      destruct (dict_get k T) as [tk|]; [|by destruct v].
      f_equal. destruct v as [a|l|m]; [by destruct tk..|].
      by destruct tk.
    + intros k Hk. rewrite dict_get_merge_lenient, Hk.
      destruct (dict_get k T) as [tk|]; [|done]. by rewrite lenient_slot_None.
Qed.

(** X16: merged into an empty dictionary, [new] is copied: the merge
    always returns, the dictionary then denotes [new], every mapping
    nested in it is a dictionary created by the merge, and no other
    dictionary of the store is changed. *)
Theorem lenient_merge_into_empty (s : state) (c : loc)
    (new : list (string * pyval)) :
  heap s !! c = Some [] →
  distinct_keys (PMap new) →
  ∃ s' F',
    _update_dict (PMap new) (VRef c) s = Ok (VRef c, s')
    ∧ stderr s' = stderr s
    ∧ repr (heap s') (PMap new) (VRef c) F'
    ∧ NoDup F'
    ∧ (∀ l, l ∈ F' → l = c ∨ (length (heap s) ≤ l)%nat)
    ∧ (∀ l, l < length (heap s) → l ≠ c → heap s' !! l = heap s !! l).
Proof.
  intros Hc Hdist.
  assert (Hrep : repr (heap s) (PMap []) (VRef c) [c]).
  { econstructor; [done | constructor | constructor]. }
  pose proof (lenient_spec (PMap new) new eq_refl Hdist _ _ _ s Hrep
                (NoDup_singleton _)) as Hspec.
  destruct (_update_dict (PMap new) (VRef c) s) as [[r s']|e].
  - destruct Hspec as (-> & _ & He & _ & Hfr & F' & Hrep' & Hnd' & Hb').
    rewrite lenient_slot_map, merge_lenient_empty in Hrep'.
    exists s', F'. repeat split; try done.
    + intros l Hl. destruct (Hb' l Hl) as [->%list_elem_of_singleton|?]; auto.
    + intros l Hl Hne. apply Hfr; [done|]. by rewrite list_elem_of_singleton.
  - exfalso. apply Hspec. constructor. constructor.
Qed.

(** ** The two merges compared *)

Lemma filter_none {A} (P : A → bool) l :
  (∀ x, x ∈ l → P x = false) → List.filter P l = [].
Proof.
  induction l as [|x l IH]; intros Hall; cbn; [done|].
  rewrite Hall by left. apply IH. intros; apply Hall; by right.
Qed.

Lemma covered_merge t : ∀ n, covered t n → lenient_slot t n = merge_slot t n.
Proof.
  induction t as [a|l|T IH] using pyval_map_ind; intros n Hc.
  - inversion Hc; subst; done.
  - inversion Hc; subst; done.
  - inversion Hc as [| | |T0 m Hkeys Hall]; subst; [done..|].
    cbn [lenient_slot merge_slot]. f_equal.
    rewrite (filter_none _ m), app_nil_r.
    + rewrite Forall_forall in IH, Hall.
      apply list_fmap_ext. intros _ [k tk] Hin%list_elem_of_lookup_2.
      f_equal. apply (IH (k, tk) Hin). apply (Hall (k, tk) Hin).
    + intros [k v] Hin. cbn. apply negb_false_iff, dict_has_keys, Hkeys.
      by eapply elem_keys.
Qed.

Lemma covered_compatible t : ∀ n, covered t n → compatible t n.
Proof.
  induction t as [a|l|T IH] using pyval_map_ind; intros n Hc.
  - inversion Hc; subst; constructor.
  - inversion Hc; subst; constructor.
  - inversion Hc as [| | |T0 m Hkeys Hall]; subst; [constructor..|].
    constructor. rewrite Forall_forall in IH, Hall. apply Forall_forall.
    intros [k tk] Hin. apply (IH (k, tk) Hin). apply (Hall (k, tk) Hin).
Qed.

(** X17: when every key of [new], at every level, is a key of the
    target, the strict flag makes no difference: from the same store
    both merges return the target, and it denotes the same tree. *)
Theorem strict_and_lenient_agree (s : state) (t : loc)
    (T new : list (string * pyval)) (F : list loc) :
  repr (heap s) (PMap T) (VRef t) F →
  NoDup F →
  distinct_keys (PMap new) →
  covered (PMap T) (Some (PMap new)) →
  ∃ s1 s2 F1 F2,
    _update_dict (PMap new) (VRef t) s = Ok (VRef t, s1)
    ∧ _update_dict_strict (PMap new) (VRef t) s = Ok (VRef t, s2)
    ∧ repr (heap s1) (PMap (merge_strict T new)) (VRef t) F1
    ∧ repr (heap s2) (PMap (merge_strict T new)) (VRef t) F2.
Proof.
  intros Hrep HndF Hdist Hcov.
  pose proof (covered_compatible _ _ Hcov) as Hc.
  pose proof (lenient_spec (PMap new) new eq_refl Hdist _ _ _ s Hrep HndF) as Hl.
  pose proof (strict_spec (PMap new) new eq_refl Hdist _ _ _ s Hrep HndF) as Hs.
  destruct (_update_dict (PMap new) (VRef t) s) as [[r1 s1]|e]; [|done].
  destruct (_update_dict_strict (PMap new) (VRef t) s) as [[r2 s2]|e]; [|done].
  destruct Hl as (-> & _ & _ & _ & _ & F1 & Hrep1 & _).
  destruct Hs as (-> & F2 & Hrep2 & _).
  rewrite (covered_merge _ _ Hcov) in Hrep1.
  exists s1, s2, F1, F2.
  split; [done|]. split; [done|]. split; [exact Hrep1 | exact Hrep2].
Qed.

(** ** Merging twice *)

Lemma distinct_keys_inv m :
  distinct_keys (PMap m) →
  NoDup (keys m) ∧ Forall (λ kv, distinct_keys kv.2) m.
Proof. intros Hd. by inversion Hd. Qed.

Lemma lenient_slot_self v : distinct_keys v → lenient_slot v (Some v) = v.
Proof.
  induction v as [a|l|m IH] using pyval_map_ind; [done..|].
  intros [Hnd Hall]%distinct_keys_inv. cbn [lenient_slot]. f_equal.
  rewrite (filter_none _ m), app_nil_r.
  - transitivity (id <$> m); [|apply list_fmap_id].
    rewrite Forall_forall in IH, Hall.
    apply list_fmap_ext. intros _ [k vk] Hin%list_elem_of_lookup_2. cbn.
    rewrite (dict_get_NoDup _ _ _ Hnd Hin). f_equal.
    apply (IH (k, vk) Hin), (Hall (k, vk) Hin).
  - intros [k vk] Hin. cbn. apply negb_false_iff, dict_has_keys.
    by eapply elem_keys.
Qed.

Lemma compatible_self v : distinct_keys v → compatible v (Some v).
Proof.
  induction v as [a|l|m IH] using pyval_map_ind; [constructor..|].
  intros [Hnd Hall]%distinct_keys_inv. constructor.
  rewrite Forall_forall in IH, Hall. apply Forall_forall.
  intros [k vk] Hin. cbn. rewrite (dict_get_NoDup _ _ _ Hnd Hin).
  apply (IH (k, vk) Hin), (Hall (k, vk) Hin).
Qed.

(** What [new] gives for a key has distinct keys when [new] has. *)
Lemma distinct_keys_get m k v :
  Forall (λ kv, distinct_keys kv.2) m → dict_get k m = Some v →
  distinct_keys v.
Proof.
  intros Hall Hg. rewrite Forall_forall in Hall.
  apply (Hall (k, v)). by eapply dict_get_elem.
Qed.

Lemma distinct_opt_get m k :
  Forall (λ kv, distinct_keys kv.2) m → distinct_opt (dict_get k m).
Proof.
  intros Hall. destruct (dict_get k m) as [v|] eqn:Hg; [|done].
  by eapply distinct_keys_get.
Qed.

Lemma keys_slots (f : pyval → option pyval → pyval) T m :
  keys ((λ '(k, tk), (k, f tk (dict_get k m))) <$> T) = keys T.
Proof.
  unfold keys. rewrite <- list_fmap_compose.
  apply list_fmap_ext. by intros _ [k t] _.
Qed.

Lemma lenient_slot_idem t :
  ∀ n, distinct_opt n →
    lenient_slot (lenient_slot t n) n = lenient_slot t n.
Proof.
  induction t as [a|l|T IH] using pyval_map_ind; intros [[a'|l'|m]|] Hd;
    try done.
  apply distinct_keys_inv in Hd as [Hnd Hall].
  cbn [lenient_slot]. f_equal.
  set (slots := (λ '(k, tk), (k, lenient_slot tk (dict_get k m))) <$> T).
  set (fresh := List.filter (λ kv, negb (dict_has kv.1 T)) m).
  assert (Hnone : List.filter (λ kv, negb (dict_has kv.1 (slots ++ fresh))) m
                  = []).
  { apply filter_none. intros [k v] Hin. cbn.
    apply negb_false_iff, dict_has_keys.
    unfold keys. rewrite fmap_app. apply elem_of_app.
    fold (keys slots). unfold slots. rewrite (keys_slots lenient_slot).
    destruct (dict_has k T) eqn:Hk; [left; by apply dict_has_keys|].
    right. apply (elem_keys _ _ v). apply list_elem_of_In, filter_In.
    split; [by apply list_elem_of_In|]. cbn. by rewrite Hk. }
  rewrite Hnone, app_nil_r, fmap_app. f_equal.
  - unfold slots. rewrite <- list_fmap_compose. rewrite Forall_forall in IH.
    apply list_fmap_ext. intros _ [k tk] Hin%list_elem_of_lookup_2. cbn.
    f_equal. apply (IH (k, tk) Hin). by apply distinct_opt_get.
  - transitivity (id <$> fresh); [|apply list_fmap_id].
    apply list_fmap_ext. intros _ [k v] Hin%list_elem_of_lookup_2. cbn.
    apply list_elem_of_In, filter_In in Hin as [Hin%list_elem_of_In _].
    rewrite (dict_get_NoDup _ _ _ Hnd Hin). f_equal.
    apply lenient_slot_self. rewrite Forall_forall in Hall.
    apply (Hall (k, v) Hin).
Qed.

Lemma compatible_lenient t :
  ∀ n, distinct_opt n → compatible t n → compatible (lenient_slot t n) n.
Proof.
  induction t as [a|l|T IH] using pyval_map_ind; intros [[a'|l'|m]|] Hd Hc;
    try (by constructor); try done.
  apply distinct_keys_inv in Hd as [Hnd Hall].
  cbn [lenient_slot]. constructor. apply Forall_app. split.
  - assert (HT : Forall (λ kt, compatible kt.2 (dict_get kt.1 m)) T).
    { inversion Hc as [| | |? ? HT|]; subst; [done|].
      apply Forall_forall. intros; constructor. }
    rewrite Forall_forall in IH, HT. apply Forall_forall.
    intros [k x] Hin. apply list_elem_of_fmap in Hin as ([k0 tk] & [= -> ->] & Hin).
    cbn. apply (IH (k0, tk) Hin); [by apply distinct_opt_get|].
    apply (HT (k0, tk) Hin).
  - apply Forall_forall. intros [k v] Hin. cbn.
    apply list_elem_of_In, filter_In in Hin as [Hin%list_elem_of_In _].
    rewrite (dict_get_NoDup _ _ _ Hnd Hin). apply compatible_self.
    rewrite Forall_forall in Hall. apply (Hall (k, v) Hin).
Qed.

Lemma merge_slot_idem t :
  ∀ n, merge_slot (merge_slot t n) n = merge_slot t n.
Proof.
  induction t as [a|l|T IH] using pyval_map_ind; intros [[a'|l'|m]|];
    try done.
  cbn [merge_slot]. f_equal. rewrite <- list_fmap_compose.
  rewrite Forall_forall in IH.
  apply list_fmap_ext. intros _ [k tk] Hin%list_elem_of_lookup_2. cbn.
  f_equal. apply (IH (k, tk) Hin).
Qed.

Lemma compatible_strict t :
  ∀ n, compatible t n → compatible (merge_slot t n) n.
Proof.
  induction t as [a|l|T IH] using pyval_map_ind; intros [[a'|l'|m]|] Hc;
    try (by constructor); try done.
  assert (HT : Forall (λ kt, compatible kt.2 (dict_get kt.1 m)) T).
  { inversion Hc as [| | |? ? HT|]; subst; [done|].
    apply Forall_forall. intros; constructor. }
  cbn [merge_slot]. constructor.
  rewrite Forall_forall in IH, HT. apply Forall_forall.
  intros [k x] Hin. apply list_elem_of_fmap in Hin as ([k0 tk] & [= -> ->] & Hin).
  cbn. apply (IH (k0, tk) Hin), (HT (k0, tk) Hin).
Qed.

(** X18: merging the same [new] a second time changes nothing of the
    tree: when no mapping of [new] that is not empty meets a scalar or a
    sequence of a tree-shaped target, the merge returns, returns again
    when repeated, and the target then denotes the tree it denoted after
    the first merge, in the lenient mode as in the strict one. *)
Theorem merge_twice (s : state) (t : loc)
    (T new : list (string * pyval)) (F : list loc) :
  repr (heap s) (PMap T) (VRef t) F →
  NoDup F →
  distinct_keys (PMap new) →
  compatible (PMap T) (Some (PMap new)) →
  (∃ s1 s2 F1 F2,
     _update_dict (PMap new) (VRef t) s = Ok (VRef t, s1)
     ∧ _update_dict (PMap new) (VRef t) s1 = Ok (VRef t, s2)
     ∧ repr (heap s1) (PMap (merge_lenient T new)) (VRef t) F1
     ∧ repr (heap s2) (PMap (merge_lenient T new)) (VRef t) F2)
  ∧ (∃ s1 s2 F1 F2,
       _update_dict_strict (PMap new) (VRef t) s = Ok (VRef t, s1)
       ∧ _update_dict_strict (PMap new) (VRef t) s1 = Ok (VRef t, s2)
       ∧ repr (heap s1) (PMap (merge_strict T new)) (VRef t) F1
       ∧ repr (heap s2) (PMap (merge_strict T new)) (VRef t) F2).
Proof.
  intros Hrep HndF Hdist Hc. split.
  - pose proof (lenient_spec (PMap new) new eq_refl Hdist _ _ _ s Hrep HndF) as H1.
    destruct (_update_dict (PMap new) (VRef t) s) as [[r s1]|e]; [|done].
    destruct H1 as (-> & _ & _ & _ & _ & F1 & Hrep1 & Hnd1 & _).
    pose proof (lenient_spec (PMap new) new eq_refl Hdist _ _ _ s1 Hrep1 Hnd1) as H2.
    destruct (_update_dict (PMap new) (VRef t) s1) as [[r2 s2]|e] eqn:Hrun2.
    + destruct H2 as (-> & _ & _ & _ & _ & F2 & Hrep2 & _).
      rewrite lenient_slot_idem in Hrep2 by done.
      exists s1, s2, F1, F2.
      split; [done|]. split; [done|]. split; [exact Hrep1 | exact Hrep2].
    + exfalso. apply H2. by apply compatible_lenient.
  - pose proof (strict_spec (PMap new) new eq_refl Hdist _ _ _ s Hrep HndF) as H1.
    destruct (_update_dict_strict (PMap new) (VRef t) s) as [[r s1]|e]; [|done].
    destruct H1 as (-> & F1 & Hrep1 & _ & Hnd1 & _).
    pose proof (strict_spec (PMap new) new eq_refl Hdist _ _ _ s1 Hrep1 Hnd1) as H2.
    destruct (_update_dict_strict (PMap new) (VRef t) s1) as [[r2 s2]|e] eqn:Hrun2.
    + destruct H2 as (-> & F2 & Hrep2 & _).
      rewrite merge_slot_idem in Hrep2.
      exists s1, s2, F1, F2.
      split; [done|]. split; [done|]. split; [exact Hrep1 | exact Hrep2].
    + exfalso. apply H2. by apply compatible_strict.
Qed.

(** ** Unknown keys *)

Lemma strict_loop_unknown t d new :
  ∀ s, heap s !! t = Some d →
    (∀ k, k ∈ keys new → k ∉ keys d) →
    for_each (strict_body (VRef t)) new s
    = Ok (tt, MkState (heap s) (stderr s ++ (skip_message <$> keys new))).
Proof.
  induction new as [|[k v] new IH]; intros s Ht Hnew.
  - cbn. rewrite app_nil_r. by destruct s.
  - rewrite for_each_cons, bind_unfold. unfold strict_body at 1.
    rewrite bind_unfold, (in_keys_run _ _ _ _ Ht).
    assert (dict_has k d = false) as ->.
    { apply not_true_is_false. intros Hk%dict_has_keys.
      by apply (Hnew k); [left|]. }
    cbn [write_stderr]. rewrite IH; cbn [heap stderr]; [|done|].
    + by rewrite <- app_assoc.
    + intros k0 Hk0. apply Hnew. by right.
Qed.

(** X19: a strict merge none of whose keys the target has changes no
    dictionary and writes one line to [stderr] for each key, in the
    order of [new]; nested values are not looked at. *)
Theorem strict_merge_unknown_keys (s : state) (t : loc) (d : dict)
    (new : list (string * pyval)) :
  heap s !! t = Some d →
  (∀ k, k ∈ keys new → k ∉ keys d) →
  _update_dict_strict (PMap new) (VRef t) s
  = Ok (VRef t,
        MkState (heap s) (stderr s ++ (skip_message <$> keys new))).
Proof.
  intros Ht Hnew. apply strict_loop_run. by eapply strict_loop_unknown.
Qed.

(** ** Keys under the lenient merge, on any store *)

Lemma keys_extended_refl h : keys_extended h h.
Proof. intros l d Hl. by exists d. Qed.

Lemma keys_extended_trans h1 h2 h3 :
  keys_extended h1 h2 → keys_extended h2 h3 → keys_extended h1 h3.
Proof.
  intros H12 H23 l d Hl. destruct (H12 l d Hl) as (d2 & Hl2 & Hp2).
  destruct (H23 l d2 Hl2) as (d3 & Hl3 & Hp3). exists d3. split; [done|].
  by etrans.
Qed.

Lemma keys_extended_alloc h d : keys_extended h (h ++ [d]).
Proof. intros l d0 Hl. exists d0. split; [by apply lookup_app_l_Some | done]. Qed.

Lemma dict_set_prefix {A} k (x : A) d : keys d `prefix_of` keys (dict_set k x d).
Proof.
  destruct (decide (k ∈ keys d)) as [Hin|Hout].
  - by rewrite dict_set_keys.
  - rewrite dict_set_fresh by done. unfold keys. rewrite fmap_app.
    by apply prefix_app_r.
Qed.

Lemma keys_extended_set h l d k x :
  h !! l = Some d → keys_extended h (<[l := dict_set k x d]> h).
Proof.
  intros Hl l0 d0 Hl0. destruct (decide (l0 = l)) as [->|Hne].
  - rewrite Hl in Hl0. injection Hl0 as <-. exists (dict_set k x d).
    split; [apply list_lookup_insert_eq; by eapply lookup_lt_Some|].
    apply dict_set_prefix.
  - exists d0. by rewrite list_lookup_insert_ne.
Qed.

Lemma setitem_Ok target k x s u s1 :
  setitem target k x s = Ok (u, s1) →
  ∃ l d, target = VRef l ∧ heap s !! l = Some d
         ∧ s1 = MkState (<[l := dict_set k x d]> (heap s)) (stderr s).
Proof.
  destruct target as [a|sq|l]; [done..|].
  unfold setitem. rewrite bind_unfold. unfold deref.
  destruct (heap s !! l) as [d|] eqn:Hl; [|done].
  intros [= <- <-]. by exists l, d.
Qed.

Lemma contains_Ok k target s b s1 :
  contains k target s = Ok (b, s1) → s1 = s.
Proof.
  destruct target as [[]|sq|l]; try done; cbn; try by intros [= _ <-].
  rewrite bind_unfold. unfold deref. destruct (heap s !! l); [|done].
  by intros [= _ <-].
Qed.

Lemma getitem_Ok target k s v s1 :
  getitem target k s = Ok (v, s1) → s1 = s.
Proof.
  destruct target as [a|sq|l]; [done..|]. unfold getitem.
  rewrite bind_unfold. unfold deref. destruct (heap s !! l) as [d|]; [|done].
  destruct (dict_get k d); [|done]. by intros [= _ <-].
Qed.

Lemma update_dict_extends new :
  ∀ target s r s',
    _update_dict new target s = Ok (r, s') →
    keys_extended (heap s) (heap s') ∧ stderr s' = stderr s.
Proof.
  induction new as [a|l|m IH] using pyval_map_ind; intros target s r s' Hrun;
    [done..|].
  rewrite update_dict_unfold in Hrun.
  apply bind_Ok in Hrun as ([] & s1 & Hloop & [= _ <-]).
  change (for_each _ m s) with (for_each (lenient_body target) m s) in Hloop.
  refine (for_each_preserves _
            (λ s s', keys_extended (heap s) (heap s') ∧ stderr s' = stderr s)
            _ _ m _ s tt s1 Hloop).
  { intros. split; [apply keys_extended_refl | done]. }
  { intros ? ? ? [? ?] [? ?]. split; [by eapply keys_extended_trans | congruence]. }
  intros [k v] s0 u s2 Hin Hbody. unfold lenient_body in Hbody.
  rewrite Forall_forall in IH. specialize (IH (k, v) Hin). cbn in IH.
  destruct (non_mapping v) as [x|].
  - apply setitem_Ok in Hbody as (l & d & -> & Hl & ->). cbn.
    split; [by apply keys_extended_set | done].
  - apply bind_Ok in Hbody as (b & sa & Hc & Hbody).
    apply contains_Ok in Hc as ->.
    apply bind_Ok in Hbody as (r0 & sb & Hrec & Hset).
    assert (Hsb : keys_extended (heap s0) (heap sb) ∧ stderr sb = stderr s0).
    { destruct b.
      - apply bind_Ok in Hrec as (c & sc & Hg & Hrec).
        apply getitem_Ok in Hg as ->. by eapply IH.
      - apply bind_Ok in Hrec as (c & sc & Ha & Hrec).
        injection Ha as <- <-. destruct (IH _ _ _ _ Hrec) as [He Hs].
        split; [|done].
        eapply keys_extended_trans; [apply keys_extended_alloc | exact He]. }
    destruct Hsb as [He Hs].
    apply setitem_Ok in Hset as (l & d & -> & Hl & ->). cbn.
    split; [|done]. eapply keys_extended_trans; [exact He|].
    by apply keys_extended_set.
Qed.

Lemma lenient_body_sets t k v s u s1 :
  lenient_body (VRef t) (k, v) s = Ok (u, s1) →
  ∃ d1, heap s1 !! t = Some d1 ∧ k ∈ keys d1.
Proof.
  unfold lenient_body. intros Hbody.
  assert (Hset : ∃ x s0, setitem (VRef t) k x s0 = Ok (u, s1)).
  { destruct (non_mapping v) as [x|]; [by eauto|].
    apply bind_Ok in Hbody as (b & sa & _ & Hbody).
    apply bind_Ok in Hbody as (r0 & sb & _ & Hset). eauto. }
  destruct Hset as (x & s0 & Hset).
  apply setitem_Ok in Hset as (l & d & [= <-] & Hl & ->).
  exists (dict_set k x d). split.
  - cbn. apply list_lookup_insert_eq. by eapply lookup_lt_Some.
  - eapply elem_keys, dict_get_elem, dict_get_set_eq.
Qed.

Lemma lenient_loop_extends target m s u s' :
  for_each (lenient_body target) m s = Ok (u, s') →
  keys_extended (heap s) (heap s').
Proof.
  intros Hloop.
  assert (Hrun : _update_dict (PMap m) target s = Ok (target, s')).
  { rewrite update_dict_unfold, bind_unfold.
    change (for_each _ m s) with (for_each (lenient_body target) m s).
    rewrite Hloop. by destruct u. }
  by apply update_dict_extends in Hrun as [? _].
Qed.

Lemma lenient_loop_sets t m :
  ∀ s u s', for_each (lenient_body (VRef t)) m s = Ok (u, s') →
    ∀ k, k ∈ keys m → ∃ d', heap s' !! t = Some d' ∧ k ∈ keys d'.
Proof.
  induction m as [|[k0 v0] m IH]; intros s u s' Hloop k Hk.
  - by apply elem_of_nil in Hk.
  - rewrite for_each_cons in Hloop.
    apply bind_Ok in Hloop as (u1 & s1 & Hbody & Hrest).
    apply elem_of_cons in Hk as [->|Hk]; [|by eapply IH].
    destruct (lenient_body_sets _ _ _ _ _ _ Hbody) as (d1 & Hd1 & Hin).
    destruct (lenient_loop_extends _ _ _ _ _ Hrest _ _ Hd1)
      as (d' & Hd' & Hpre).
    exists d'. split; [done|]. destruct Hpre as [rest ->].
    apply elem_of_app. by left.
Qed.

(** X22: on any store, shared or cyclic dictionaries included, a
    lenient merge that returns has returned its target, written nothing
    to [stderr] and only added keys: every dictionary is still there
    with the keys it had, in their order, followed by the keys it has
    gained; and every key of [new] is then a key of the target. *)
Theorem lenient_merge_adds_keys (s : state) (t : loc) (d : dict)
    (new : list (string * pyval)) (r : value) (s' : state) :
  heap s !! t = Some d →
  _update_dict (PMap new) (VRef t) s = Ok (r, s') →
  r = VRef t
  ∧ stderr s' = stderr s
  ∧ (∀ l d0, heap s !! l = Some d0 →
       ∃ d', heap s' !! l = Some d' ∧ keys d0 `prefix_of` keys d')
  ∧ ∃ d', heap s' !! t = Some d' ∧ ∀ k, k ∈ keys new → k ∈ keys d'.
Proof.
  intros Ht Hrun.
  destruct (update_dict_extends _ _ _ _ _ Hrun) as [Hext He].
  rewrite update_dict_unfold in Hrun.
  apply bind_Ok in Hrun as ([] & s1 & Hloop & [= <- <-]).
  change (for_each _ new s) with (for_each (lenient_body (VRef t)) new s)
    in Hloop.
  split; [done|]. split; [done|]. split; [exact Hext|].
  destruct (Hext t d Ht) as (d' & Hd' & _). exists d'. split; [done|].
  intros k Hk.
  destruct (lenient_loop_sets _ _ _ _ _ Hloop k Hk) as (d'' & Hd'' & Hin).
  congruence.
Qed.
(** ** Validating twice *)

Section Idempotence.
Context `{Env}.

Lemma validate_value_twice root k v v' :
  path_laws → is_absolute root = true →
  validate_value root k v = Ok v' → validate_value root k v' = Ok v'.
Proof.
  intros (Habs & Hidem & Hex & Hhome & Hjoin) Hroot.
  destruct (ends_with "_fp" k) eqn:Hk.
  2:{ rewrite !validate_value_other by done. by intros [= ->]. }
  rewrite !validate_value_fp by done.
  destruct (Path_of v) as [p|]; [|done].
  destruct (expands p); [|done]. cbn zeta.
  set (q := under_root root (expanduser p)).
  assert (Hq : is_absolute q = true).
  { unfold q, under_root.
    destruct (is_absolute (expanduser p)) eqn:E; [done | by apply Hjoin]. }
  destruct (String.eqb k "output_fp").
  - intros [= <-]. cbn [Path_of]. unfold under_root.
    destruct (Hhome q Hq) as [-> ->]. by rewrite Hq.
  - destruct (path_exists q) eqn:Eq; [|done]. intros [= <-]. cbn [Path_of].
    unfold under_root. destruct (Hhome _ (Habs q)) as [-> ->].
    by rewrite (Habs q), (Hex q Eq), Hidem.
Qed.

Lemma validate_items_validated root S S' :
  path_laws → is_absolute root = true →
  validate_items root S = Ok S' → validated root S'.
Proof.
  intros Hlaws Hroot. unfold validate_items, validated.
  revert S'. induction S as [|[k v] S IH]; intros S'; cbn.
  - intros [= <-]. constructor.
  - rewrite !result_bind_unfold.
    destruct (validate_value root k v) as [v'|] eqn:Hv; [|done].
    destruct (map_items (validate_value root) S) as [r|]; [|done].
    intros [= <-]. constructor; [|by apply IH].
    cbn. by eapply validate_value_twice.
Qed.

Lemma validated_items root S : validated root S → validate_items root S = Ok S.
Proof.
  unfold validate_items, validated.
  induction 1 as [|[k v] S Hv _ IH]; cbn; [done|].
  cbn in Hv. by rewrite Hv, result_bind_unfold, IH.
Qed.

Lemma validated_checked root sec ds :
  validated root ds → validated root (checked_section root sec ds).
Proof.
  intros Hv. unfold checked_section. destruct (String.eqb sec "all"); [|done].
  by apply Forall_dict_set.
Qed.

Lemma dict_set_NoDup {A} k (x : A) d : NoDup (keys d) → NoDup (keys (dict_set k x d)).
Proof.
  intros Hnd. destruct (decide (k ∈ keys d)) as [Hin|Hout].
  - by rewrite dict_set_keys.
  - rewrite dict_set_fresh by done. by apply NoDup_keys_snoc.
Qed.

Lemma dict_set_twice {A} k (x : A) d : dict_set k x (dict_set k x d) = dict_set k x d.
Proof. apply dict_set_same, dict_get_set_eq. Qed.

Lemma refs_from_lookup start names j :
  refs_from start names !! j = (λ k, (k, VRef (start + j))) <$> names !! j.
Proof.
  revert start j. induction names as [|k names IH]; intros start j; [done|].
  destruct j as [|j]; cbn.
  - by rewrite Nat.add_0_r.
  - rewrite IH. by replace (S start + j) with (start + S j) by lia.
Qed.

Lemma validate_all_validated root secs :
  Forall (λ sd, validated root sd.2) secs → validate_all root secs = Ok secs.
Proof.
  induction 1 as [|[sec ds] secs Hv _ IH]; cbn; [done|].
  cbn in Hv. by rewrite (validated_items _ _ Hv), result_bind_unfold, IH.
Qed.

Lemma validate_all_results root secs r :
  path_laws → is_absolute root = true →
  (∀ sec ds, (sec, ds) ∈ secs → NoDup (keys ds)) →
  validate_all root secs = Ok r →
  Forall (λ sd, validated root sd.2 ∧ NoDup (keys sd.2)) r.
Proof.
  intros Hlaws Hroot. revert r.
  induction secs as [|[sec ds] secs IH]; intros r Hnd; cbn.
  - intros [= <-]. constructor.
  - rewrite !result_bind_unfold.
    destruct (validate_items root ds) as [ds'|] eqn:Hv; [|done].
    destruct (validate_all root secs) as [r'|]; [|done].
    intros [= <-]. constructor.
    + split; [by eapply validate_items_validated|].
      change (NoDup (keys ds')).
      rewrite (map_items_keys _ _ _ Hv). apply (Hnd sec). left.
    + apply IH; [|done]. intros sec0 ds0 Hin. apply (Hnd sec0). by right.
Qed.

End Idempotence.

(** X20: validating a section that [validate_paths] has built, with the
    same absolute root, builds an equal section: the paths are already
    absolute, resolved and known to exist. *)
Theorem validate_paths_twice `{Env} (s : state) (l : loc) (S : dict)
    (root : Path) (r : value) (s1 : state) :
  path_laws →
  is_absolute root = true →
  heap s !! l = Some S →
  NoDup (keys S) →
  validate_paths (VRef l) root s = Ok (r, s1) →
  ∃ l1 S',
    r = VRef l1 ∧ heap s1 !! l1 = Some S'
    ∧ validate_paths r root s1
      = Ok (VRef (length (heap s1)),
            MkState (heap s1 ++ [S']) (stderr s1)).
Proof.
  intros Hlaws Hroot Hl Hnd.
  rewrite (validate_paths_run root l s S Hl Hnd).
  destruct (validate_items root S) as [S'|] eqn:Hv; [|done].
  intros [= <- <-]. exists (length (heap s)), S'. split; [done|].
  assert (Hl1 : heap (MkState (heap s ++ [S']) (stderr s)) !! length (heap s)
                = Some S').
  { cbn. by apply list_lookup_middle. }
  split; [done|].
  rewrite (validate_paths_run root _ _ S' Hl1).
  - by rewrite (validated_items _ _ (validate_items_validated _ _ _ Hlaws Hroot Hv)).
  - by rewrite (map_items_keys _ _ _ Hv).
Qed.

Section CheckTwice.
Context `{Env}.

(** The root of a configuration that has been checked verifies to
    itself. *)
Lemma root_verified da root :
  path_laws → cwd_laws →
  match dict_get "root" da with
  | Some v => verify v
  | None => Ok (Path_of_str getcwd)
  end = Ok root →
  is_absolute root = true
  ∧ verify (VAtom (APath root)) = Ok root.
Proof.
  intros (Habs & Hidem & Hex & _) (Hcabs & Hcex & Hcres).
  unfold verify. destruct (dict_get "root" da) as [v|].
  - rewrite result_bind_unfold. destruct (Path_of v) as [p|]; [|done].
    destruct (path_exists p) eqn:Ep; [|done]. intros [= <-].
    split; [apply Habs|]. cbn. by rewrite (Hex p Ep), Hidem.
  - intros [= <-]. split; [done|]. cbn. by rewrite Hcex, Hcres.
Qed.

Lemma sections_of_checked h n root (r : list (string * dict)) :
  (∀ j sec ds, r !! j = Some (sec, ds) →
     h !! (n + j) = Some (checked_section root sec ds)) →
  Forall (λ sd, NoDup (keys sd.2)) r →
  sections_of h (refs_from n (keys r))
    ((λ sd, (sd.1, checked_section root sd.1 sd.2)) <$> r).
Proof.
  revert n. induction r as [|[sec ds] r IH]; intros n Hh Hnd; [constructor|].
  apply Forall_cons in Hnd as [Hnd0 Hnd].
  cbn [keys fmap list_fmap refs_from fst snd]. constructor.
  - split; [done|]. exists n. split; [done|]. split.
    + rewrite <- (Nat.add_0_r n). by apply (Hh 0 sec ds).
    + unfold checked_section. destruct (String.eqb sec "all"); [|done].
      by apply dict_set_NoDup.
  - apply IH; [|done]. intros j sec0 ds0 Hj.
    replace (S n + j) with (n + S j) by lia. by apply (Hh (S j)).
Qed.

End CheckTwice.

(** X21: checking a configuration that [check_config] has returned
    gives an equal configuration: the same sections under the same
    keys, each with the same keys and values.  This rests on what
    [pathlib] grants for resolved and absolute paths, and on the working
    directory being named by its resolved path. *)
Theorem check_config_twice `{Env} (s : state) (c a : loc) (d da : dict)
    (r : value) (s1 : state) :
  path_laws →
  cwd_laws →
  heap s !! c = Some d →
  config_tree (heap s) d →
  dict_get "all" d = Some (VRef a) →
  heap s !! a = Some da →
  check_config (VRef c) s = Ok (r, s1) →
  ∃ c1 c2 s2 d1 d2,
    r = VRef c1
    ∧ check_config r s1 = Ok (VRef c2, s2)
    ∧ heap s1 !! c1 = Some d1
    ∧ heap s2 !! c2 = Some d2
    ∧ keys d1 = keys d
    ∧ keys d2 = keys d
    ∧ ∀ sec, sec ∈ keys d →
        ∃ l1 l2 D,
          dict_get sec d1 = Some (VRef l1) ∧ heap s1 !! l1 = Some D
          ∧ dict_get sec d2 = Some (VRef l2) ∧ heap s2 !! l2 = Some D.
Proof.
  intros Hlaws Hcwd Hc [Hnd Htree] Hall Ha Hrun.
  destruct (sections_of_exists _ _ Htree) as [secs Hsecs].
  pose proof (check_config_run s c d secs a da Hc Hnd Hsecs Hall Ha) as Hcr.
  destruct (match dict_get "root" da with Some v => verify v | None => _ end)
    as [root|x] eqn:Hroot; [|congruence].
  destruct (validate_all root secs) as [rs|x] eqn:Hrs; [|congruence]. clear Hcr.
  destruct (root_verified da root Hlaws Hcwd Hroot) as [Habs Hver].
  destruct (check_config_result s c d secs a da root rs Hc Hnd Hsecs Hall Ha
              Hroot Hrs) as (s1' & Hrun1 & _ & Hlen1 & _ & Hnew1 & Hsl1).
  rewrite Hrun1 in Hrun. injection Hrun as <- <-.
  set (n := length (heap s)) in *.
  assert (Hkrs : keys rs = keys d).
  { by rewrite (validate_all_keys _ _ _ Hrs), (sections_of_keys _ _ _ Hsecs). }
  assert (Hndr : NoDup (keys rs)) by (by rewrite Hkrs).
  assert (Hvals : Forall (λ sd, validated root sd.2 ∧ NoDup (keys sd.2)) rs).
  { eapply validate_all_results; [done..| |exact Hrs].
    intros sec ds Hin. apply list_elem_of_lookup in Hin as [j Hj].
    destruct (Forall2_lookup_r _ _ _ _ _ Hsecs Hj)
      as ([sec1 v1] & _ & _ & l & _ & _ & Hn). exact Hn. }
  (* the tree that was returned, as a configuration *)
  set (secs1 := (λ sd : string * dict,
                   (sd.1, checked_section root sd.1 sd.2)) <$> rs).
  assert (Hk1 : keys secs1 = keys rs).
  { unfold secs1, keys. rewrite <- list_fmap_compose.
    apply list_fmap_ext. by intros _ [sec ds] _. }
  assert (Hsecs1 : sections_of (heap s1') (refs_from (n + 1) (keys rs)) secs1).
  { apply sections_of_checked.
    - intros j sec ds Hj. rewrite <- Nat.add_assoc, Nat.add_assoc.
      exact (Hsl1 j sec ds Hj).
    - eapply Forall_impl; [exact Hvals|]. by intros ? [_ ?]. }
  destruct (dict_get_lookup _ _ _ Hall) as (i & Hi & Hki0).
  assert (Hki : keys rs !! i = Some "all") by (by rewrite Hkrs).
  assert (Hri : ∃ dall, rs !! i = Some ("all", dall)).
  { unfold keys in Hki. rewrite list_lookup_fmap in Hki.
    destruct (rs !! i) as [[sec ds]|]; [|done]. injection Hki as ->. eauto. }
  destruct Hri as [dall Hri].
  assert (Hroot1 :
    match dict_get "root" (checked_section root "all" dall) with
    | Some v => verify v
    | None => Ok (Path_of_str getcwd)
    end = Ok root).
  { unfold checked_section. cbn. by rewrite dict_get_set_eq. }
  assert (Hrs1 : validate_all root secs1 = Ok secs1).
  { apply validate_all_validated. unfold secs1. apply Forall_fmap.
    eapply Forall_impl; [exact Hvals|].
    intros [sec ds] [Hv _]. cbn. by apply validated_checked. }
  destruct (check_config_result s1' n (refs_from (n + 1) (keys rs)) secs1
              (n + 1 + i) (checked_section root "all" dall) root secs1)
    as (s2 & Hrun2 & _ & _ & _ & Hnew2 & Hsl2).
  { exact Hnew1. }
  { by rewrite refs_from_keys. }
  { exact Hsecs1. }
  { exact (dict_get_refs_from _ _ _ _ Hndr Hki). }
  { exact (Hsl1 i "all" dall Hri). }
  { exact Hroot1. }
  { exact Hrs1. }
  exists n, (length (heap s1')), s2,
    (refs_from (n + 1) (keys rs)),
    (refs_from (length (heap s1') + 1) (keys secs1)).
  split; [done|]. split; [exact Hrun2|].
  split; [exact Hnew1|]. split; [exact Hnew2|].
  split; [by rewrite refs_from_keys|].
  split; [by rewrite refs_from_keys, Hk1|].
  intros sec Hsec. rewrite <- Hkrs in Hsec.
  apply list_elem_of_lookup in Hsec as [j Hj].
  assert (Hrj : ∃ ds, rs !! j = Some (sec, ds)).
  { unfold keys in Hj. rewrite list_lookup_fmap in Hj.
    destruct (rs !! j) as [[sec0 ds]|]; [|done]. injection Hj as ->. eauto. }
  destruct Hrj as [ds Hrj].
  assert (Hsj : secs1 !! j = Some (sec, checked_section root sec ds)).
  { unfold secs1. by rewrite list_lookup_fmap, Hrj. }
  exists (n + 1 + j), (length (heap s1') + 1 + j), (checked_section root sec ds).
  split; [exact (dict_get_refs_from _ _ _ _ Hndr Hj)|].
  split; [exact (Hsl1 j sec ds Hrj)|].
  split.
  { apply dict_get_refs_from; [by rewrite Hk1 | by rewrite Hk1]. }
  rewrite (Hsl2 j sec _ Hsj). f_equal.
  unfold checked_section. destruct (String.eqb sec "all"); [|done].
  apply dict_set_twice.
Qed.
(** ** Updating a configuration *)

Section UpdateFacts.
Context `{Env}.
Variable load_target : string → M value.
Variable load_new : string → result pyval.

Lemma update_lenient_run config_str new s t s1 s2 :
  load_target config_str s = Ok (VRef t, s1) →
  _update_dict new (VRef t) s1 = Ok (VRef t, s2) →
  update load_target load_new config_str new false s
  = match extension_config with
    | Err e => Err e
    | Ok text =>
        match load_new text with
        | Err e => Err e
        | Ok sbx_config =>
            if truthy_data sbx_config
            then _update_dict sbx_config (VRef t) s2
            else Ok (VRef t, s2)
        end
    end.
Proof.
  intros Hload Hnew. unfold update.
  rewrite bind_unfold, Hload. cbn match.
  rewrite bind_unfold, Hnew, bind_lift.
  destruct extension_config as [text|]; [|done].
  rewrite bind_lift. destruct (load_new text) as [sbx_config|]; [|done].
  by destruct (truthy_data sbx_config).
Qed.

End UpdateFacts.

(** X23: the strict update does not look at the extensions, the lenient
    one does: when they cannot be gathered (no extensions directory, an
    unreadable [config.yml]), the lenient update raises that error
    although the document loaded and [new] merged, while the strict
    update is the strict merge of [new] into the document. *)
Theorem update_strict_skips_extensions `{Env}
    (load_target : string → M value) (load_new : string → result pyval)
    (config_str : string) (new : pyval) (s s1 s2 : state) (t : loc)
    (e : exn) :
  load_target config_str s = Ok (VRef t, s1) →
  _update_dict new (VRef t) s1 = Ok (VRef t, s2) →
  extension_config = Err e →
  update load_target load_new config_str new false s = Err e
  ∧ update load_target load_new config_str new true s
    = _update_dict_strict new (VRef t) s1.
Proof.
  intros Hload Hnew Hext. split.
  - by rewrite (update_lenient_run _ _ _ _ _ _ _ _ Hload Hnew), Hext.
  - unfold update. by rewrite bind_unfold, Hload.
Qed.

(** X24: in the lenient update the extensions come last: the document,
    loaded as a tree, is merged with [new] and then with the
    configuration of the extensions, so that a key the extensions map to
    a scalar or a sequence holds that value whatever [new] gave it; when
    the text of the extensions loads as nothing ([None], an empty
    mapping), the update is the merge of [new] alone. *)
Theorem update_extensions_last `{Env}
    (load_target : string → M value) (load_new : string → result pyval)
    (config_str text : string) (T new : list (string * pyval))
    (s s1 : state) (t : loc) (F : list loc) :
  load_target config_str s = Ok (VRef t, s1) →
  repr (heap s1) (PMap T) (VRef t) F →
  NoDup F →
  distinct_keys (PMap new) →
  compatible (PMap T) (Some (PMap new)) →
  extension_config = Ok text →
  (∀ ext,
     load_new text = Ok (PMap ext) → ext ≠ [] →
     distinct_keys (PMap ext) →
     compatible (PMap (merge_lenient T new)) (Some (PMap ext)) →
     ∃ s' F',
       update load_target load_new config_str (PMap new) false s
       = Ok (VRef t, s')
       ∧ repr (heap s') (PMap (merge_lenient (merge_lenient T new) ext))
              (VRef t) F'
       ∧ ∀ k v x, dict_get k ext = Some v → non_mapping v = Some x →
           dict_get k (merge_lenient (merge_lenient T new) ext) = Some v)
  ∧ (∀ nothing,
       load_new text = Ok nothing → truthy_data nothing = false →
       ∃ s' F',
         update load_target load_new config_str (PMap new) false s
         = Ok (VRef t, s')
         ∧ _update_dict (PMap new) (VRef t) s1 = Ok (VRef t, s')
         ∧ repr (heap s') (PMap (merge_lenient T new)) (VRef t) F').
Proof.
  intros Hload Hrep HndF Hdist Hc Htext.
  pose proof (lenient_spec (PMap new) new eq_refl Hdist _ _ _ s1 Hrep HndF)
    as H1.
  destruct (_update_dict (PMap new) (VRef t) s1) as [[r s2]|e] eqn:Hnew;
    [|done].
  destruct H1 as (-> & _ & _ & _ & _ & F1 & Hrep1 & Hnd1 & _).
  rewrite lenient_slot_map in Hrep1.
  pose proof (update_lenient_run load_target load_new config_str (PMap new)
                s t s1 s2 Hload Hnew) as Hrun.
  rewrite Htext in Hrun. split.
  - intros ext Hext Hne Hdext Hcext. rewrite Hext in Hrun.
    assert (truthy_data (PMap ext) = true) as Ht by (by destruct ext).
    rewrite Ht in Hrun.
    pose proof (lenient_spec (PMap ext) ext eq_refl Hdext _ _ _ s2 Hrep1 Hnd1)
      as H2.
    destruct (_update_dict (PMap ext) (VRef t) s2) as [[r s3]|e] eqn:Hsbx;
      [|done].
    destruct H2 as (-> & _ & _ & _ & _ & F2 & Hrep2 & _).
    exists s3, F2. split; [done|]. split; [exact Hrep2|].
    intros k v x Hk Hv. rewrite dict_get_merge_lenient, Hk.
    destruct (dict_get k (merge_lenient T new)) as [tk|]; [|done].
    by rewrite (lenient_slot_leaf _ _ _ Hv).
  - intros nothing Hnone Hf. rewrite Hnone, Hf in Hrun.
    exists s2, F1. by repeat split.
Qed.
(** * The properties on the sample inputs *)

Import Sample Inputs.

Lemma validate_paths_new_section_witness :
  heap config_store !! 1 = Some all_section
  ∧ NoDup (keys all_section)
  ∧ (∃ r s', validate_paths (VRef 1) (MkPath "/work") config_store = Ok (r, s'))
  ∧ heap homeless_store !! 0 = Some homeless_section
  ∧ NoDup (keys homeless_section)
  ∧ expands (Path_of_str "~x") = false
  ∧ validate_paths (VRef 0) (MkPath "/work") homeless_store = Err RuntimeError.
Proof.
  assert (H1 : heap config_store !! 1 = Some all_section) by reflexivity.
  assert (H2 : NoDup (keys all_section)) by (apply NoDup_by_decide; vm_compute; reflexivity).
  assert (H3 : NoDup (keys homeless_section)) by (apply NoDup_by_decide; vm_compute; reflexivity).
  split; [exact H1|]. split; [exact H2|].
  split; [|split; [reflexivity|split; [exact H3|split; [reflexivity|]]]].
  2:{ exact (proj2 (proj2 (proj2
        (validate_paths_new_section (H := Sample.env) homeless_store 0
           homeless_section (MkPath "/work") eq_refl H3))) "~x" eq_refl eq_refl). }
  apply (validate_paths_new_section config_store 1 all_section (MkPath "/work") H1 H2).
  intros k v Hin Hk.
  apply elem_of_cons in Hin as [[= -> ->]|Hin]; [discriminate Hk|].
  apply elem_of_cons in Hin as [[= -> ->]|Hin].
  { exists (MkPath "out"). split; [reflexivity|]. split; [reflexivity|].
    intros Hne. by destruct Hne. }
  apply elem_of_cons in Hin as [[= -> ->]|Hin]; [discriminate Hk|].
  by apply elem_of_nil in Hin.
Defined.

Lemma config_store_tree : config_tree (heap config_store) cfg.
Proof.
  split; [apply NoDup_by_decide; vm_compute; reflexivity|].
  intros sec v Hin.
  apply elem_of_cons in Hin as [[= -> ->]|Hin].
  { exists 1, all_section. repeat split. apply NoDup_by_decide. vm_compute. reflexivity. }
  apply elem_of_cons in Hin as [[= -> ->]|Hin].
  { exists 2, qc_section. repeat split. apply NoDup_by_decide. vm_compute. reflexivity. }
  by apply elem_of_nil in Hin.
Defined.

Lemma check_config_resolves_root_witness :
  heap config_store !! 0 = Some cfg
  ∧ config_tree (heap config_store) cfg
  ∧ dict_get "all" cfg = Some (VRef 1)
  ∧ heap config_store !! 1 = Some all_section
  ∧ ∀ r s', check_config (VRef 0) config_store = Ok (r, s') →
      ∃ n d', r = VRef n ∧ heap s' !! n = Some d' ∧ keys d' = keys cfg.
Proof.
  split; [reflexivity|]. split; [exact config_store_tree|].
  split; [reflexivity|]. split; [reflexivity|].
  intros r s' Hrun.
  pose proof (check_config_resolves_root config_store 0 1 cfg all_section
                eq_refl config_store_tree eq_refl eq_refl) as Ht.
  hnf in Ht. destruct Ht as [_ Ht].
  destruct (Ht r s' Hrun) as (n & d' & Hr & _ & _ & Hn & Hk & _).
  exists n, d'. auto.
Defined.



Lemma process_databases_index_witness :
  heap db_store !! 0 = Some db_spec
  ∧ dict_get "root_fp" db_spec = Some (VAtom (AStr "/data/db"))
  ∧ Path_of (VAtom (AStr "/data/db")) = Ok (MkPath "/data/db")
  ∧ group_of (heap db_store) db_spec "nucleotide" nucleotide
  ∧ group_of (heap db_store) db_spec "protein" []
  ∧ ∃ n ln lp s',
      process_databases (VRef 0) db_store = Ok (VRef n, s')
      ∧ heap s' !! n = Some [("nucl", VRef ln); ("prot", VRef lp)]
      ∧ heap s' !! ln = Some [("db1", VAtom (AStr "/data/db/n/db1.fa"))]
      ∧ heap s' !! lp = Some [].
Proof.
  assert (Hn : group_of (heap db_store) db_spec "nucleotide" nucleotide).
  { right. exists 1. repeat split. apply NoDup_by_decide. vm_compute. reflexivity. }
  assert (Hp : group_of (heap db_store) db_spec "protein" []) by (by left).
  do 3 (split; [reflexivity|]). split; [exact Hn|]. split; [exact Hp|].
  destruct (process_databases_index (H := env) db_store 0 db_spec (VAtom (AStr "/data/db"))
              (MkPath "/data/db") nucleotide [] eq_refl eq_refl eq_refl Hn Hp)
    as (n & ln & lp & s' & Hrun & _ & _ & Hdbs & Hln & Hlp).
  exists n, ln, lp, s'. auto.
Defined.

Lemma check_compatibility_majors_witness :
  heap config_store !! 0 = Some cfg
  ∧ dict_get "all" cfg = Some (VRef 1)
  ∧ heap config_store !! 1 = Some all_section
  ∧ SemVer.parse __version__ = Some (SemVer.Make 4 0 0 [] [])
  ∧ check_compatibility (VRef 0) config_store = Ok ((4, 3)%Z, config_store).
Proof.
  do 4 (split; [reflexivity|]).
  exact (proj2 (proj2 (check_compatibility_majors config_store 0 1 cfg all_section
                         (SemVer.Make 4 0 0 [] []) eq_refl eq_refl eq_refl eq_refl))
               eq_refl).
Defined.

Lemma extension_config_concatenates_witness :
  listdir extensions_dir = Ok ["README.md"; "sbx_a"; "sbx_b"; "sbx_c"]
  ∧ (∀ sbx, sbx ∈ ["README.md"; "sbx_a"; "sbx_b"; "sbx_c"] → readable_entry sbx)
  ∧ extension_config
    = Ok (String "010" "sbx_a: {n: 1}" +:+ String "010" "sbx_c: {n: 3}").
Proof.
  assert (Hall : ∀ sbx, sbx ∈ ["README.md"; "sbx_a"; "sbx_b"; "sbx_c"] → readable_entry sbx).
  { intros sbx Hin.
    apply elem_of_cons in Hin as [->|Hin]; [by left|].
    apply elem_of_cons in Hin as [->|Hin].
    { right. exists ["config.yml"; "rules.smk"]. split; [reflexivity|]. intros _. by eexists. }
    apply elem_of_cons in Hin as [->|Hin].
    { right. exists ["rules.smk"]. split; [reflexivity|].
      intros Hin. exfalso. apply elem_of_cons in Hin as [[=]|Hin]. by apply elem_of_nil in Hin. }
    apply elem_of_cons in Hin as [->|Hin].
    { right. exists ["config.yml"]. split; [reflexivity|]. intros _. by eexists. }
    by apply elem_of_nil in Hin. }
  split; [reflexivity|]. split; [exact Hall|].
  exact (proj1 (extension_config_concatenates
                  ["README.md"; "sbx_a"; "sbx_b"; "sbx_c"] eq_refl Hall)).
Defined.

Lemma reads_well_formed : Forall well_formed reads.
Proof.
  repeat constructor.
  - intros _. exists [(0, 100)%Z], 100%Z. repeat split; done.
  - intros _. exists [(4, 60); (0, 40)]%Z, 40%Z. repeat split; done.
  - intros [=].
Defined.

Lemma get_mapped_reads_filters_witness :
  Forall well_formed reads
  ∧ get_mapped_reads reads 0.75%float 0.5%float = (["r1"], None).
Proof.
  split; [exact reads_well_formed|].
  exact (proj1 (proj2 (get_mapped_reads_filters reads 0.75%float 0.5%float))
           reads_well_formed).
Defined.

(** C9, at a record aligned with a deletion: the edit distance 10 is
    divided by the reference span 30, not by the aligned length 20, so the
    record passes the identity threshold 0.625 that [1 - 10/20] does not
    pass. *)
Lemma identity_over_reference_span :
  get_mapped_reads [gapped_read] 0.625%float 0.5%float = (["r4"], None)
  ∧ aligned_fraction gapped_read = 1%float
  ∧ claimed_percent_identity gapped_read = 0.5%float
  ∧ List.filter (claimed_selected 0.625%float 0.5%float) [gapped_read] = [].
Proof. repeat split; reflexivity. Qed.

Lemma merge_store_tree : repr (heap merge_store) (PMap merge_tree) (VRef 0) [0; 1].
Proof.
  eapply repr_map; [reflexivity|apply NoDup_by_decide; vm_compute; reflexivity|].
  apply (repr_cons _ _ _ _ _ _ [1] []).
  - eapply repr_map; [reflexivity|apply NoDup_by_decide; vm_compute; reflexivity|].
    apply (repr_cons _ _ _ _ _ _ [] []); constructor.
  - apply (repr_cons _ _ _ _ _ _ [] []); [constructor|].
    apply (repr_cons _ _ _ _ _ _ [] []); constructor.
Defined.

Lemma patch_distinct : distinct_keys (PMap patch).
Proof.
  constructor; [apply NoDup_by_decide; vm_compute; reflexivity|].
  apply Forall_cons. split.
  - constructor; [apply NoDup_by_decide; vm_compute; reflexivity|].
    apply Forall_cons. split; [constructor|].
    apply Forall_cons. split; constructor.
  - apply Forall_cons. split; [constructor|].
    apply Forall_cons. split; constructor.
Defined.

Lemma patch_compatible : compatible (PMap merge_tree) (Some (PMap patch)).
Proof.
  constructor. repeat constructor.
Defined.

Lemma strict_merge_keeps_key_set_witness :
  heap merge_store !! 0
  = Some [("a", VRef 1); ("b", VAtom (AInt 2)); ("c", VAtom (AInt 3))]
  ∧ repr (heap merge_store) (PMap merge_tree) (VRef 0) [0; 1]
  ∧ NoDup [0; 1]
  ∧ distinct_keys (PMap patch)
  ∧ ∃ s', _update_dict_strict (PMap patch) (VRef 0) merge_store
          = Ok (VRef 0, s').
Proof.
  assert (Hnd : NoDup [0; 1]).
  { apply NoDup_cons.
    split; [by intros [=]%list_elem_of_singleton | apply NoDup_singleton]. }
  split; [reflexivity|]. split; [exact merge_store_tree|].
  split; [exact Hnd|]. split; [exact patch_distinct|].
  exact (proj1 (proj2 (strict_merge_keeps_key_set merge_store 0 _ patch eq_refl)
                      merge_tree [0; 1] merge_store_tree Hnd patch_distinct)
               patch_compatible).
Defined.

Lemma merge_mapping_over_scalar_witness :
  heap merge_store !! 0
  = Some [("a", VRef 1); ("b", VAtom (AInt 2)); ("c", VAtom (AInt 3))]
  ∧ (∃ e, _update_dict (PMap [("b", PMap [("y", PAtom (AInt 1))])]) (VRef 0)
            merge_store = Err e)
  ∧ (∃ e, _update_dict_strict (PMap [("b", PMap [("y", PAtom (AInt 1))])])
            (VRef 0) merge_store = Err e).
Proof.
  split; [reflexivity|].
  exact (proj1 (merge_mapping_over_scalar merge_store 0 _ "b" (VAtom (AInt 2))
                  eq_refl eq_refl eq_refl)
           [("b", PMap [("y", PAtom (AInt 1))])] [("y", PAtom (AInt 1))]
           eq_refl ltac:(discriminate)).
Defined.

(** C10, at [{'b': {}}] over a target whose [b] is [2]: both merges
    return, and the target is as it was. *)
Lemma empty_mapping_over_scalar_returns :
  _update_dict (PMap [("b", PMap [])]) (VRef 0) merge_store
  = Ok (VRef 0, merge_store)
  ∧ _update_dict_strict (PMap [("b", PMap [])]) (VRef 0) merge_store
    = Ok (VRef 0, merge_store).
Proof. split; reflexivity. Qed.
(** * The further properties on sample inputs *)

Import Cases.

Lemma plain_store_tree : config_tree (heap plain_store) plain_cfg.
Proof.
  split; [apply NoDup_by_decide; vm_compute; reflexivity|].
  intros sec v Hin.
  apply elem_of_cons in Hin as [[= -> ->]|Hin].
  { exists 1, plain_all. repeat split. apply NoDup_by_decide. vm_compute. reflexivity. }
  apply elem_of_cons in Hin as [[= -> ->]|Hin].
  { exists 2, plain_qc. repeat split. apply NoDup_by_decide. vm_compute. reflexivity. }
  by apply elem_of_nil in Hin.
Defined.

Lemma output_subdir_of_checked_witness :
  check_config (VRef 0) plain_store = Ok (VRef 3, checked_store)
  ∧ output_subdir no_division (VRef 3) "qc" checked_store
    = Ok (VAtom (APath (MkPath "/data/out/qc")), checked_store).
Proof.
  assert (Hrun : check_config (VRef 0) plain_store = Ok (VRef 3, checked_store))
    by reflexivity.
  split; [exact Hrun|].
  destruct (output_subdir_of_checked (H := Sample.env) no_division plain_store 0 1 2
              plain_cfg plain_all plain_qc "qc"
              (VAtom (AStr "out")) (VAtom (AStr "qc"))
              (MkPath "out") (MkPath "qc") (VRef 3) checked_store
              eq_refl plain_store_tree eq_refl eq_refl eq_refl eq_refl
              eq_refl eq_refl eq_refl eq_refl Hrun) as (root & Hroot & Hout).
  injection Hroot as <-. exact Hout.
Defined.

Lemma output_subdir_raw_config_witness :
  heap plain_store !! 0 = Some plain_cfg
  ∧ dict_get "all" plain_cfg = Some (VRef 1)
  ∧ heap plain_store !! 1 = Some plain_all
  ∧ output_subdir no_division (VRef 0) "qc" plain_store = Err TypeError
  ∧ output_subdir no_division (VRef 0) "mapping" plain_store
    = Err (KeyError "mapping").
Proof.
  pose proof (output_subdir_raw_config (H := Sample.env) no_division plain_store 0 1
                plain_cfg plain_all) as Ht.
  split; [reflexivity|]. split; [reflexivity|]. split; [reflexivity|]. split.
  - exact (proj2 (proj2 (proj2 (Ht "qc" eq_refl eq_refl eq_refl)))
             2 plain_qc "out" "qc" eq_refl eq_refl eq_refl eq_refl).
  - exact (proj1 (proj2 (Ht "mapping" eq_refl eq_refl eq_refl))
             eq_refl eq_refl).
Defined.

Lemma no_all_section_witness :
  heap headless_store !! 0 = Some [("qc", VRef 1)]
  ∧ dict_get "all" [("qc", VRef 1)] = (None : option value)
  ∧ check_config (VRef 0) headless_store = Err (KeyError "all")
  ∧ check_compatibility (VRef 0) headless_store = Err (KeyError "all")
  ∧ output_subdir no_division (VRef 0) "qc" headless_store
    = Err (KeyError "all").
Proof.
  split; [reflexivity|]. split; [reflexivity|].
  exact (no_all_section (H := Sample.env) no_division headless_store 0 [("qc", VRef 1)] "qc"
           eq_refl eq_refl).
Defined.

Lemma validate_paths_first_error_witness :
  holey_section
  = [("threads", VAtom (AInt 4)); ("reads_fp", VAtom (AStr "reads"))]
    ++ ("adapter_fp", VAtom ANone) :: [("output_fp", VAtom (AStr "out"))]
  ∧ NoDup (keys holey_section)
  ∧ validate_paths (VRef 0) (MkPath "/data") (MkState [holey_section] [])
    = Err TypeError.
Proof.
  assert (Hnd : NoDup (keys holey_section))
    by (apply NoDup_by_decide; vm_compute; reflexivity).
  split; [reflexivity|]. split; [exact Hnd|].
  apply (proj2 (validate_paths_first_error (H := Sample.env) (MkState [holey_section] []) 0
                  [("threads", VAtom (AInt 4)); ("reads_fp", VAtom (AStr "reads"))]
                  [("output_fp", VAtom (AStr "out"))]
                  "adapter_fp" (VAtom ANone) (MkPath "/data")
                  eq_refl Hnd
                  ltac:(intros k0 v0 Hin;
                        apply elem_of_cons in Hin as [[= -> ->]|Hin];
                        [by eexists|];
                        apply elem_of_cons in Hin as [[= -> ->]|Hin];
                        [by eexists|];
                        by apply elem_of_nil in Hin)));
    reflexivity.
Defined.

Lemma validate_paths_absolute_witness :
  NoDup (keys absolute_section)
  ∧ validate_paths (VRef 0) (MkPath "/data") (MkState [absolute_section] [])
    = validate_paths (VRef 0) (MkPath "/elsewhere")
        (MkState [absolute_section] []).
Proof.
  assert (Hnd : NoDup (keys absolute_section))
    by (apply NoDup_by_decide; vm_compute; reflexivity).
  split; [exact Hnd|].
  apply (validate_paths_absolute (H := Sample.env) (MkState [absolute_section] []) 0
           absolute_section (MkPath "/data") (MkPath "/elsewhere") eq_refl Hnd).
  intros k v Hin Hk.
  apply elem_of_cons in Hin as [[= -> ->]|Hin].
  { exists (MkPath "/data/reads"). by split. }
  apply elem_of_cons in Hin as [[= -> ->]|Hin].
  { exists (MkPath "~"). by split. }
  apply elem_of_cons in Hin as [[= -> ->]|Hin]; [discriminate Hk|].
  by apply elem_of_nil in Hin.
Defined.

Lemma check_config_section_not_mapping_witness :
  heap hollow_store !! 0
  = Some ([("all", VRef 1)] ++ ("qc", VAtom ANone) :: [])
  ∧ check_config (VRef 0) hollow_store = Err AttributeError.
Proof.
  split; [reflexivity|].
  apply (check_config_section_not_mapping (H := Sample.env) hollow_store 0 1
           [("all", VRef 1)] [] plain_all "qc" (VAtom ANone) (MkPath "/data")
           eq_refl
           ltac:(apply NoDup_by_decide; vm_compute; reflexivity)
           eq_refl eq_refl eq_refl).
  - intros sec0 v0 Hin.
    apply elem_of_cons in Hin as [[= -> ->]|Hin];
      [|by apply elem_of_nil in Hin].
    exists 1, plain_all. split; [done|]. split; [done|].
    split; [apply NoDup_by_decide; vm_compute; reflexivity|]. by eexists.
  - reflexivity.
Defined.

Lemma check_compatibility_invalid_version_witness :
  heap versioned_store !! 1 = Some [("version", VAtom (AStr "3.2"))]
  ∧ SemVer.ascii_only "3.2" = true
  ∧ SemVer.parse "3.2" = None
  ∧ SemVer.parse ("1.2.3" +:+ String "010" "") = Some (SemVer.Make 1 2 3 [] [])
  ∧ check_compatibility (VRef 0) versioned_store
    = Err (ValueError "Invalid version string: '3.2'").
Proof.
  split; [reflexivity|]. split; [reflexivity|]. split; [reflexivity|].
  split; [reflexivity|].
  exact (proj1 (check_compatibility_invalid_version (H := Sample.env) versioned_store 0 1
                  [("all", VRef 1)] [("version", VAtom (AStr "3.2"))]
                  eq_refl eq_refl eq_refl)
           "3.2" eq_refl eq_refl eq_refl).
Defined.

Lemma process_databases_root_required_witness :
  heap rootless_spec !! 0 = Some [("nucleotide", VRef 1)]
  ∧ process_databases (VRef 0) rootless_spec = Err (KeyError "root_fp")
  ∧ heap empty_root_spec !! 0 = Some [("root_fp", VAtom ANone)]
  ∧ process_databases (VRef 0) empty_root_spec = Err TypeError.
Proof.
  split; [reflexivity|]. split.
  - exact (proj1 (process_databases_root_required (H := Sample.env)
                    rootless_spec 0 [("nucleotide", VRef 1)] eq_refl) eq_refl).
  - split; [reflexivity|].
    exact (proj2 (process_databases_root_required (H := Sample.env)
                    empty_root_spec 0 [("root_fp", VAtom ANone)] eq_refl)
             (VAtom ANone) eq_refl eq_refl).
Defined.

Lemma process_databases_false_groups_witness :
  expands (MkPath "/data/db") = true
  ∧ path_exists (expanduser (MkPath "/data/db")) = true
  ∧ falsy (heap empty_groups_spec) (VAtom ANone) = true
  ∧ falsy (heap empty_groups_spec) (VRef 1) = true
  ∧ process_databases (VRef 0) empty_groups_spec
    = Ok (VRef 4,
          MkState (heap empty_groups_spec
                   ++ [[]; []; [("nucl", VRef 2); ("prot", VRef 3)]]) []).
Proof.
  split; [reflexivity|].
  split; [reflexivity|]. split; [reflexivity|]. split; [reflexivity|].
  exact (process_databases_false_groups (H := Sample.env) empty_groups_spec 0
           _ (VAtom (AStr "/data/db")) (MkPath "/data/db")
           eq_refl eq_refl eq_refl eq_refl eq_refl eq_refl eq_refl).
Defined.

Lemma process_databases_bad_group_witness :
  falsy (heap single_path_spec) (VAtom ANone) = true
  ∧ falsy (heap single_path_spec) (VAtom (AStr "p.fa")) = false
  ∧ process_databases (VRef 0) single_path_spec = Err AttributeError
  ∧ pathlike (VAtom ANone) = false
  ∧ process_databases (VRef 0) empty_entry_spec = Err TypeError.
Proof.
  split; [reflexivity|]. split; [reflexivity|]. split.
  - exact (proj1 (process_databases_bad_group (H := Sample.env)
                    single_path_spec 0 _ (VAtom (AStr "/data/db"))
                    (MkPath "/data/db") "protein"
                    eq_refl eq_refl eq_refl eq_refl eq_refl
                    (or_intror (conj eq_refl eq_refl)))
             eq_refl eq_refl).
  - split; [reflexivity|].
    exact (proj2 (process_databases_bad_group (H := Sample.env)
                    empty_entry_spec 0 _ (VAtom (AStr "/data/db"))
                    (MkPath "/data/db") "nucleotide"
                    eq_refl eq_refl eq_refl eq_refl eq_refl (or_introl eq_refl))
             1 [("db1", VAtom (AStr "a.fa"))] [] "db2" (VAtom ANone)
             eq_refl eq_refl
             ltac:(repeat constructor) eq_refl).
Defined.

Lemma extension_config_errors_witness :
  listdir (Env := listing_env no_listing Sample.sample_read_text)
    (MkPath "/work/extensions") = Err OSError
  ∧ extension_config (H := listing_env no_listing Sample.sample_read_text)
    = Err OSError
  ∧ listdir (Env := listing_env locked_listing Sample.sample_read_text)
      (MkPath "/work/extensions") = Ok ([] ++ "sbx_a" :: ["sbx_x"])
  ∧ extension_config (H := listing_env locked_listing Sample.sample_read_text)
    = Err OSError.
Proof.
  split; [reflexivity|]. split.
  - exact (proj1 (extension_config_errors
                    (H := listing_env no_listing Sample.sample_read_text))
             OSError eq_refl).
  - split; [reflexivity|].
    apply (proj2 (extension_config_errors
                    (H := listing_env locked_listing Sample.sample_read_text))
             ["sbx_a"] "sbx_x" [] OSError eq_refl).
    + intros x [= ->]%list_elem_of_singleton. right.
      exists ["config.yml"]. split; [reflexivity|]. intros _.
      exists "sbx_a: {n: 1}". reflexivity.
    + left. split; [reflexivity | discriminate].
Defined.

Lemma get_mapped_reads_stops_witness :
  Forall well_formed reads
  ∧ get_mapped_reads (reads ++ bare_read :: reads) 0.75%float 0.5%float
    = (["r1"], Some TypeError)
  ∧ get_mapped_reads (reads ++ null_read :: reads) 0.75%float 0.5%float
    = (["r1"], Some ZeroDivisionError).
Proof.
  split; [exact reads_well_formed|]. split.
  - exact (proj1 (get_mapped_reads_stops reads reads bare_read
                    0.75%float 0.5%float reads_well_formed eq_refl) eq_refl).
  - exact (proj2 (get_mapped_reads_stops reads reads null_read
                    0.75%float 0.5%float reads_well_formed eq_refl)
             [(2, 10)%Z] eq_refl eq_refl eq_refl eq_refl).
Defined.

Lemma get_mapped_reads_short_circuit_witness :
  gt (aligned_fraction short_read) 0.5%float = false
  ∧ alen short_read = None
  ∧ get_mapped_reads [short_read; MkRead true "r7" None None None 0]
      0.75%float 0.5%float = ([], None).
Proof.
  split; [reflexivity|]. split; [reflexivity|].
  apply get_mapped_reads_short_circuit.
  apply Forall_cons. split.
  - right. exists [(4, 90); (0, 10)]%Z. repeat split; done.
  - apply Forall_cons. split; [by left | constructor].
Defined.

Lemma get_mapped_reads_monotone_witness :
  Forall well_formed reads
  ∧ PrimFloat.leb 0.5%float 0.75%float = true
  ∧ PrimFloat.leb 0.25%float 0.5%float = true
  ∧ sublist (get_mapped_reads reads 0.75%float 0.5%float).1
            (get_mapped_reads reads 0.5%float 0.25%float).1.
Proof.
  split; [exact reads_well_formed|]. split; [reflexivity|].
  split; [reflexivity|].
  exact (get_mapped_reads_monotone reads 0.75%float 0.5%float 0.5%float
           0.25%float reads_well_formed eq_refl eq_refl).
Defined.

Lemma nodup_01 : NoDup [0; 1].
Proof.
  apply NoDup_cons.
  split; [by intros [=]%list_elem_of_singleton | apply NoDup_singleton].
Defined.

Lemma lenient_merge_tree_witness :
  repr (heap merge_store) (PMap merge_tree) (VRef 0) [0; 1]
  ∧ NoDup [0; 1]
  ∧ distinct_keys (PMap patch)
  ∧ compatible (PMap merge_tree) (Some (PMap patch))
  ∧ (∃ s', _update_dict (PMap patch) (VRef 0) merge_store = Ok (VRef 0, s'))
  ∧ merge_lenient merge_tree patch
    = [("a", PMap [("x", PAtom (AInt 10)); ("z", PAtom (AInt 5))]);
       ("b", PAtom (AInt 20)); ("c", PAtom (AInt 3)); ("q", PAtom (AInt 1))].
Proof.
  split; [exact merge_store_tree|]. split; [exact nodup_01|].
  split; [exact patch_distinct|]. split; [exact patch_compatible|].
  split; [|reflexivity].
  exact (proj1 (lenient_merge_tree merge_store 0 merge_tree patch [0; 1]
                  merge_store_tree nodup_01 patch_distinct)
           patch_compatible).
Defined.

Lemma lenient_merge_into_empty_witness :
  heap (MkState [[]] []) !! 0 = Some []
  ∧ distinct_keys (PMap patch)
  ∧ ∃ s' F',
      _update_dict (PMap patch) (VRef 0) (MkState [[]] []) = Ok (VRef 0, s')
      ∧ repr (heap s') (PMap patch) (VRef 0) F'.
Proof.
  split; [reflexivity|]. split; [exact patch_distinct|].
  destruct (lenient_merge_into_empty (MkState [[]] []) 0 patch eq_refl
              patch_distinct) as (s' & F' & Hrun & _ & Hrep & _).
  exists s', F'. split; [exact Hrun | exact Hrep].
Defined.

Lemma known_patch_distinct : distinct_keys (PMap known_patch).
Proof.
  constructor; [apply NoDup_by_decide; vm_compute; reflexivity|].
  apply Forall_cons. split.
  - constructor; [apply NoDup_by_decide; vm_compute; reflexivity|].
    apply Forall_cons. split; constructor.
  - apply Forall_cons. split; constructor.
Defined.

Lemma known_patch_covered : covered (PMap merge_tree) (Some (PMap known_patch)).
Proof.
  constructor.
  - intros k Hin.
    apply elem_of_cons in Hin as [->|Hin]; [left|].
    apply elem_of_cons in Hin as [->|Hin]; [right; left|].
    by apply elem_of_nil in Hin.
  - apply Forall_cons. split.
    + constructor.
      * intros k Hin. apply elem_of_cons in Hin as [->|Hin]; [left|].
        by apply elem_of_nil in Hin.
      * apply Forall_cons. split; constructor.
    + apply Forall_cons. split; [constructor|].
      apply Forall_cons. split; constructor.
Defined.

Lemma strict_and_lenient_agree_witness :
  repr (heap merge_store) (PMap merge_tree) (VRef 0) [0; 1]
  ∧ NoDup [0; 1]
  ∧ distinct_keys (PMap known_patch)
  ∧ covered (PMap merge_tree) (Some (PMap known_patch))
  ∧ ∃ s1 s2,
      _update_dict (PMap known_patch) (VRef 0) merge_store = Ok (VRef 0, s1)
      ∧ _update_dict_strict (PMap known_patch) (VRef 0) merge_store
        = Ok (VRef 0, s2).
Proof.
  split; [exact merge_store_tree|]. split; [exact nodup_01|].
  split; [exact known_patch_distinct|]. split; [exact known_patch_covered|].
  destruct (strict_and_lenient_agree merge_store 0 merge_tree known_patch
              [0; 1] merge_store_tree nodup_01 known_patch_distinct
              known_patch_covered) as (s1 & s2 & _ & _ & H1 & H2 & _).
  exists s1, s2. split; [exact H1 | exact H2].
Defined.

Lemma merge_twice_witness :
  repr (heap merge_store) (PMap merge_tree) (VRef 0) [0; 1]
  ∧ NoDup [0; 1]
  ∧ distinct_keys (PMap patch)
  ∧ compatible (PMap merge_tree) (Some (PMap patch))
  ∧ ∃ s1 s2,
      _update_dict (PMap patch) (VRef 0) merge_store = Ok (VRef 0, s1)
      ∧ _update_dict (PMap patch) (VRef 0) s1 = Ok (VRef 0, s2).
Proof.
  split; [exact merge_store_tree|]. split; [exact nodup_01|].
  split; [exact patch_distinct|]. split; [exact patch_compatible|].
  destruct (proj1 (merge_twice merge_store 0 merge_tree patch [0; 1]
                     merge_store_tree nodup_01 patch_distinct
                     patch_compatible)) as (s1 & s2 & _ & _ & H1 & H2 & _).
  exists s1, s2. split; [exact H1 | exact H2].
Defined.

Lemma strict_merge_unknown_keys_witness :
  heap merge_store !! 0
  = Some [("a", VRef 1); ("b", VAtom (AInt 2)); ("c", VAtom (AInt 3))]
  ∧ _update_dict_strict (PMap unknown_patch) (VRef 0) merge_store
    = Ok (VRef 0,
          MkState (heap merge_store) [skip_message "q"; skip_message "r"]).
Proof.
  split; [reflexivity|].
  apply (strict_merge_unknown_keys merge_store 0 _ unknown_patch eq_refl).
  assert (Hfresh : ∀ k, bool_decide (k ∈ ["a"; "b"; "c"]) = false →
                        k ∉ keys [("a", VRef 1); ("b", VAtom (AInt 2));
                                  ("c", VAtom (AInt 3))]).
  { intros k Hk. exact (proj1 (bool_decide_eq_false _) Hk). }
  intros k Hin.
  apply elem_of_cons in Hin as [->|Hin]; [by apply Hfresh|].
  apply elem_of_cons in Hin as [->|Hin]; [by apply Hfresh|].
  by apply elem_of_nil in Hin.
Defined.

Lemma posix_path_laws : path_laws (H := posix_env).
Proof.
  assert (Hslash : ∀ s, String.prefix "/" s = true →
                        ∃ s', s = String "/" s').
  { intros [|c s0] Hp; [done|]. unfold String.prefix in Hp.
    destruct (ascii_dec "/" c) as [<-|]; [by eexists | done]. }
  split; [|split; [|split; [|split]]].
  - intros [s]. cbn. destruct (String.prefix "/" s) eqn:E;
      [exact E | reflexivity].
  - intros [s]. cbn. destruct (String.prefix "/" s) eqn:E; cbn.
    + by rewrite E.
    + reflexivity.
  - intros [s]. cbn.
    destruct (String.prefix "/" s) eqn:E; [done|].
    rewrite !orb_true_iff, !String.eqb_eq.
    intros [->|[->|[->|[->|[->|[=]]]]]]; discriminate E.
  - intros [s] Habs. cbn in Habs. destruct (Hslash s Habs) as [s' ->].
    split; reflexivity.
  - intros [s] [q] Habs. cbn in Habs |- *.
    destruct (String.prefix "/" q) eqn:E; [exact E|].
    destruct (Hslash s Habs) as [s' ->]. by destruct s'.
Defined.

Lemma posix_cwd_laws : cwd_laws (H := posix_env).
Proof. repeat split. Defined.

Lemma validate_paths_twice_witness :
  path_laws (H := posix_env)
  ∧ is_absolute (Env := posix_env) (MkPath "/data") = true
  ∧ NoDup (keys plain_qc)
  ∧ validate_paths (H := posix_env) (VRef 2) (MkPath "/data") plain_store
    = Ok (VRef 3,
          MkState (heap plain_store
                   ++ [[("suffix", VAtom (AStr "qc"));
                        ("reads_fp", VAtom (APath (MkPath "/data/reads")))]])
                  [])
  ∧ ∃ s2, validate_paths (H := posix_env) (VRef 3) (MkPath "/data")
            (MkState (heap plain_store
                      ++ [[("suffix", VAtom (AStr "qc"));
                           ("reads_fp", VAtom (APath (MkPath "/data/reads")))]])
                     [])
          = Ok (VRef 4, s2).
Proof.
  assert (Hnd : NoDup (keys plain_qc))
    by (apply NoDup_by_decide; vm_compute; reflexivity).
  split; [exact posix_path_laws|]. split; [reflexivity|]. split; [exact Hnd|].
  split; [reflexivity|].
  destruct (validate_paths_twice (H := posix_env) plain_store 2 plain_qc
              (MkPath "/data") _ _ posix_path_laws eq_refl eq_refl Hnd eq_refl)
    as (l1 & S' & _ & _ & Hrun).
  eexists. exact Hrun.
Defined.

Lemma check_config_twice_witness :
  path_laws (H := posix_env)
  ∧ cwd_laws (H := posix_env)
  ∧ config_tree (heap plain_store) plain_cfg
  ∧ check_config (H := posix_env) (VRef 0) plain_store
    = Ok (VRef 3, checked_store)
  ∧ ∃ c2 s2, check_config (H := posix_env) (VRef 3) checked_store
             = Ok (VRef c2, s2).
Proof.
  split; [exact posix_path_laws|]. split; [exact posix_cwd_laws|].
  split; [exact plain_store_tree|]. split; [reflexivity|].
  destruct (check_config_twice (H := posix_env) plain_store 0 1 plain_cfg
              plain_all (VRef 3) checked_store posix_path_laws posix_cwd_laws
              eq_refl plain_store_tree eq_refl eq_refl eq_refl)
    as (c1 & c2 & s2 & d1 & d2 & _ & Hrun & _).
  exists c2, s2. exact Hrun.
Defined.

Lemma lenient_merge_adds_keys_witness :
  heap merge_store !! 0
  = Some [("a", VRef 1); ("b", VAtom (AInt 2)); ("c", VAtom (AInt 3))]
  ∧ _update_dict (PMap patch) (VRef 0) merge_store
    = Ok (VRef 0,
          MkState [[("a", VRef 1); ("b", VAtom (AInt 20));
                    ("c", VAtom (AInt 3)); ("q", VAtom (AInt 1))];
                   [("x", VAtom (AInt 10)); ("z", VAtom (AInt 5))]] [])
  ∧ ∃ d', heap (MkState [[("a", VRef 1); ("b", VAtom (AInt 20));
                          ("c", VAtom (AInt 3)); ("q", VAtom (AInt 1))];
                         [("x", VAtom (AInt 10)); ("z", VAtom (AInt 5))]] [])
            !! 0 = Some d'
          ∧ ∀ k, k ∈ keys patch → k ∈ keys d'.
Proof.
  split; [reflexivity|]. split; [reflexivity|].
  exact (proj2 (proj2 (proj2
           (lenient_merge_adds_keys merge_store 0 _ patch (VRef 0) _
              eq_refl eq_refl)))).
Defined.

Lemma flat_patch_distinct : distinct_keys (PMap flat_patch).
Proof.
  constructor; [apply NoDup_by_decide; vm_compute; reflexivity|].
  apply Forall_cons. split; [constructor|].
  apply Forall_cons. split; constructor.
Defined.

Lemma flat_tree_repr :
  repr [[("b", VAtom (AInt 2)); ("c", VAtom (AInt 3))]] (PMap flat_tree)
       (VRef 0) [0].
Proof.
  eapply repr_map; [reflexivity|apply NoDup_by_decide; vm_compute; reflexivity|].
  apply (repr_cons _ _ _ _ _ _ [] []); [constructor|].
  apply (repr_cons _ _ _ _ _ _ [] []); constructor.
Defined.

Lemma update_strict_skips_extensions_witness :
  extension_config (H := listing_env no_listing Sample.sample_read_text)
  = Err OSError
  ∧ update (H := listing_env no_listing Sample.sample_read_text)
      load_flat load_ext "b: 2" (PMap flat_patch) false (MkState [] [])
    = Err OSError
  ∧ update (H := listing_env no_listing Sample.sample_read_text)
      load_flat load_ext "b: 2" (PMap flat_patch) true (MkState [] [])
    = Ok (VRef 0,
          MkState [[("b", VAtom (AInt 2)); ("c", VAtom (AInt 5))]]
                  [skip_message "q"]).
Proof.
  split; [reflexivity|].
  exact (update_strict_skips_extensions
           (H := listing_env no_listing Sample.sample_read_text)
           load_flat load_ext "b: 2" (PMap flat_patch) (MkState [] []) _ _ 0
           OSError eq_refl eq_refl eq_refl).
Defined.

Lemma update_extensions_last_witness :
  repr [[("b", VAtom (AInt 2)); ("c", VAtom (AInt 3))]] (PMap flat_tree)
       (VRef 0) [0]
  ∧ distinct_keys (PMap flat_patch)
  ∧ (∃ s', update (H := Sample.env) load_flat load_ext "b: 2"
             (PMap flat_patch) false (MkState [] []) = Ok (VRef 0, s'))
  ∧ dict_get "c" (merge_lenient (merge_lenient flat_tree flat_patch)
                    [("c", PAtom (AInt 30))])
    = Some (PAtom (AInt 30)).
Proof.
  split; [exact flat_tree_repr|]. split; [exact flat_patch_distinct|].
  destruct (proj1 (update_extensions_last (H := Sample.env)
              load_flat load_ext "b: 2" _ flat_tree flat_patch
              (MkState [] []) _ 0 [0]
              eq_refl flat_tree_repr (NoDup_singleton 0) flat_patch_distinct
              ltac:(repeat constructor) eq_refl)
            [("c", PAtom (AInt 30))] eq_refl ltac:(discriminate)
            ltac:(constructor;
                    [apply NoDup_by_decide; vm_compute; reflexivity
                    |repeat constructor])
            ltac:(repeat constructor))
    as (s' & F' & Hrun & _ & Hwin).
  split; [by exists s'|].
  exact (Hwin "c" (PAtom (AInt 30)) (VAtom (AInt 30)) eq_refl eq_refl).
Defined.
